(** * goemon: the pattern compiler, rule matching, dispatch and restart gate

    A shallow embedding of [goemon.go] and the properties of its
    specification.  Go strings are modelled by their sequence of code
    points, unsigned machine integers by [N] with explicit wrap-around,
    goroutines by a labelled step relation over a shared state. *)

From Stdlib Require Import NArith Lia String Ascii.
From stdpp Require Import base list gmap.

(** ** Go strings *)

(** A rune is a Unicode code point.  A Go string is kept as the result
    of [[]rune(s)]; every string handled here is valid UTF-8, so byte
    level tests on ASCII characters ([pattern[0] == '%'], splitting at
    ["|"], prefix tests) agree with the same tests on runes. *)
Definition rune : Type := N.
Bind Scope N_scope with rune.
Definition gostring : Type := list rune.

Definition rune_of_ascii (a : ascii) : rune := N_of_ascii a.

(** An ASCII literal as a Go string. *)
Definition str (s : string) : gostring :=
  rune_of_ascii <$> list_ascii_of_string s.

(** A one-character literal such as ['/']. *)
Definition chr (s : string) : rune :=
  match s with
  | String a _ => rune_of_ascii a
  | EmptyString => 0%N
  end.

Arguments str : simpl never.
Arguments chr : simpl never.

Definition rune_eqb (a b : rune) : bool := N.eqb a b.
Arguments rune_eqb : simpl never.
Infix "=?r" := rune_eqb (at level 70).

(** [s == t] on strings. *)
Definition string_eqb (s t : gostring) : bool := bool_decide (s = t).

(** [strings.HasPrefix(s, prefix)]. *)
Fixpoint strings_HasPrefix (s pre : gostring) : bool :=
  match pre, s with
  | [], _ => true
  | _ :: _, [] => false
  | c :: pre', d :: s' => (c =?r d) && strings_HasPrefix s' pre'
  end.

(** [strings.Split(s, sep)] for a one-character separator: the pieces
    between the separators, so [n] separators give [n + 1] pieces and the
    empty string gives one empty piece. *)
Fixpoint strings_Split (s : gostring) (sep : rune) : list gostring :=
  match s with
  | [] => [[]]
  | c :: s' =>
      if c =?r sep then [] :: strings_Split s' sep
      else match strings_Split s' sep with
           | piece :: pieces => (c :: piece) :: pieces
           | [] => [[c]]
           end
  end.

(** [strings.Join(elems, sep)]. *)
Fixpoint strings_Join (elems : list gostring) (sep : gostring) : gostring :=
  match elems with
  | [] => []
  | [e] => e
  | e :: es => e ++ sep ++ strings_Join es sep
  end.

(** The digits of [fmt.Sprintf("%x", r)]: lower-case hexadecimal with no
    leading zero. *)
Definition hex_digit (d : N) : rune :=
  if (d <? 10)%N then (48 + d)%N else (87 + d)%N.

Fixpoint fmt_x_from (fuel : nat) (n : N) (acc : gostring) : gostring :=
  let acc' := hex_digit (n mod 16) :: acc in
  match fuel with
  | O => acc'
  | S fuel' => if (n / 16 =? 0)%N then acc' else fmt_x_from fuel' (n / 16) acc'
  end.

Definition fmt_x (n : N) : gostring :=
  fmt_x_from (N.to_nat (N.log2 n)) n [].

(** ** Outcomes of Go code *)

(** A call returns, or panics (an index out of range); [OutOfFuel] is the
    model's own, for a loop cut short by its fuel, and is shown never to
    arise. *)
Inductive outcome (A : Type) : Type :=
| Returns (a : A)
| Panics
| OutOfFuel.
Arguments Returns {A} a.
Arguments Panics {A}.
Arguments OutOfFuel {A}.

#[global] Instance outcome_ret : MRet outcome := @Returns.
#[global] Instance outcome_bind : MBind outcome := λ A B f m,
  match m with
  | Returns a => f a
  | Panics => Panics
  | OutOfFuel => OutOfFuel
  end.

(** A Go [error] carries its message. *)
Definition error : Type := gostring.

(** [s[i]]: a read outside the slice panics. *)
Definition index {A} (s : list A) (i : nat) : outcome A :=
  match s !! i with
  | Some c => Returns c
  | None => Panics
  end.

(** ** path/filepath on a Unix host *)

(** [runtime.GOOS == "windows"] is false on the hosts modelled here; the
    separator is ['/'] and [filepath.ToSlash] leaves a path as it is. *)
Definition GOOS_windows : bool := false.

Definition Separator : rune := chr "/".

Definition filepath_ToSlash (path : gostring) : gostring := path.

Definition filepath_IsAbs (path : gostring) : bool :=
  strings_HasPrefix path [Separator].

(** One element of the path met by [filepath.Clean], on the stack of the
    elements kept so far (last one first): empty and ["."] elements are
    dropped; [".."] removes the element before it, is dropped at the root
    and is kept at the head of a relative path. *)
Definition clean_elem (rooted : bool) (kept : list gostring) (elem : gostring)
  : list gostring :=
  if string_eqb elem [] || string_eqb elem (str ".") then kept
  else if string_eqb elem (str "..") then
    match kept with
    | top :: below => if string_eqb top (str "..") then elem :: kept else below
    | [] => if rooted then [] else [elem]
    end
  else elem :: kept.

(** [filepath.Clean(path)]. *)
Definition filepath_Clean (path : gostring) : gostring :=
  let rooted := filepath_IsAbs path in
  let kept := foldl (clean_elem rooted) [] (strings_Split path Separator) in
  let body := strings_Join (rev kept) [Separator] in
  if rooted then Separator :: body
  else match body with [] => str "." | _ => body end.

(** [filepath.Join(a, b)]: the non-empty elements joined and cleaned. *)
Definition filepath_Join (a b : gostring) : gostring :=
  match a, b with
  | [], [] => []
  | [], _ => filepath_Clean b
  | _, _ => filepath_Clean (a ++ Separator :: b)
  end.

(** What the program takes from its host besides the file system:
    [os_Getwd] is what [os.Getwd] returns, [None] when it fails. *)
Class Host := {
  os_Getwd : option gostring;
  strings_ToUpper : gostring → gostring
}.

(** [filepath.Abs(path)]. *)
Definition filepath_Abs `{Host} (path : gostring) : gostring + error :=
  if filepath_IsAbs path then inl (filepath_Clean path)
  else match os_Getwd with
       | Some wd => inl (filepath_Join wd path)
       | None => inr (str "getwd")
       end.

(** The text of [path] up to and including its last separator. *)
Fixpoint upto_last_sep (path : gostring) : gostring :=
  match path with
  | [] => []
  | c :: path' =>
      match upto_last_sep path' with
      | [] => if c =?r Separator then [c] else []
      | d => c :: d
      end
  end.

(** [filepath.Dir(path)]. *)
Definition filepath_Dir (path : gostring) : gostring :=
  filepath_Clean (upto_last_sep path).

(** ** regexp: the RE2 fragment that goemon relies on *)

(** Go's [regexp] package is a library the program calls.  The program is
    verified against the interface below; [re2] further down is a model
    of the package for the part of the RE2 syntax (Perl flags, as
    [regexp.Compile] selects them) that [compilePattern] can emit and
    that [commandRe] uses. *)
Class RegexpLib := {
  Regexp : Type;
  (** [regexp.Compile(expr)]: a compiled expression, or [(nil, err)]. *)
  regexp_Compile : gostring → Regexp + error;
  (** [re.MatchString(s)]: [s] contains a match. *)
  MatchString : Regexp → gostring → bool
}.

Module syntax.

Inductive perl_class : Type := ClassDigit | ClassSpace | ClassWord.

(** A member of a bracket expression. *)
Inductive class_item : Type :=
| Range (lo hi : rune)
| Perl (k : perl_class) (negated : bool).

Inductive Regexp : Type :=
| OpEmptyMatch
| OpLiteral (r : rune)
| OpCharClass (negated : bool) (items : list class_item)
| OpAnyCharNotNL
| OpBeginText
| OpEndText
| OpCapture (sub : Regexp)
| OpStar (sub : Regexp)
| OpPlus (sub : Regexp)
| OpQuest (sub : Regexp)
| OpConcat (a b : Regexp)
| OpAlternate (a b : Regexp).

(** *** Matching *)

Definition in_range (lo hi c : rune) : bool := (lo <=? c)%N && (c <=? hi)%N.

(** [\d], [\s] and [\w] are ASCII-only in RE2. *)
Definition perl_matches (k : perl_class) (c : rune) : bool :=
  match k with
  | ClassDigit => in_range 48 57 c
  | ClassSpace =>
      (c =?r 9) || (c =?r 10) || (c =?r 12) || (c =?r 13) || (c =?r 32)
  | ClassWord =>
      in_range 48 57 c || in_range 65 90 c || in_range 97 122 c || (c =?r 95)
  end.

Definition item_matches (it : class_item) (c : rune) : bool :=
  match it with
  | Range lo hi => in_range lo hi c
  | Perl k negated => xorb negated (perl_matches k c)
  end.

(** A negated class matches every rune outside it, the newline too. *)
Definition class_matches (negated : bool) (items : list class_item) (c : rune)
  : bool :=
  xorb negated (existsb (λ it, item_matches it c) items).

(** A continuation receives whether the position is still the start of
    the text, and the text left. *)
Definition cont : Type := bool → gostring → bool.

(** Zero or more rounds of [ms], each one consuming some text. *)
Fixpoint star (ms : cont → cont) (k : cont) (fuel : nat) : cont := λ bot s,
  k bot s ||
  match fuel with
  | O => false
  | S fuel' =>
      ms (λ bot' s', (length s' <? length s)%nat && star ms k fuel' bot' s')
         bot s
  end.

(** [m re k bot s]: some prefix of [s] matches [re] and [k] accepts what
    follows it. *)
Fixpoint m (re : Regexp) (k : cont) : cont := λ bot s,
  match re with
  | OpEmptyMatch => k bot s
  | OpLiteral r =>
      match s with
      | c :: s' => (c =?r r) && k false s'
      | [] => false
      end
  | OpCharClass negated items =>
      match s with
      | c :: s' => class_matches negated items c && k false s'
      | [] => false
      end
  | OpAnyCharNotNL =>
      match s with
      | c :: s' => negb (c =?r 10) && k false s'
      | [] => false
      end
  | OpBeginText => bot && k bot s
  | OpEndText =>
      match s with
      | [] => k bot s
      | _ :: _ => false
      end
  | OpCapture sub => m sub k bot s
  | OpStar sub => star (m sub) k (length s) bot s
  | OpPlus sub => m sub (λ bot' s', star (m sub) k (length s') bot' s') bot s
  | OpQuest sub => m sub k bot s || k bot s
  | OpConcat a b => m a (m b k) bot s
  | OpAlternate a b => m a k bot s || m b k bot s
  end.

Definition accept : cont := λ _ _, true.

(** A match may start at any position of the text. *)
Fixpoint search (re : Regexp) (bot : bool) (s : gostring) : bool :=
  m re accept bot s ||
  match s with
  | [] => false
  | _ :: s' => search re false s'
  end.

Definition MatchString (re : Regexp) (s : gostring) : bool := search re true s.

(** *** Parsing *)

Definition unhex (c : rune) : option N :=
  if in_range 48 57 c then Some (c - 48)%N
  else if in_range 97 102 c then Some (c - 87)%N
  else if in_range 65 70 c then Some (c - 55)%N
  else None.

Definition isalnum (c : rune) : bool :=
  in_range 48 57 c || in_range 65 90 c || in_range 97 122 c.

Definition outside_fragment : error := str "regexp syntax outside the modelled fragment".
Definition ErrInvalidEscape : error := str "invalid escape sequence".
Definition ErrTrailingBackslash : error := str "trailing backslash at end of expression".
Definition ErrMissingBracket : error := str "missing closing ]".
Definition ErrInvalidCharRange : error := str "invalid character class range".
Definition ErrMissingParen : error := str "missing closing )".
Definition ErrUnexpectedParen : error := str "unexpected )".
Definition ErrMissingRepeatArgument : error := str "missing argument to repetition operator".
Definition ErrInvalidRepeatOp : error := str "invalid nested repetition operator".

(** [\d \D \s \S \w \W], given the rune after the backslash. *)
Definition perl_escape (c : rune) : option class_item :=
  if c =?r chr "d" then Some (Perl ClassDigit false)
  else if c =?r chr "D" then Some (Perl ClassDigit true)
  else if c =?r chr "s" then Some (Perl ClassSpace false)
  else if c =?r chr "S" then Some (Perl ClassSpace true)
  else if c =?r chr "w" then Some (Perl ClassWord false)
  else if c =?r chr "W" then Some (Perl ClassWord true)
  else None.

(** [parseEscape], given the text after the backslash: the rune denoted
    and the text left. *)
Definition parseEscape (t : gostring) : (rune * gostring) + error :=
  match t with
  | [] => inr ErrTrailingBackslash
  | c :: t' =>
      if in_range 48 55 c then inr outside_fragment
      else if c =?r chr "x" then
        match t' with
        | h1 :: t'' =>
            if h1 =?r chr "{" then inr outside_fragment
            else match t'' with
                 | h2 :: t''' =>
                     match unhex h1, unhex h2 with
                     | Some x, Some y => inl ((x * 16 + y)%N, t''')
                     | _, _ => inr ErrInvalidEscape
                     end
                 | [] => inr ErrInvalidEscape
                 end
        | [] => inr ErrInvalidEscape
        end
      else if c =?r chr "a" then inl (7%N, t')
      else if c =?r chr "f" then inl (12%N, t')
      else if c =?r chr "n" then inl (10%N, t')
      else if c =?r chr "r" then inl (13%N, t')
      else if c =?r chr "t" then inl (9%N, t')
      else if c =?r chr "v" then inl (11%N, t')
      else if (c <? 128)%N && negb (isalnum c) then inl (c, t')
      else inr ErrInvalidEscape
  end.

(** [parseClassChar]: one rune of a bracket expression, escaped or not. *)
Definition parseClassChar (t : gostring) : (rune * gostring) + error :=
  match t with
  | [] => inr ErrMissingBracket
  | c :: t' => if c =?r chr "\" then parseEscape t' else inl (c, t')
  end.

(** [parseClassRange]: a rune, or a range [lo-hi]; in ["a-]"] the dash is
    a rune of its own. *)
Definition parseClassRange (t : gostring) : (class_item * gostring) + error :=
  match parseClassChar t with
  | inr e => inr e
  | inl (lo, t1) =>
      match t1 with
      | dash :: nxt :: _ =>
          if (dash =?r chr "-") && negb (nxt =?r chr "]") then
            match parseClassChar (tail t1) with
            | inr e => inr e
            | inl (hi, t2) =>
                if (hi <? lo)%N then inr ErrInvalidCharRange
                else inl (Range lo hi, t2)
            end
          else inl (Range lo lo, t1)
      | _ => inl (Range lo lo, t1)
      end
  end.

(** The loop of [parseClass], after the opening bracket and the negation
    sign: items up to the closing bracket, which may itself be the first
    item. *)
Fixpoint parseClassItems (fuel : nat) (first : bool) (items : list class_item)
    (t : gostring) : (list class_item * gostring) + error :=
  match t with
  | [] => inr ErrMissingBracket
  | c :: t' =>
      if (c =?r chr "]") && negb first then inl (rev items, t')
      else
        match fuel with
        | O => inr outside_fragment
        | S fuel' =>
            let perl :=
              match t' with
              | e :: t'' => if c =?r chr "\" then
                              (if (e =?r chr "p") || (e =?r chr "P") then Some None
                               else match perl_escape e with
                                    | Some it => Some (Some (it, t''))
                                    | None => None
                                    end)
                            else if (c =?r chr "[") && (e =?r chr ":")
                                 then Some None else None
              | [] => None
              end in
            match perl with
            | Some None => inr outside_fragment
            | Some (Some (it, t'')) => parseClassItems fuel' false (it :: items) t''
            | None =>
                match parseClassRange t with
                | inr e => inr e
                | inl (it, t1) => parseClassItems fuel' false (it :: items) t1
                end
            end
        end
  end.

(** [parseClass], given the text after the opening bracket. *)
Definition parseClass (t : gostring) : (Regexp * gostring) + error :=
  let '(negated, t1) :=
    match t with
    | c :: t' => if c =?r chr "^" then (true, t') else (false, t)
    | [] => (false, t)
    end in
  match parseClassItems (length t1) true [] t1 with
  | inr e => inr e
  | inl (items, rest) => inl (OpCharClass negated items, rest)
  end.

(** The operands of the expression being read, innermost first: the
    alternatives completed so far and the factors of the current one,
    both last one first. *)
Record frame : Type := { alts : list Regexp; cur : list Regexp }.

Definition empty_frame : frame := {| alts := []; cur := [] |}.

Definition push (f : frame) (re : Regexp) : frame :=
  {| alts := alts f; cur := re :: cur f |}.

Fixpoint concat (factors : list Regexp) : Regexp :=
  match factors with
  | [] => OpEmptyMatch
  | [re] => re
  | re :: res => OpConcat re (concat res)
  end.

Fixpoint alternate (branches : list Regexp) : Regexp :=
  match branches with
  | [] => OpEmptyMatch
  | [re] => re
  | re :: res => OpAlternate re (alternate res)
  end.

(** A vertical bar closes the current alternative. *)
Definition bar (f : frame) : frame :=
  {| alts := concat (rev (cur f)) :: alts f; cur := [] |}.

Definition collapse (f : frame) : Regexp := alternate (rev (alts (bar f))).

(** A repetition operator applies to the last factor. *)
Definition repeat (op : Regexp → Regexp) (lastRepeat : bool) (f : frame)
  : frame + error :=
  if lastRepeat then inr ErrInvalidRepeatOp
  else match cur f with
       | [] => inr ErrMissingRepeatArgument
       | re :: res => inl {| alts := alts f; cur := op re :: res |}
       end.

(** A repetition operator may carry a [?] (prefer fewer rounds), which
    does not change what matches. *)
Definition skip_lazy (t : gostring) : gostring :=
  match t with
  | c :: t' => if c =?r chr "?" then t' else t
  | [] => t
  end.

(** The main loop of [syntax.Parse]: [stack] holds the frames of the
    groups still open with whether each captures, [f] the innermost
    frame, [lastRepeat] whether the token just read was a repetition. *)
Fixpoint parse (fuel : nat) (stack : list (frame * bool)) (f : frame)
    (lastRepeat : bool) (t : gostring) : Regexp + error :=
  match t with
  | [] =>
      match stack with
      | [] => inl (collapse f)
      | _ :: _ => inr ErrMissingParen
      end
  | c :: t' =>
      match fuel with
      | O => inr outside_fragment
      | S fuel' =>
          if c =?r chr "(" then
            match t' with
            | q :: t'' =>
                if q =?r chr "?" then
                  match t'' with
                  | colon :: t''' =>
                      if colon =?r chr ":"
                      then parse fuel' ((f, false) :: stack) empty_frame false t'''
                      else inr outside_fragment
                  | [] => inr outside_fragment
                  end
                else parse fuel' ((f, true) :: stack) empty_frame false t'
            | [] => inr ErrMissingParen
            end
          else if c =?r chr ")" then
            match stack with
            | [] => inr ErrUnexpectedParen
            | (outer, capture) :: stack' =>
                let sub := collapse f in
                parse fuel' stack'
                  (push outer (if capture : bool then OpCapture sub else sub))
                  false t'
            end
          else if c =?r chr "|" then parse fuel' stack (bar f) false t'
          else if c =?r chr "*" then
            match repeat OpStar lastRepeat f with
            | inl f' => parse fuel' stack f' true (skip_lazy t')
            | inr e => inr e
            end
          else if c =?r chr "+" then
            match repeat OpPlus lastRepeat f with
            | inl f' => parse fuel' stack f' true (skip_lazy t')
            | inr e => inr e
            end
          else if c =?r chr "?" then
            match repeat OpQuest lastRepeat f with
            | inl f' => parse fuel' stack f' true (skip_lazy t')
            | inr e => inr e
            end
          else if c =?r chr "{" then inr outside_fragment
          else if c =?r chr "." then parse fuel' stack (push f OpAnyCharNotNL) false t'
          else if c =?r chr "^" then parse fuel' stack (push f OpBeginText) false t'
          else if c =?r chr "$" then parse fuel' stack (push f OpEndText) false t'
          else if c =?r chr "[" then
            match parseClass t' with
            | inl (re, rest) => parse fuel' stack (push f re) false rest
            | inr e => inr e
            end
          else if c =?r chr "\" then
            match t' with
            | e :: t'' =>
                if existsb (rune_eqb e) (str "AbBCQzpP") then inr outside_fragment
                else match perl_escape e with
                     | Some it => parse fuel' stack (push f (OpCharClass false [it])) false t''
                     | None =>
                         match parseEscape t' with
                         | inl (r, rest) => parse fuel' stack (push f (OpLiteral r)) false rest
                         | inr err => inr err
                         end
                     end
            | [] => inr ErrTrailingBackslash
            end
          else parse fuel' stack (push f (OpLiteral c)) false t'
      end
  end.

(** [regexp.Compile(expr)]. *)
Definition Compile (expr : gostring) : Regexp + error :=
  parse (length expr) [] empty_frame false expr.

End syntax.

Definition re2 : RegexpLib := {|
  Regexp := syntax.Regexp;
  regexp_Compile := syntax.Compile;
  MatchString := syntax.MatchString
|}.

(** ** fsnotify *)

Module fsnotify.

(** [type Op uint32], one bit for each kind of change. *)
Definition Op : Type := N.
Definition Create : Op := 1%N.
Definition Write : Op := 2%N.
Definition Remove : Op := 4%N.
Definition Rename : Op := 8%N.
Definition Chmod : Op := 16%N.

Record Event : Type := { Name : gostring; op : Op }.

End fsnotify.

(** [a] is a subset of [b] as sets of bits. *)
Definition subset_bits (a b : N) : Prop :=
  ∀ n, N.testbit a n = true → N.testbit b n = true.

(** ** goemon.go *)

(** An entry of [tasks] in the configuration file. *)
Record entry : Type := {
  yaml_match : gostring;
  yaml_ignore : gostring;
  yaml_commands : list gostring;
  yaml_ops : list gostring
}.

(** A [*task]: the place of the task among the task objects allocated so
    far.  A reload allocates new objects and leaves the old ones to the
    goroutines that still hold them. *)
Abbreviation ptr := nat (only parsing).

Section goemon.
Context `{RegexpLib} `{Host}.

(** *** compilePattern (lines 81-127) *)

(** [a && b] where evaluating [b] reads the slice: [b] is not evaluated
    when [a] is false. *)
Definition and_then (a : bool) (b : outcome bool) : outcome bool :=
  if a then b else Returns false.

(** The loop of lines 98-122 over the runes [rs] of one alternative, from
    index [i], writing to [buf].  Every round advances [i], so [length rs]
    rounds of fuel are enough. *)
Fixpoint compileRunes (fuel : nat) (pattern : gostring) (rs : list rune)
    (i : nat) (buf : gostring) : outcome (gostring + error) :=
  if negb (i <? length rs)%nat then Returns (inl buf)
  else
    match fuel with
    | O => OutOfFuel
    | S fuel' =>
        c ← index rs i;
        if c =?r chr "/" then
          if GOOS_windows
          then compileRunes fuel' pattern rs (i + 1) (buf ++ str "[/\\]")
          else compileRunes fuel' pattern rs (i + 1) (buf ++ [c])
        else if c =?r chr "*" then
          b ← and_then (i <? length rs - 1)%nat
                (c1 ← index rs (i + 1); Returns (c1 =?r chr "*"));
          if b : bool then
            let i := (i + 1)%nat in
            b' ← and_then (i <? length rs - 1)%nat
                   (c2 ← index rs (i + 1); Returns (c2 =?r chr "/"));
            if b' : bool then
              let i := (i + 1)%nat in
              compileRunes fuel' pattern rs (i + 1) (buf ++ str ".*")
            else Returns (inr (str "invalid wildcard: " ++ pattern))
          else compileRunes fuel' pattern rs (i + 1) (buf ++ str "[^/]+")
        else if c =?r chr "?" then
          compileRunes fuel' pattern rs (i + 1) (buf ++ str "\S")
        else
          compileRunes fuel' pattern rs (i + 1)
            (buf ++ str "[\x" ++ fmt_x c ++ str "]")
    end.

(** The same loop by recursion on the runes left to read, [rs] being
    [rs[i:]]; [compileRunes_translate] below shows that the two agree. *)
Fixpoint translate (pattern : gostring) (rs : list rune) (buf : gostring)
  : gostring + error :=
  match rs with
  | [] => inl buf
  | c :: rs1 =>
      if c =?r chr "/" then
        translate pattern rs1
          (buf ++ (if GOOS_windows then str "[/\\]" else [c]))
      else if c =?r chr "*" then
        match rs1 with
        | c1 :: rs2 =>
            if c1 =?r chr "*" then
              match rs2 with
              | c2 :: rs3 =>
                  if c2 =?r chr "/" then translate pattern rs3 (buf ++ str ".*")
                  else inr (str "invalid wildcard: " ++ pattern)
              | [] => inr (str "invalid wildcard: " ++ pattern)
              end
            else translate pattern rs1 (buf ++ str "[^/]+")
        | [] => translate pattern rs1 (buf ++ str "[^/]+")
        end
      else if c =?r chr "?" then translate pattern rs1 (buf ++ str "\S")
      else translate pattern rs1 (buf ++ str "[\x" ++ fmt_x c ++ str "]")
  end.

(** [rs] holds two stars that no slash follows. *)
Fixpoint lone_starstar (rs : list rune) : bool :=
  match rs with
  | c :: rs1 =>
      match rs1 with
      | c1 :: rs2 =>
          (c =?r chr "*") && (c1 =?r chr "*")
          && match rs2 with
             | c2 :: _ => negb (c2 =?r chr "/")
             | [] => true
             end
      | [] => false
      end
      || lone_starstar rs1
  | [] => false
  end.

(** Line 94-96: the alternative as the loop reads it. *)
Definition resolve (pat : gostring) : gostring :=
  match filepath_Abs pat with
  | inl fs => filepath_ToSlash fs
  | inr _ => pat
  end.

(** The loop of lines 88-124 over the alternatives, [n] being the index
    of the first of [pats]. *)
Fixpoint compileAlternatives (pattern : gostring) (n : nat)
    (pats : list gostring) (buf : gostring) : outcome (gostring + error) :=
  match pats with
  | [] => Returns (inl buf)
  | pat :: pats' =>
      let buf := if (n =? 0)%nat then buf ++ str "^" else buf ++ str "$|" in
      let pat := resolve pat in
      let rs := pat in
      r ← compileRunes (length rs) pattern rs 0 buf;
      match r with
      | inr err => Returns (inr err)
      | inl buf => compileAlternatives pattern (S n) pats' (buf ++ str "$")
      end
  end.

(** The loop over the alternatives with [translate] for its inner loop. *)
Fixpoint alternatives (pattern : gostring) (n : nat) (pats : list gostring)
    (buf : gostring) : gostring + error :=
  match pats with
  | [] => inl buf
  | pat :: pats' =>
      let buf := if (n =? 0)%nat then buf ++ str "^" else buf ++ str "$|" in
      match translate pattern (resolve pat) buf with
      | inr err => inr err
      | inl buf => alternatives pattern (S n) pats' (buf ++ str "$")
      end
  end.

Definition compilePattern (pattern : gostring) : outcome (Regexp + error) :=
  c ← index pattern 0;
  if c =?r chr "%" then Returns (regexp_Compile (drop 1 pattern))
  else
    r ← compileAlternatives pattern 0 (strings_Split pattern (chr "|")) [];
    match r with
    | inr err => Returns (inr err)
    | inl buf => Returns (regexp_Compile buf)
    end.

(** *** task (lines 43-53) *)

(** [mutex] is true while the lock is held. *)
Record task : Type := {
  Match : gostring;
  Ignore : gostring;
  Commands : list gostring;
  Ops : list gostring;
  mre : option Regexp;
  ire : option Regexp;
  mops : N;
  hit : bool;
  mutex : bool
}.

Definition set_mre (t : task) (v : option Regexp) : task :=
  {| Match := Match t; Ignore := Ignore t; Commands := Commands t;
     Ops := Ops t; mre := v; ire := ire t; mops := mops t; hit := hit t;
     mutex := mutex t |}.

Definition set_ire (t : task) (v : option Regexp) : task :=
  {| Match := Match t; Ignore := Ignore t; Commands := Commands t;
     Ops := Ops t; mre := mre t; ire := v; mops := mops t; hit := hit t;
     mutex := mutex t |}.

Definition set_mops (t : task) (v : N) : task :=
  {| Match := Match t; Ignore := Ignore t; Commands := Commands t;
     Ops := Ops t; mre := mre t; ire := ire t; mops := v; hit := hit t;
     mutex := mutex t |}.

Definition set_hit (t : task) (v : bool) : task :=
  {| Match := Match t; Ignore := Ignore t; Commands := Commands t;
     Ops := Ops t; mre := mre t; ire := ire t; mops := mops t; hit := v;
     mutex := mutex t |}.

Definition set_mutex (t : task) (v : bool) : task :=
  {| Match := Match t; Ignore := Ignore t; Commands := Commands t;
     Ops := Ops t; mre := mre t; ire := ire t; mops := mops t; hit := hit t;
     mutex := v |}.

(** A task as [yaml.Unmarshal] leaves it: the exported fields from the
    entry of the file, the others zero. *)
Definition unmarshalled (e : entry) : task :=
  {| Match := yaml_match e; Ignore := yaml_ignore e;
     Commands := yaml_commands e; Ops := yaml_ops e; mre := None;
     ire := None; mops := 0; hit := false; mutex := false |}.

(** *** match and matchOp (lines 137-146) *)

Definition task_match (t : task) (file : gostring) : bool :=
  match mre t with
  | Some re => MatchString re file
  | None => false
  end
  &&
  match ire t with
  | None => true
  | Some re => negb (MatchString re file)
  end.

Definition task_matchOp (t : task) (op : fsnotify.Op) : bool :=
  if (mops t =? 0)%N then true
  else (N.land op (mops t) =? op)%N.

(** The tests of lines 151-162 that decide whether [g.task] goes on to
    the lock for rule [t]. *)
Definition selects (t : task) (event : fsnotify.Event) : bool :=
  let file := filepath_ToSlash (fsnotify.Name event) in
  (if strings_HasPrefix (fsnotify.Name event) (str ":")
   then string_eqb (Match t) file
   else task_match t file)
  && task_matchOp t (fsnotify.op event).

(** *** load (lines 281-314) *)

(** Lines 298-313 for one name of [ops], on the mask [t.mops]; the second
    component is the line logged for an unknown name. *)
Definition load_op (m : N) (opname : gostring) : N * list gostring :=
  let u := strings_ToUpper opname in
  if string_eqb u (str "CREATE") then (N.lor m fsnotify.Create, [])
  else if string_eqb u (str "WRITE") then (N.lor m fsnotify.Write, [])
  else if string_eqb u (str "REMOVE") then (N.lor m fsnotify.Remove, [])
  else if string_eqb u (str "RENAME") then (N.lor m fsnotify.Rename, [])
  else if string_eqb u (str "CHMOD") then (N.lor m fsnotify.Chmod, [])
  else (m, [str "unknow operation " ++ opname]).

(** The loop of lines 298-313. *)
Definition load_mask (m : N) (ops : list gostring) : N * list gostring :=
  foldl (λ '(m, logged) opname,
           let '(m', lines) := load_op m opname in (m', logged ++ lines))
        (m, []) ops.

Definition load_ops (t : task) : task * list gostring :=
  let '(m, logged) := load_mask (mops t) (Ops t) in (set_mops t m, logged).

(** The body of the loop of lines 281-314 for one task: the task as the
    loop leaves it and the lines it logged. *)
Definition load_task (t : task) : outcome (task * list gostring) :=
  if string_eqb (Match t) [] then Returns (t, [])
  else
    r ← compilePattern (Match t);
    match r with
    | inr err => Returns (set_mre t None, [err])
    | inl re =>
        let t := set_mre t (Some re) in
        '(t, logged) ←
          (if negb (string_eqb (Ignore t) []) then
             r ← compilePattern (Ignore t);
             match r with
             | inr err => Returns (set_ire t None, [err])
             | inl re => Returns (set_ire t (Some re), [])
             end
           else Returns (set_ire t None, []));
        let '(t, logged') := load_ops t in
        Returns (t, logged ++ logged')
    end.

Fixpoint load_tasks (ts : list task) : outcome (list task * list gostring) :=
  match ts with
  | [] => Returns ([], [])
  | t :: ts' =>
      '(t', logged) ← load_task t;
      '(ts'', logged') ← load_tasks ts';
      Returns (t' :: ts'', logged ++ logged')
  end.

(** *** The watch set (lines 195-233) *)

Record FileInfo : Type := { IsDir : bool }.

(** The calls of [g.fsw.Add] in order, and the map [dup]. *)
Record watcher : Type := {
  added : list gostring;
  dup : gmap gostring bool
}.

Definition add_watch (w : watcher) (dir : gostring) (mark : bool) : watcher :=
  {| added := added w ++ [dir];
     dup := if mark then <[dir := true]> (dup w) else dup w |}.

(** The loop of lines 221-227: the first rule whose [match] accepts
    [path] adds [dir], and the loop is left. *)
Fixpoint walk_rules (ts : list task) (path dir : gostring) (w : watcher)
  : watcher :=
  match ts with
  | [] => w
  | t :: ts' =>
      if task_match t path then add_watch w dir true
      else walk_rules ts' path dir w
  end.

(** The function passed to [filepath.Walk] (lines 212-230): the state it
    leaves and the error it returns to the walk. *)
Definition walkFn (Tasks : list task) (w : watcher) (path : gostring)
    (info : option FileInfo) (err : option error) : watcher * option error :=
  match info with
  | None => (w, err)
  | Some info =>
      if IsDir info then (w, None)
      else
        let dir := filepath_Dir path in
        match dup w !! dir with
        | Some _ => (w, None)
        | None => (walk_rules Tasks path dir w, None)
        end
  end.

(** [filepath.Walk] over the entries the file system yields, in the order
    of the walk; an error returned by the function ends the walk. *)
Fixpoint Walk (Tasks : list task) (w : watcher)
    (visits : list (gostring * option FileInfo * option error))
  : watcher * option error :=
  match visits with
  | [] => (w, None)
  | (path, info, err) :: visits' =>
      match walkFn Tasks w path info err with
      | (w', None) => Walk Tasks w' visits'
      | (w', Some e) => (w', Some e)
      end
  end.

(** Lines 201-230: the configuration file and the root are always added. *)
Definition watch_set (File : gostring) (Tasks : list task)
    (visits : list (gostring * option FileInfo * option error)) : watcher :=
  let w := add_watch {| added := []; dup := ∅ |} File false in
  let root := match filepath_Abs (str ".") with
              | inl r => r
              | inr _ => []
              end in
  let w := add_watch w root true in
  fst (Walk Tasks w visits).

(** *** The goroutines *)

(** [commandRe] (line 27); [regexp.MustCompile] panics when the package
    is initialised if the expression does not compile. *)
Definition commandRe : Regexp + error :=
  regexp_Compile (str "^\s*(:[a-z]+!?)(?:\s+(\S+))*$").

(** The test of line 177. *)
Definition is_internal (command : gostring) : bool :=
  match commandRe with
  | inl re => MatchString re command
  | inr _ => false
  end.


(** Where the goroutine of lines 171-191 stands. *)
Inductive pipeline_pc : Type :=
| PAdd                              (* before line 172 *)
| PCommand (rest : list gostring)   (* line 175, these commands left *)
| PLock                             (* before line 187 *)
| PClear                            (* lines 188-189, lock held *)
| PSub                              (* before line 190 *)
| PDone.

Inductive thread : Type :=
  (* a call of [g.task(event)] in the loop of line 150 with the rules
     [rest] left, the first being the current one; [locked] between the
     Lock of line 163 and the Unlock of line 165 or 169 *)
| Dispatch (event : fsnotify.Event) (rest : list ptr) (locked : bool)
| Returned
  (* the goroutine launched at line 171 for rule [t] *)
| Pipeline (t : ptr) (file : gostring) (pc : pipeline_pc).

(** Where [Run] stands once it has launched its goroutines (lines
    354-381). *)
Inductive main_pc : Type :=
| MReturned    (* line 381: no command to supervise *)
| MPoll        (* line 360 *)
| MSleep       (* line 361 *)
| MGo          (* line 364 *)
| MSelect      (* line 368 *)
| MBackoff     (* line 372 *)
| MExited.     (* line 377 *)

(** The goroutine of lines 364-367, which calls [restart] (lines
    129-135). *)
Inductive restart_pc : Type :=
| RIdle
| RCall        (* before line 130 *)
| RSpawn       (* [terminate] done, before [spawn] *)
| RRunning.    (* inside [spawn]: the managed process runs *)

Record state : Type := {
  tasks : N;                          (* g.tasks, a uint64 *)
  Args : list gostring;               (* g.Args *)
  conf_Tasks : list ptr;              (* g.conf.Tasks *)
  heap : list task;
  pool : list thread;
  main : main_pc;
  restarter : restart_pc;
  errChan : option (option error)     (* a channel of capacity 1 *)
}.

Definition with_tasks (s : state) (v : N) : state :=
  {| tasks := v; Args := Args s; conf_Tasks := conf_Tasks s; heap := heap s;
     pool := pool s; main := main s; restarter := restarter s;
     errChan := errChan s |}.

Definition with_conf (s : state) (c : list ptr) (h : list task) : state :=
  {| tasks := tasks s; Args := Args s; conf_Tasks := c; heap := h;
     pool := pool s; main := main s; restarter := restarter s;
     errChan := errChan s |}.

Definition with_heap (s : state) (h : list task) : state :=
  with_conf s (conf_Tasks s) h.

Definition with_pool (s : state) (v : list thread) : state :=
  {| tasks := tasks s; Args := Args s; conf_Tasks := conf_Tasks s;
     heap := heap s; pool := v; main := main s; restarter := restarter s;
     errChan := errChan s |}.

Definition with_main (s : state) (v : main_pc) : state :=
  {| tasks := tasks s; Args := Args s; conf_Tasks := conf_Tasks s;
     heap := heap s; pool := pool s; main := v; restarter := restarter s;
     errChan := errChan s |}.

Definition with_restarter (s : state) (v : restart_pc)
    (c : option (option error)) : state :=
  {| tasks := tasks s; Args := Args s; conf_Tasks := conf_Tasks s;
     heap := heap s; pool := pool s; main := main s; restarter := v;
     errChan := c |}.

(** [atomic.AddUint64(&g.tasks, delta)]. *)
Definition AddUint64 (v delta : N) : N := ((v + delta) mod 2 ^ 64)%N.

(** [^uint64(0)]. *)
Definition minus_one : N := (2 ^ 64 - 1)%N.

(** What one goroutine does in one atomic step.  [n] is the place of the
    goroutine in the pool. *)
Inductive label : Type :=
| LEvent (event : fsnotify.Event)   (* [g.task(event)] is entered *)
| LReload (file : list entry)       (* [watch] returns and [load] runs *)
| LSkip (n : nat)                   (* lines 151-162: [continue] *)
| LLock (n : nat)                   (* line 163 *)
| LDrop (n : nat)                   (* lines 164-166 *)
| LAdmit (n : nat) (t : ptr) (g : nat)   (* lines 168-171, goroutine [g] launched *)
| LReturn (n : nat)                 (* the loop of line 150 ends *)
| LAdd (n : nat)                    (* line 172 *)
| LCommand (n : nat) (command : gostring) (internal ok : bool)
                                    (* lines 176-185 *)
| LLoopEnd (n : nat)                (* the loop of line 175 ends *)
| LLockP (n : nat)                  (* line 187 *)
| LClear (n : nat) (t : ptr)        (* lines 188-189 *)
| LSub (n : nat)                    (* line 190 *)
| LPoll (v : N)                     (* line 360, [v] read *)
| LSleep                            (* line 361 *)
| LGo                               (* line 364 *)
| LNoArgs                           (* lines 130-131 *)
| LTerminate                        (* line 133 *)
| LSpawn                            (* line 134: the process starts *)
| LExit (err : option error)        (* [spawn] returns; line 366 *)
| LRecv                             (* line 369 *)
| LBackoff                          (* line 372 *)
| LSignal.                          (* lines 375-377 *)

Definition set_thread (s : state) (n : nat) (th : thread) : state :=
  with_pool s (<[n := th]> (pool s)).

Definition set_task (s : state) (p : ptr) (t : task) : state :=
  with_heap s (<[p := t]> (heap s)).

(** A step of a call of [g.task]. *)
Definition step_dispatch (s : state) (n : nat) (l : label) : option state :=
  match pool s !! n with
  | Some (Dispatch event [] false) =>
      match l with
      | LReturn _ => Some (set_thread s n Returned)
      | _ => None
      end
  | Some (Dispatch event (p :: rest) false) =>
      t ← heap s !! p;
      match l with
      | LSkip _ =>
          if selects t event then None
          else Some (set_thread s n (Dispatch event rest false))
      | LLock _ =>
          if selects t event && negb (mutex t)
          then Some (set_thread (set_task s p (set_mutex t true)) n
                       (Dispatch event (p :: rest) true))
          else None
      | _ => None
      end
  | Some (Dispatch event (p :: rest) true) =>
      t ← heap s !! p;
      match l with
      | LDrop _ =>
          if hit t
          then Some (set_thread (set_task s p (set_mutex t false)) n
                       (Dispatch event rest false))
          else None
      | LAdmit _ p' g =>
          if negb (hit t) && bool_decide (p' = p)
             && bool_decide (g = length (pool s))
          then
            let s := set_task s p (set_mutex (set_hit t true) false) in
            let s := set_thread s n (Dispatch event rest false) in
            let file := filepath_ToSlash (fsnotify.Name event) in
            Some (with_pool s (pool s ++ [Pipeline p file PAdd]))
          else None
      | _ => None
      end
  | _ => None
  end.

(** A step of the goroutine of lines 171-191. *)
Definition step_pipeline (s : state) (n : nat) (l : label) : option state :=
  match pool s !! n with
  | Some (Pipeline p file pc) =>
      t ← heap s !! p;
      match pc, l with
      | PAdd, LAdd _ =>
          Some (set_thread (with_tasks s (AddUint64 (tasks s) 1)) n
                  (Pipeline p file (PCommand (Commands t))))
      | PCommand (command :: rest), LCommand _ command' internal ok =>
          if bool_decide (command' = command)
             && bool_decide (internal = is_internal command) then
            Some (set_thread s n
                    (Pipeline p file (if ok then PCommand rest else PLock)))
          else None
      | PCommand [], LLoopEnd _ => Some (set_thread s n (Pipeline p file PLock))
      | PLock, LLockP _ =>
          if mutex t then None
          else Some (set_thread (set_task s p (set_mutex t true)) n
                       (Pipeline p file PClear))
      | PClear, LClear _ p' =>
          if bool_decide (p' = p) then
            Some (set_thread (set_task s p (set_mutex (set_hit t false) false))
                    n (Pipeline p file PSub))
          else None
      | PSub, LSub _ =>
          Some (set_thread (with_tasks s (AddUint64 (tasks s) minus_one)) n
                  (Pipeline p file PDone))
      | _, _ => None
      end
  | _ => None
  end.

(** A step of [Run]'s loop or of the goroutine it launches. *)
Definition step_supervisor (s : state) (l : label) : option state :=
  match l, main s, restarter s with
  | LPoll v, MPoll, _ =>
      if bool_decide (v = tasks s)
      then Some (with_main s (if (0 <? v)%N then MSleep else MGo))
      else None
  | LSleep, MSleep, _ => Some (with_main s MPoll)
  | LGo, MGo, RIdle => Some (with_main (with_restarter s RCall (errChan s)) MSelect)
  | LNoArgs, _, RCall =>
      match Args s with
      | [] => Some (with_restarter s RIdle (Some None))
      | _ :: _ => None
      end
  | LTerminate, _, RCall =>
      match Args s with
      | [] => None
      | _ :: _ => Some (with_restarter s RSpawn (errChan s))
      end
  | LSpawn, _, RSpawn => Some (with_restarter s RRunning (errChan s))
  | LExit err, _, RRunning => Some (with_restarter s RIdle (Some err))
  | LRecv, MSelect, _ =>
      match errChan s with
      | Some err =>
          Some (with_main (with_restarter s (restarter s) None)
                  (if err is Some _ then MBackoff else MPoll))
      | None => None
      end
  | LBackoff, MBackoff, _ => Some (with_main s MPoll)
  | LSignal, MSelect, _ => Some (with_main s MExited)
  | _, _, _ => None
  end.

(** One atomic step of a program that has not exited. *)
Definition step_running (s : state) (l : label) : option state :=
  match l with
  | LEvent event =>
      Some (with_pool s (pool s ++ [Dispatch event (conf_Tasks s) false]))
  | LReload file =>
      match load_tasks (unmarshalled <$> file) with
      | Returns (ts, _) =>
          Some (with_conf s (seq (length (heap s)) (length ts)) (heap s ++ ts))
      | _ => None
      end
  | LSkip n | LLock n | LDrop n | LAdmit n _ _ | LReturn n =>
      step_dispatch s n l
  | LAdd n | LCommand n _ _ _ | LLoopEnd n | LLockP n | LClear n _ | LSub n =>
      step_pipeline s n l
  | _ => step_supervisor s l
  end.

(** One atomic step of the program; nothing runs after [os.Exit]. *)
Definition step (s : state) (l : label) : option state :=
  if main s is MExited then None else step_running s l.

Fixpoint run (s : state) (tr : list label) : option state :=
  match tr with
  | [] => Some s
  | l :: tr' => s' ← step s l; run s' tr'
  end.

(** The state in which [Run] enters line 354, with the tasks [ts] loaded
    and no event received yet. *)
Definition init (args : list gostring) (ts : list task) : state :=
  {| tasks := 0; Args := args; conf_Tasks := seq 0 (length ts); heap := ts;
     pool := []; main := if args is [] then MReturned else MPoll;
     restarter := RIdle; errChan := None |}.

(** A task that no goroutine has touched. *)
Definition idle (t : task) : Prop := hit t = false ∧ mutex t = false.

(** The value read by the last poll of a run. *)
Definition last_poll (tr : list label) : option N :=
  foldl (λ last l, if l is LPoll v then Some v else last) None tr.

(** The goroutine launched by the last admission of rule [p] in a run,
    unless the flag of [p] was cleared since. *)
Definition owner_step (p : ptr) (o : option nat) (l : label) : option nat :=
  match l with
  | LAdmit _ p' g => if bool_decide (p' = p) then Some g else o
  | LClear _ p' => if bool_decide (p' = p) then None else o
  | _ => o
  end.

Definition owner (p : ptr) (tr : list label) : option nat :=
  foldl (owner_step p) None tr.

(** A pipeline goroutine that has not yet cleared the flag of its rule. *)
Definition running (pc : pipeline_pc) : bool :=
  match pc with
  | PAdd | PCommand _ | PLock | PClear => true
  | PSub | PDone => false
  end.

(** *** What the runs preserve *)

(** The place in the pool of the goroutine that takes a step. *)
Definition place (l : label) : option nat :=
  match l with
  | LSkip n | LLock n | LDrop n | LAdmit n _ _ | LReturn n
  | LAdd n | LCommand n _ _ _ | LLoopEnd n | LLockP n | LClear n _ | LSub n =>
      Some n
  | _ => None
  end.

(** The flags [t.hit] of the task objects. *)
Definition hits (s : state) : list bool := hit <$> heap s.

(** The rule whose pipeline a goroutine is running, if it is running one. *)
Definition runner (th : thread) : option ptr :=
  match th with
  | Pipeline p _ pc => if running pc then Some p else None
  | _ => None
  end.

Definition runners (s : state) : list (option ptr) := runner <$> pool s.

(** The flag of a rule is set exactly while the goroutine launched by its
    last admission runs its pipeline, and no other goroutine runs a
    pipeline of the rule. *)
Definition single_flight (tr : list label) (s : state) : Prop :=
  (∀ p, match hits s !! p with
        | Some true => ∃ g, owner p tr = Some g ∧ runners s !! g = Some (Some p)
        | _ => owner p tr = None
        end)
  ∧ (∀ n p, runners s !! n = Some (Some p) → owner p tr = Some n).

(** The locks [t.mutex] of the task objects. *)
Definition locks (s : state) : list bool := mutex <$> heap s.

(** The rule whose lock a goroutine holds, if it holds one. *)
Definition holder (th : thread) : option ptr :=
  match th with
  | Dispatch _ (p :: _) true => Some p
  | Pipeline p _ PClear => Some p
  | _ => None
  end.

Definition holders (s : state) : list (option ptr) := holder <$> pool s.

(** A lock is held by one goroutine at most, and is locked exactly while
    one holds it. *)
Definition exclusive (s : state) : Prop :=
  (∀ p, locks s !! p = Some true → ∃ n, holders s !! n = Some (Some p))
  ∧ (∀ n p, holders s !! n = Some (Some p) →
            locks s !! p = Some true
            ∧ ∀ n', holders s !! n' = Some (Some p) → n' = n).

(** What the supervisor has read when a restart is under way: the
    goroutine of line 364 exists only while [Run] waits at line 368, the
    channel is full only once that goroutine has ended, and from the
    launch up to [spawn] no poll has taken place since one that read 0. *)
Definition gated (tr : list label) (s : state) : Prop :=
  (restarter s ≠ RIdle → main s = MSelect ∨ main s = MExited)
  ∧ (is_Some (errChan s) →
       restarter s = RIdle ∧ (main s = MSelect ∨ main s = MExited))
  ∧ (main s = MGo ∨ restarter s = RCall ∨ restarter s = RSpawn →
       last_poll tr = Some 0%N).

(** A step of the goroutine at place [n] of the pool that runs a
    pipeline. *)
Definition pipeline_label (n : nat) (l : label) : bool :=
  match l with
  | LAdd m | LCommand m _ _ _ | LLoopEnd m | LLockP m | LClear m _ | LSub m =>
      bool_decide (m = n)
  | _ => false
  end.

(** The steps of goroutine [n] in a run, in order. *)
Definition history (n : nat) (tr : list label) : list label :=
  List.filter (pipeline_label n) tr.

(** The steps for commands that succeeded. *)
Definition ran (n : nat) (cs : list gostring) : list label :=
  (λ c, LCommand n c (is_internal c) true) <$> cs.

(** The steps after the loop of line 175, up to the point [pc]. *)
Definition closing (n : nat) (p : ptr) (pc : pipeline_pc) : list label :=
  match pc with
  | PClear => [LLockP n]
  | PSub => [LLockP n; LClear n p]
  | PDone => [LLockP n; LClear n p; LSub n]
  | _ => []
  end.

(** The history [h] of goroutine [n] for a rule [p] whose commands are
    [cs], when the goroutine stands at [pc]: the commands ran in the order
    of the list, each after the success of the one before; the loop was
    left at the end of the list or at the first failure; the lock, the
    clearing of the flag and the decrement follow in this order. *)
Definition shape (n : nat) (p : ptr) (cs : list gostring) (pc : pipeline_pc)
    (h : list label) : Prop :=
  match pc with
  | PAdd => h = []
  | PCommand rest => ∃ done, cs = done ++ rest ∧ h = LAdd n :: ran n done
  | _ =>
      ∃ done stop,
        ((stop = LLoopEnd n ∧ cs = done)
         ∨ ∃ c rest, stop = LCommand n c (is_internal c) false
                     ∧ cs = done ++ c :: rest)
        ∧ h = LAdd n :: ran n done ++ stop :: closing n p pc
  end.

(** The moves of a goroutine of lines 171-191 for a rule [p] with the
    commands [cs]: from [pc] to [pc'] by the step [l]. *)
Definition pipeline_trans (p : ptr) (cs : list gostring)
    (pc : pipeline_pc) (l : label) (pc' : pipeline_pc) : Prop :=
  (pc = PAdd ∧ (∃ m, l = LAdd m) ∧ pc' = PCommand cs)
  ∨ (∃ c rest m ok, pc = PCommand (c :: rest)
                    ∧ l = LCommand m c (is_internal c) ok
                    ∧ pc' = if ok then PCommand rest else PLock)
  ∨ (pc = PCommand [] ∧ (∃ m, l = LLoopEnd m) ∧ pc' = PLock)
  ∨ (pc = PLock ∧ (∃ m, l = LLockP m) ∧ pc' = PClear)
  ∨ (pc = PClear ∧ (∃ m, l = LClear m p) ∧ pc' = PSub)
  ∨ (pc = PSub ∧ (∃ m, l = LSub m) ∧ pc' = PDone).

(** The command lists [t.Commands] of the task objects. *)
Definition cmds (s : state) : list (list gostring) := Commands <$> heap s.

(** Every goroutine of the pool has the history of its kind. *)
Definition histories (tr : list label) (s : state) : Prop :=
  ∀ n, match pool s !! n with
       | Some (Pipeline p file pc) =>
           ∃ cs, cmds s !! p = Some cs ∧ shape n p cs pc (history n tr)
       | _ => history n tr = []
       end.

(** What goroutine [n], standing at [pc] in a pipeline of rule [p], can
    do next in [s]: it is held up only by the lock. *)
Definition can_proceed (s : state) (n : nat) (p : ptr) (t : task)
    (pc : pipeline_pc) : Prop :=
  match pc with
  | PAdd =>
      ∃ s', step s (LAdd n) = Some s'
            ∧ tasks s' = AddUint64 (tasks s) 1
  | PCommand (c :: _) =>
      ∀ ok, is_Some (step s (LCommand n c (is_internal c) ok))
  | PCommand [] => is_Some (step s (LLoopEnd n))
  | PLock => mutex t = false → is_Some (step s (LLockP n))
  | PClear =>
      ∃ s', step s (LClear n p) = Some s' ∧ hits s' !! p = Some false
  | PSub =>
      ∃ s', step s (LSub n) = Some s'
            ∧ tasks s' = AddUint64 (tasks s) minus_one
  | PDone => True
  end.

End goemon.

(** ** A host and a configuration to evaluate the program on *)

(** Upper case of ASCII letters; the names of the operations are ASCII. *)
Definition ascii_ToUpper (s : gostring) : gostring :=
  (λ c : rune, if syntax.in_range 97 122 c then (c - 32)%N else c) <$> s.

(** A Unix host whose working directory is [/w]. *)
Definition host_w : Host :=
  {| os_Getwd := Some (str "/w"); strings_ToUpper := ascii_ToUpper |}.

Definition compile_w (pattern : string) : outcome (syntax.Regexp + error) :=
  @compilePattern re2 host_w (str pattern).

(** [compile_w pattern] accepts [path]; false when there is no matcher. *)
Definition accepts_w (pattern path : string) : bool :=
  match compile_w pattern with
  | Returns (inl re) => syntax.MatchString re (str path)
  | _ => false
  end.

(** A rule as the configuration file gives it, loaded on [host_w]. *)
Definition entry_w (m i : string) (cs os : list string) : entry :=
  {| yaml_match := str m; yaml_ignore := str i; yaml_commands := str <$> cs;
     yaml_ops := str <$> os |}.

Definition rule_w (m i : string) (cs os : list string) : option (@task re2) :=
  match @load_task re2 host_w (unmarshalled (entry_w m i cs os)) with
  | Returns (t, _) => Some t
  | _ => None
  end.

(** The rules of a configuration, loaded on [host_w]. *)
Definition go_rules : list (@task re2) :=
  omap id [rule_w "src/*.go" "src/*_test.go" ["go build"%string; "echo done"%string] []].

(** The watcher before the walk: the configuration file and [/w]. *)
Definition watcher_w (ts : list (@task re2)) : watcher :=
  @watch_set re2 host_w (str "/w/goemon.yml") ts [].

Definition regular_file : FileInfo := {| IsDir := false |}.

(** An event of the watcher: [/w/src/main.go] is written. *)
Definition main_go_written : fsnotify.Event :=
  {| fsnotify.Name := str "/w/src/main.go"; fsnotify.op := fsnotify.Write |}.

(** The command that [Run] supervises. *)
Definition server_args : list gostring := [str "sh"; str "-c"; str "server"].

(** The runs of [Run] with the rules [go_rules] on [host_w]. *)
Abbreviation run_w tr := (@run re2 host_w (init server_args go_rules) tr)
  (only parsing).

(** The event arrives after the poll of line 360 has read 0 and before
    the goroutine of line 364 is launched; the first command of the rule
    has ended when [restart] terminates the process. *)
Definition late_event : list label :=
  [LPoll 0; LEvent main_go_written; LLock 0; LAdmit 0 0 1; LReturn 0; LAdd 1;
   LCommand 1 (str "go build") false true; LGo; LTerminate].

(** The first command of the rule fails. *)
Definition failed_build : list label :=
  [LEvent main_go_written; LLock 0; LAdmit 0 0 1; LAdd 1;
   LCommand 1 (str "go build") false false; LLockP 1].

(** A second event for the rule arrives while its pipeline runs. *)
Definition second_event : list label :=
  [LEvent main_go_written; LLock 0; LAdmit 0 0 1;
   LEvent main_go_written; LLock 2].

(** ** The expression written for a working directory *)

(** Runes that the loop of lines 98-122 writes as themselves or as a
    class of one rune in two hexadecimal digits. *)
Definition ordinary (c : rune) : bool :=
  (c =?r chr "/")
  || (syntax.in_range 16 255 c && negb (c =?r chr "*") && negb (c =?r chr "?")).

(** What the loop writes for one ordinary rune, and for a text of them. *)
Definition written1 (c : rune) : gostring :=
  if c =?r chr "/" then [c] else str "[\x" ++ fmt_x c ++ str "]".

Definition written (x : gostring) : gostring := x ≫= written1.

(** What [regexp.Compile] reads in it. *)
Definition read1 (c : rune) : syntax.Regexp :=
  if c =?r chr "/" then syntax.OpLiteral c
  else syntax.OpCharClass false [syntax.Range c c].

(** The two digits of [fmt.Sprintf("%x", c)] for a rune of one byte, as
    [parseEscape] reads them. *)
Definition two_hex (c : rune) : bool :=
  match fmt_x c with
  | [h1; h2] =>
      negb (h1 =?r chr "{")
      && match syntax.unhex h1, syntax.unhex h2 with
         | Some a, Some b => (a * 16 + b =? c)%N
         | _, _ => false
         end
  | _ => false
  end.

(** ** More of the goroutines *)

Section accounting.
Context `{RegexpLib} `{Host}.

(** A goroutine of lines 171-191 that has run line 172 and not yet line
    190. *)
Definition counted (th : thread) : bool :=
  match th with
  | Pipeline _ _ (PCommand _ | PLock | PClear | PSub) => true
  | _ => false
  end.

(** How many goroutines of the pool are in that stretch. *)
Definition in_flight (s : state) : nat :=
  length (List.filter counted (pool s)).

(** The labels of [Run]'s loop and of the goroutine of lines 364-367. *)
Definition supervisor_label (l : label) : bool :=
  match l with
  | LPoll _ | LSleep | LGo | LNoArgs | LTerminate | LSpawn | LExit _
  | LRecv | LBackoff | LSignal => true
  | _ => false
  end.

(** The step by which the goroutine [th] at place [n], which holds the
    lock of a task whose flag is [flag], gives the lock back; [g] is the
    place of the goroutine that an admission launches. *)
Definition release (th : thread) (n g : nat) (flag : bool) : option label :=
  match th with
  | Dispatch _ (p :: _) true => Some (if flag then LDrop n else LAdmit n p g)
  | Pipeline p _ PClear => Some (LClear n p)
  | _ => None
  end.

End accounting.

Section pointers.
Context `{RegexpLib} `{Host}.

(** The task objects that a goroutine refers to. *)
Definition refers (th : thread) : list ptr :=
  match th with
  | Dispatch _ rest _ => rest
  | Returned => []
  | Pipeline p _ _ => [p]
  end.

(** Every pointer to a task, in [g.conf.Tasks] or held by a goroutine, is
    the place of an object of the heap, and a goroutine that holds a lock
    in [g.task] is at the rule of that lock. *)
Definition well_formed (s : state) : Prop :=
  Forall (λ p, p < length (heap s)) (conf_Tasks s)
  ∧ ∀ n th, pool s !! n = Some th →
      Forall (λ p, p < length (heap s)) (refers th)
      ∧ (∀ event, th ≠ Dispatch event [] true).

(** A goroutine that has no step left to take. *)
Definition finished (th : thread) : bool :=
  match th with
  | Returned | Pipeline _ _ PDone => true
  | _ => false
  end.

End pointers.

(** ** load in whole (lines 252-316) *)

(** What [yaml.Unmarshal] finds in the file: the keys that are present,
    which it assigns to the fields of [g.conf]. *)
Record document : Type := {
  doc_command : option gostring;
  doc_livereload : option gostring;
  doc_tasks : option (list entry)
}.

Section load.
Context `{RegexpLib} `{Host}.

(** The fields of [Goemon] that [load] reads and writes. *)
Record Goemon : Type := {
  g_File : gostring;
  g_Args : list gostring;
  g_conf_Command : gostring;
  g_conf_LiveReload : gostring;
  g_conf_Tasks : list task
}.

Definition with_File (g : Goemon) (v : gostring) : Goemon :=
  {| g_File := v; g_Args := g_Args g; g_conf_Command := g_conf_Command g;
     g_conf_LiveReload := g_conf_LiveReload g;
     g_conf_Tasks := g_conf_Tasks g |}.

Definition with_Args (g : Goemon) (v : list gostring) : Goemon :=
  {| g_File := g_File g; g_Args := v; g_conf_Command := g_conf_Command g;
     g_conf_LiveReload := g_conf_LiveReload g;
     g_conf_Tasks := g_conf_Tasks g |}.

Definition with_Tasks (g : Goemon) (v : list task) : Goemon :=
  {| g_File := g_File g; g_Args := g_Args g;
     g_conf_Command := g_conf_Command g;
     g_conf_LiveReload := g_conf_LiveReload g; g_conf_Tasks := v |}.

(** [yaml.Unmarshal(b, &g.conf)] for a file that holds [doc]: a key that
    is present is assigned, a field whose key is absent is left as it
    is. *)
Definition assign (doc : document) (g : Goemon) : Goemon :=
  {| g_File := g_File g; g_Args := g_Args g;
     g_conf_Command := default (g_conf_Command g) (doc_command doc);
     g_conf_LiveReload := default (g_conf_LiveReload g) (doc_livereload doc);
     g_conf_Tasks :=
       match doc_tasks doc with
       | Some entries => unmarshalled <$> entries
       | None => g_conf_Tasks g
       end |}.

(** The loop of lines 260-266 from the attempt [i]: [ReadFile i] is the
    error of the attempt [i], [err] the error so far, [slept] the number
    of calls of [time.Sleep] so far. *)
Fixpoint readLoop (fuel : nat) (ReadFile : nat → option error) (i : nat)
    (err : option error) (slept : nat) : outcome (option error * nat) :=
  if negb (i <? 3)%nat then Returns (err, slept)
  else
    match fuel with
    | O => OutOfFuel
    | S fuel' =>
        match ReadFile i with
        | None => Returns (None, slept)
        | Some e => readLoop fuel' ReadFile (i + 1) (Some e) (slept + 1)
        end
    end.

(** What a call of [load] leaves: the fields, the error returned, the
    lines logged and the number of pauses of 100 ms. *)
Record loaded : Type := {
  g_after : Goemon;
  load_err : option error;
  load_log : list gostring;
  load_slept : nat
}.

(** [load]; [yaml] is what [yaml.Unmarshal] makes of the bytes read: the
    keys it assigned, and its error if it ends with one. *)
Definition load (g : Goemon) (ReadFile : nat → option error)
    (yaml : document * option error) : outcome loaded :=
  let g := with_Tasks g [] in
  match filepath_Abs (g_File g) with
  | inr err =>
      Returns {| g_after := g; load_err := Some err; load_log := [];
                 load_slept := 0 |}
  | inl fn =>
      let g := with_File g fn in
      '(err, slept) ← readLoop 3 ReadFile 0 None 0;
      match err with
      | Some e =>
          Returns {| g_after := g; load_err := Some e; load_log := [];
                     load_slept := slept |}
      | None =>
          let g := assign (fst yaml) g in
          match snd yaml with
          | Some e =>
              Returns {| g_after := g; load_err := Some e; load_log := [];
                         load_slept := slept |}
          | None =>
              let g :=
                if (length (g_Args g) =? 0)%nat
                   && negb (string_eqb (g_conf_Command g) [])
                then with_Args g
                       (if GOOS_windows
                        then [str "cmd"; str "/c"; g_conf_Command g]
                        else [str "sh"; str "-c"; g_conf_Command g])
                else g in
              '(ts, logged) ← load_tasks (g_conf_Tasks g);
              Returns {| g_after := with_Tasks g ts; load_err := None;
                         load_log := logged; load_slept := slept |}
          end
      end
  end.


End load.

(** ** The loop of watch (lines 237-249) *)

(** What the [select] of line 238 receives. *)
Inductive received : Type :=
| FromEvents (event : fsnotify.Event)
| FromErrors (err : option error).

(** What the loop does with the values it receives: the events it hands
    to [g.task], in order, the errors it logs, and, when it returns, the
    values it has not received. *)
Fixpoint watch_loop (File : gostring) (inputs : list received)
  : list fsnotify.Event * list error * option (list received) :=
  match inputs with
  | [] => ([], [], None)
  | FromEvents event :: inputs' =>
      if string_eqb (fsnotify.Name event) File then ([], [], Some inputs')
      else
        let '(events, errors, unread) := watch_loop File inputs' in
        (event :: events, errors, unread)
  | FromErrors err :: inputs' =>
      let '(events, errors, unread) := watch_loop File inputs' in
      (events, match err with Some e => e :: errors | None => errors end, unread)
  end.

(** The events among the values received. *)
Definition events_of (inputs : list received) : list fsnotify.Event :=
  omap (λ i, if i is FromEvents event then Some event else None) inputs.

(** ** The patterns as the loop of lines 98-122 reads them *)

(** What the loop tells apart in an alternative. *)
Inductive token : Type :=
| TRune (c : rune)      (* a rune written for itself, the slash too *)
| TStar                 (* a star that no star follows *)
| TQuest                (* a question mark *)
| TStarStar.            (* two stars and a slash *)

(** The alternative as the loop reads it from the left; [None] where the
    loop returns [invalid wildcard]. *)
Fixpoint tokens (rs : list rune) : option (list token) :=
  match rs with
  | [] => Some []
  | c :: rs1 =>
      if c =?r chr "*" then
        match rs1 with
        | c1 :: rs2 =>
            if c1 =?r chr "*" then
              match rs2 with
              | c2 :: rs3 =>
                  if c2 =?r chr "/" then cons TStarStar <$> tokens rs3
                  else None
              | [] => None
              end
            else cons TStar <$> tokens rs1
        | [] => cons TStar <$> tokens rs1
        end
      else if c =?r chr "?" then cons TQuest <$> tokens rs1
      else cons (TRune c) <$> tokens rs1
  end.

(** What the loop writes for a token. *)
Definition written_token (t : token) : gostring :=
  match t with
  | TRune c => written1 c
  | TStar => str "[^/]+"
  | TQuest => str "\S"
  | TStarStar => str ".*"
  end.

(** What [regexp.Compile] reads in it. *)
Definition read_token (t : token) : syntax.Regexp :=
  match t with
  | TRune c => read1 c
  | TStar =>
      syntax.OpPlus (syntax.OpCharClass true [syntax.Range (chr "/") (chr "/")])
  | TQuest =>
      syntax.OpCharClass false [syntax.Perl syntax.ClassSpace true]
  | TStarStar => syntax.OpStar syntax.OpAnyCharNotNL
  end.

(** The texts that a sequence of tokens stands for: a rune for itself, a
    star for one rune or more, none of them a slash, a question mark for
    one rune that is no white space, two stars and a slash for any text
    without a newline. *)
Fixpoint denotes (toks : list token) (s : gostring) : Prop :=
  match toks with
  | [] => s = []
  | TRune c :: toks' => ∃ s', s = c :: s' ∧ denotes toks' s'
  | TStar :: toks' =>
      ∃ x s', s = x ++ s' ∧ x ≠ [] ∧ Forall (λ c, c ≠ chr "/") x
              ∧ denotes toks' s'
  | TQuest :: toks' =>
      ∃ c s', s = c :: s'
              ∧ syntax.perl_matches syntax.ClassSpace c = false
              ∧ denotes toks' s'
  | TStarStar :: toks' =>
      ∃ x s', s = x ++ s' ∧ Forall (λ c, c ≠ 10%N) x ∧ denotes toks' s'
  end.

(** A rune that [fmt.Sprintf("%x")] writes in two digits. *)
Definition one_byte (c : rune) : bool := syntax.in_range 16 255 c.

(** The runes that make the first token. *)
Definition lexeme (t : token) (pre rs' : list rune) : Prop :=
  match t with
  | TRune c => pre = [c] ∧ (c =?r chr "*") = false ∧ (c =?r chr "?") = false
  | TStar =>
      pre = [chr "*"]
      ∧ match rs' with c1 :: _ => (c1 =?r chr "*") = false | [] => True end
  | TQuest => pre = [chr "?"]
  | TStarStar => pre = str "**/"
  end.

(** ** What an expression without anchors matches *)

(** The texts that an expression matches as a whole.  A round of a
    repetition that matches the empty text adds nothing and is left
    out. *)
Fixpoint matches (re : syntax.Regexp) (x : gostring) : Prop :=
  match re with
  | syntax.OpEmptyMatch => x = []
  | syntax.OpLiteral r => x = [r]
  | syntax.OpCharClass negated items =>
      ∃ c, x = [c] ∧ syntax.class_matches negated items c = true
  | syntax.OpAnyCharNotNL => ∃ c, x = [c] ∧ c ≠ 10%N
  | syntax.OpBeginText | syntax.OpEndText => False
  | syntax.OpCapture sub => matches sub x
  | syntax.OpStar sub =>
      ∃ xs, x = concat xs ∧ Forall (λ y, matches sub y ∧ y ≠ []) xs
  | syntax.OpPlus sub =>
      ∃ y xs, x = y ++ concat xs ∧ matches sub y
              ∧ Forall (λ y, matches sub y ∧ y ≠ []) xs
  | syntax.OpQuest sub => x = [] ∨ matches sub x
  | syntax.OpConcat a b => ∃ y z, x = y ++ z ∧ matches a y ∧ matches b z
  | syntax.OpAlternate a b => matches a x ∨ matches b x
  end.

(** An expression without [^] and [$]. *)
Fixpoint anchor_free (re : syntax.Regexp) : bool :=
  match re with
  | syntax.OpBeginText | syntax.OpEndText => false
  | syntax.OpCapture sub | syntax.OpStar sub | syntax.OpPlus sub
  | syntax.OpQuest sub => anchor_free sub
  | syntax.OpConcat a b | syntax.OpAlternate a b =>
      anchor_free a && anchor_free b
  | _ => true
  end.

(** A continuation that does not ask whether the text begins here. *)
Definition insensitive (k : syntax.cont) : Prop := ∀ bot s, k bot s = k false s.

(** ** The commands of a rule (lines 27 and 176-185) *)

Definition space (c : rune) : bool := syntax.perl_matches syntax.ClassSpace c.

Definition lower (c : rune) : bool := syntax.in_range 97 122 c.

(** An argument of an internal command with the white space before it. *)
Definition argument (x : gostring) : Prop :=
  ∃ w a, x = w ++ a ∧ w ≠ [] ∧ forallb space w = true
         ∧ a ≠ [] ∧ forallb (λ c, negb (space c)) a = true.

(** The commands that [commandRe] describes: white space, a colon, a name
    in lower-case letters, at most one exclamation mark, and arguments. *)
Definition internal_form (command : gostring) : Prop :=
  ∃ ws name bang args,
    command = ws ++ chr ":" :: name ++ bang ++ concat args
    ∧ forallb space ws = true
    ∧ name ≠ [] ∧ forallb lower name = true
    ∧ (bang = [] ∨ bang = [chr "!"])
    ∧ Forall argument args.

(** ** Examples for load, watch and the patterns *)

(** A [Goemon] on [host_w] with the rules [go_rules] loaded. *)
Definition goemon_w (args : list gostring) : @Goemon re2 :=
  {| g_File := str "goemon.yml"; g_Args := args; g_conf_Command := [];
     g_conf_LiveReload := []; g_conf_Tasks := go_rules |}.

(** A configuration file with a command and one rule. *)
Definition doc_w : document :=
  {| doc_command := Some (str "server"); doc_livereload := None;
     doc_tasks := Some [entry_w "src/*.go" "" ["go build"%string] []] |}.

(** A file that cannot be read, and one that can at the third attempt. *)
Definition unreadable : nat → option error :=
  λ _, Some (str "open /w/goemon.yml: no such file or directory").

Definition third_time : nat → option error :=
  λ i, if (i <? 2)%nat then Some (str "unexpected EOF") else None.

(** Whether a call of [load] on [host_w] returns. *)
Definition load_w (g : @Goemon re2) (ReadFile : nat → option error)
    (yaml : document * option error) : option (@loaded re2) :=
  match @load re2 host_w g ReadFile yaml with
  | Returns r => Some r
  | _ => None
  end.

(** Two events, an error and the event of the configuration file. *)
Definition config_written : fsnotify.Event :=
  {| fsnotify.Name := str "/w/goemon.yml"; fsnotify.op := fsnotify.Write |}.

Definition received_w : list received :=
  [FromEvents main_go_written; FromErrors None; FromEvents main_go_written].

(** The runs of [Run] without a command. *)
Abbreviation run_idle tr := (@run re2 host_w (init [] go_rules) tr)
  (only parsing).

(** A second event arrives while the first call of [g.task] holds the
    lock of the rule. *)
Definition waiting_event : list label :=
  [LEvent main_go_written; LLock 0; LEvent main_go_written].

(** ** Properties *)

Section properties.
Context `{RegexpLib} `{Host}.

(** *** matchOp *)

Lemma land_eq_subset (a b : N) : N.land a b = a ↔ subset_bits a b.
Proof.
  unfold subset_bits. split.
  - intros E n Hn. rewrite <- E in Hn. rewrite N.land_spec in Hn.
    by apply andb_prop in Hn as [_ ?].
  - intros S. apply N.bits_inj. intros n. rewrite N.land_spec.
    destruct (N.testbit a n) eqn:E; [|done]. by rewrite (S n E).
Qed.

(** C3 (as amended): with an empty mask [matchOp] accepts every
    operation; with a non-empty mask it accepts [op] exactly when every
    flag of [op] is in the mask, the empty [op] included; so the mask
    [{Write}] rejects both [{Write, Chmod}] and [{Chmod}]. *)
Theorem matchOp_subset (t : task) (op : fsnotify.Op) :
  (mops t = 0%N → task_matchOp t op = true)
  ∧ (mops t ≠ 0%N → (task_matchOp t op = true ↔ subset_bits op (mops t)))
  ∧ (mops t = fsnotify.Write →
       task_matchOp t (N.lor fsnotify.Write fsnotify.Chmod) = false
       ∧ task_matchOp t fsnotify.Chmod = false
       ∧ task_matchOp t fsnotify.Write = true
       ∧ task_matchOp t 0%N = true).
Proof.
  unfold task_matchOp. split; [by intros ->|]. split.
  - intros Hne. destruct (N.eqb_spec (mops t) 0); [done|].
    rewrite N.eqb_eq. apply land_eq_subset.
  - intros ->. by vm_compute.
Qed.

(** *** compilePattern *)

Lemma index_lookup {A} (s : list A) (i : nat) (c : A) :
  s !! i = Some c → index s i = Returns c.
Proof. unfold index. by intros ->. Qed.

Lemma compileRunes_translate (pattern : gostring) (rs : list rune) :
  ∀ (fuel i : nat) (buf : gostring),
    length rs ≤ i + fuel →
    compileRunes fuel pattern rs i buf
    = Returns (translate pattern (drop i rs) buf).
Proof.
  induction fuel as [|fuel IH]; intros i buf Hf; simpl.
  - destruct (Nat.ltb_spec i (length rs)); [lia|]. simpl.
    by rewrite drop_ge by lia.
  - destruct (Nat.ltb_spec i (length rs)) as [Hi|Hi]; simpl.
    2: { by rewrite drop_ge by lia. }
    destruct (lookup_lt_is_Some_2 rs i Hi) as [c Hc].
    rewrite (index_lookup _ _ _ Hc). simpl.
    rewrite (drop_S _ _ _ Hc). simpl.
    rewrite !Nat.add_1_r.
    destruct (c =?r chr "/").
    { unfold GOOS_windows. apply IH. lia. }
    destruct (c =?r chr "*").
    2: { destruct (c =?r chr "?"); apply IH; lia. }
    destruct (Nat.ltb_spec i (length rs - 1)) as [Hi1|Hi1]; simpl.
    2: { rewrite IH by lia. by rewrite drop_ge by lia. }
    destruct (lookup_lt_is_Some_2 rs (S i)) as [c1 Hc1]; [lia|].
    rewrite (index_lookup _ _ _ Hc1). simpl.
    rewrite (drop_S _ _ _ Hc1).
    destruct (c1 =?r chr "*").
    2: { rewrite IH by lia. by rewrite (drop_S _ _ _ Hc1). }
    destruct (Nat.ltb_spec (S i) (length rs - 1)) as [Hi2|Hi2]; simpl.
    2: { by rewrite drop_ge by lia. }
    destruct (lookup_lt_is_Some_2 rs (S (S i))) as [c2 Hc2]; [lia|].
    rewrite (index_lookup _ _ _ Hc2). simpl.
    rewrite (drop_S _ _ _ Hc2).
    destruct (c2 =?r chr "/"); [|done].
    apply IH. lia.
Qed.

Lemma compileAlternatives_alternatives (pattern : gostring) :
  ∀ (pats : list gostring) (n : nat) (buf : gostring),
    compileAlternatives pattern n pats buf
    = Returns (alternatives pattern n pats buf).
Proof.
  induction pats as [|pat pats IH]; intros n buf; simpl; [done|].
  rewrite compileRunes_translate by lia. simpl.
  destruct (translate _ _ _); [apply IH|done].
Qed.

Lemma compilePattern_cons (c : rune) (rest : gostring) :
  compilePattern (c :: rest)
  = Returns (if c =?r chr "%" then regexp_Compile rest
             else match alternatives (c :: rest) 0
                          (strings_Split (c :: rest) (chr "|")) [] with
                  | inr err => inr err
                  | inl buf => regexp_Compile buf
                  end).
Proof.
  unfold compilePattern, index.
  cbn [lookup list_lookup mbind outcome_bind drop].
  destruct (c =?r chr "%"); [done|].
  rewrite compileAlternatives_alternatives. cbn [mbind outcome_bind].
  by destruct (alternatives _ _ _ _).
Qed.

(** C9 (as amended): for every non-empty source [compilePattern] returns
    a matcher or an error: it does not panic, so it reads nothing outside
    its input, and its loops end within their fuel. *)
Theorem compilePattern_total (c : rune) (rest : gostring) :
  ∃ r : Regexp + error, compilePattern (c :: rest) = Returns r.
Proof. rewrite compilePattern_cons. eauto. Qed.

Lemma rune_eqb_eq (a b : rune) : (a =?r b) = true → a = b.
Proof. apply N.eqb_eq. Qed.

Lemma translate_lone_starstar (pattern : gostring) :
  ∀ (rs : list rune) (buf : gostring),
    if lone_starstar rs
    then translate pattern rs buf = inr (str "invalid wildcard: " ++ pattern)
    else ∃ buf', translate pattern rs buf = inl buf'.
Proof.
  intros rs. remember (length rs) as n eqn:Hn. revert rs Hn.
  induction n as [n IH] using lt_wf_ind. intros rs Hn buf.
  destruct rs as [|c rs1]; [simpl; eauto|].
  assert (∀ buf', if lone_starstar rs1
                  then translate pattern rs1 buf' = inr (str "invalid wildcard: " ++ pattern)
                  else ∃ buf'', translate pattern rs1 buf' = inl buf'') as IH1.
  { intros buf'. eapply (IH (length rs1)); simpl in *; lia || done. }
  cbn [translate lone_starstar].
  destruct (c =?r chr "*") eqn:Es.
  2: { assert (lone_starstar (c :: rs1) = lone_starstar rs1) as E.
       { cbn [lone_starstar]. rewrite Es. by destruct rs1. }
       cbn [lone_starstar] in E. rewrite Es in E. rewrite E.
       destruct (c =?r chr "/"); [apply IH1|].
       destruct (c =?r chr "?"); apply IH1. }
  apply rune_eqb_eq in Es as ->.
  change (chr "*" =?r chr "/") with false. cbn iota.
  destruct rs1 as [|c1 rs2]; [simpl; eauto|].
  rewrite andb_true_l.
  destruct (c1 =?r chr "*") eqn:Es1.
  2: { rewrite andb_false_l, orb_false_l. apply IH1. }
  apply rune_eqb_eq in Es1 as ->.
  rewrite andb_true_l.
  destruct rs2 as [|c2 rs3]; [done|].
  destruct (c2 =?r chr "/") eqn:Ec2; [|done].
  apply rune_eqb_eq in Ec2 as ->.
  cbn [negb]. rewrite orb_false_l.
  assert (lone_starstar (chr "*" :: chr "/" :: rs3) = lone_starstar rs3) as ->.
  { cbn [lone_starstar].
    change (chr "/" =?r chr "*") with false.
    rewrite andb_false_r, orb_false_l.
    by destruct rs3. }
  eapply (IH (length rs3)); simpl in *; lia || done.
Qed.

Lemma alternatives_lone_starstar (pattern : gostring) :
  ∀ (pats : list gostring) (n : nat) (buf : gostring),
    if existsb (λ pat, lone_starstar (resolve pat)) pats
    then alternatives pattern n pats buf
         = inr (str "invalid wildcard: " ++ pattern)
    else ∃ buf', alternatives pattern n pats buf = inl buf'.
Proof.
  induction pats as [|pat pats IH]; intros n buf;
    cbn beta iota zeta delta [alternatives existsb]; [eauto|].
  pose proof (translate_lone_starstar pattern (resolve pat)) as T.
  destruct (lone_starstar (resolve pat)); cbn [orb].
  - by rewrite T.
  - edestruct T as [buf' ->]. apply IH.
Qed.

Lemma lone_starstar_trailing (pre : gostring) :
  lone_starstar (pre ++ str "**") = true.
Proof.
  induction pre as [|c pre IH]; [done|].
  change ((c :: pre) ++ str "**") with (c :: (pre ++ str "**")).
  cbn [lone_starstar]. rewrite IH. apply orb_true_r.
Qed.

Lemma strings_Split_trailing (pre suf : gostring) (sep : rune) :
  forallb (λ c, negb (c =?r sep)) suf = true →
  ∃ init piece, strings_Split (pre ++ suf) sep = init ++ [piece ++ suf].
Proof.
  intros Hsuf. induction pre as [|c pre (init & piece & IH)].
  - exists [], []. simpl. induction suf as [|d suf IHs]; [done|].
    simpl in Hsuf. apply andb_prop in Hsuf as [Hd Hs].
    simpl. apply negb_true_iff in Hd. rewrite Hd, (IHs Hs). done.
  - simpl. rewrite IH. destruct (c =?r sep).
    + by exists ([] :: init), piece.
    + destruct init as [|i0 init]; simpl.
      * by exists [], (c :: piece).
      * by exists ((c :: i0) :: init), piece.
Qed.

Lemma strings_Join_snoc (elems : list gostring) (e sep : gostring) :
  ∃ z, strings_Join (elems ++ [e]) sep = z ++ e.
Proof.
  induction elems as [|x elems [z IH]]; [by exists []|].
  change ((x :: elems) ++ [e]) with (x :: (elems ++ [e])).
  cbn [strings_Join]. rewrite IH.
  destruct (elems ++ [e]) eqn:E.
  - by destruct elems.
  - exists (x ++ sep ++ z). by rewrite <- !app_assoc.
Qed.

Lemma filepath_Clean_trailing (x : gostring) :
  ∃ y, filepath_Clean (x ++ str "**") = y ++ str "**".
Proof.
  unfold filepath_Clean. cbv zeta.
  destruct (strings_Split_trailing x (str "**") Separator) as (init & piece & ->);
    [done|].
  rewrite (foldl_snoc (clean_elem (filepath_IsAbs (x ++ str "**"))) [] init).
  set (kept := foldl (clean_elem (filepath_IsAbs (x ++ str "**"))) [] init).
  assert (clean_elem (filepath_IsAbs (x ++ str "**")) kept (piece ++ str "**")
          = (piece ++ str "**") :: kept) as ->.
  { unfold clean_elem, string_eqb.
    rewrite !bool_decide_eq_false_2; [done|..];
      (intros E; destruct piece as [|? [|? ?]];
       [by vm_compute in E
       |apply (f_equal length) in E; simpl in E;
        rewrite ?length_app in E; simpl in E; lia..]). }
  cbn [rev].
  destruct (strings_Join_snoc (rev kept) (piece ++ str "**") [Separator]) as [z Hz].
  rewrite Hz.
  destruct (filepath_IsAbs _).
  - exists (Separator :: z ++ piece). simpl. by rewrite <- !app_assoc.
  - exists (z ++ piece). rewrite <- !app_assoc.
    destruct (z ++ piece ++ str "**") eqn:E; [|done].
    apply (f_equal length) in E. rewrite !length_app in E. simpl in E. lia.
Qed.

Lemma resolve_trailing (pre : gostring) :
  ∃ y, resolve (pre ++ str "**") = y ++ str "**".
Proof.
  unfold resolve, filepath_Abs, filepath_ToSlash, filepath_Join.
  destruct (filepath_IsAbs _); [apply filepath_Clean_trailing|].
  destruct os_Getwd as [wd|]; [|eauto].
  destruct wd as [|w wd].
  - destruct (pre ++ str "**") eqn:E.
    + by destruct pre.
    + rewrite <- E. apply filepath_Clean_trailing.
  - rewrite (app_comm_cons pre (str "**") Separator), app_assoc.
    apply filepath_Clean_trailing.
Qed.

(** C8 (as amended): for a glob source, [compilePattern] returns the
    error [invalid wildcard] and no matcher exactly when some alternative,
    as resolved to an absolute path, holds two stars that no slash
    follows; otherwise the wildcard scan succeeds and the result is that
    of [regexp.Compile].  Every source that ends in two stars is of the
    first kind. *)
Theorem compilePattern_wildcard (c : rune) (rest : gostring) :
  (c =?r chr "%") = false →
  let pattern := c :: rest in
  let pats := strings_Split pattern (chr "|") in
  (existsb (λ pat, lone_starstar (resolve pat)) pats = true →
     compilePattern pattern = Returns (inr (str "invalid wildcard: " ++ pattern)))
  ∧ (existsb (λ pat, lone_starstar (resolve pat)) pats = false →
     ∃ buf, alternatives pattern 0 pats [] = inl buf
            ∧ compilePattern pattern = Returns (regexp_Compile buf))
  ∧ (∀ pre, pattern = pre ++ str "**" →
     compilePattern pattern = Returns (inr (str "invalid wildcard: " ++ pattern))).
Proof.
  intros Hc pattern pats.
  assert (existsb (λ pat, lone_starstar (resolve pat)) pats = true →
     compilePattern pattern = Returns (inr (str "invalid wildcard: " ++ pattern))) as A.
  { intros E. unfold pattern. rewrite compilePattern_cons, Hc.
    pose proof (alternatives_lone_starstar pattern pats 0 []) as L.
    rewrite E in L. fold pattern pats. by rewrite L. }
  split; [exact A|]. split.
  - intros E. pose proof (alternatives_lone_starstar pattern pats 0 []) as L.
    rewrite E in L. destruct L as [buf L]. exists buf. split; [done|].
    unfold pattern. rewrite compilePattern_cons, Hc.
    fold pattern pats. by rewrite L.
  - intros pre E. apply A. unfold pats. rewrite E.
    destruct (strings_Split_trailing pre (str "**") (chr "|")) as (init & piece & ->);
      [done|].
    rewrite existsb_app. simpl.
    destruct (resolve_trailing piece) as [y ->].
    rewrite lone_starstar_trailing. simpl. apply orb_true_r.
Qed.

(** *** load *)



(** For an event whose name begins with a colon the tests of [g.task]
    compare the name with the source of the match pattern and leave the
    compiled matcher aside, so such an event selects a rule whatever
    became of its patterns. *)
Lemma selects_by_name (t : task) (name : gostring) (o : fsnotify.Op) :
  strings_HasPrefix name (str ":") = true →
  Match t = name →
  mops t = 0%N →
  selects t {| fsnotify.Name := name; fsnotify.op := o |} = true.
Proof.
  intros Hp <- Hm. unfold selects, task_matchOp, filepath_ToSlash. simpl.
  rewrite Hp, Hm. unfold string_eqb. by rewrite bool_decide_eq_true_2.
Qed.

(** *** The watch set *)

Lemma walk_rules_spec (ts : list task) (path dir : gostring) (w : watcher) :
  walk_rules ts path dir w
  = if existsb (λ t, task_match t path) ts then add_watch w dir true else w.
Proof.
  induction ts as [|t ts IH]; [done|]. simpl.
  by destruct (task_match t path).
Qed.

(** C5 (as amended): for a regular file whose parent directory is not
    yet in [dup], the walk adds the directory exactly when [match] of
    some rule accepts the path: the match pattern accepts it and the
    ignore pattern, if one was compiled, does not.  Nothing else of a
    rule is consulted, the operation mask in particular. *)
Theorem walkFn_regular_file (Tasks : list task) (w : watcher)
    (path : gostring) (info : FileInfo) (err : option error) :
  IsDir info = false →
  dup w !! filepath_Dir path = None →
  let dir := filepath_Dir path in
  let w' := fst (walkFn Tasks w path (Some info) err) in
  snd (walkFn Tasks w path (Some info) err) = None
  ∧ (existsb (λ t, task_match t path) Tasks = true →
       added w' = added w ++ [dir] ∧ dup w' = <[dir := true]> (dup w))
  ∧ (existsb (λ t, task_match t path) Tasks = false → w' = w)
  ∧ (∀ Tasks' : list task,
       Forall2 (λ t t', mre t = mre t' ∧ ire t = ire t') Tasks Tasks' →
       walkFn Tasks' w path (Some info) err = walkFn Tasks w path (Some info) err).
Proof.
  intros Hd Hdup. cbv zeta.
  assert (∀ ts : list task,
            walkFn ts w path (Some info) err
            = (if existsb (λ t, task_match t path) ts
               then add_watch w (filepath_Dir path) true else w, None)) as E.
  { intros ts. unfold walkFn. rewrite Hd, Hdup.
    by rewrite walk_rules_spec. }
  rewrite E. cbn [fst snd]. split; [done|]. split; [|split].
  - by intros ->.
  - by intros ->.
  - intros Tasks' F. rewrite E.
    replace (existsb (λ t, task_match t path) Tasks')
      with (existsb (λ t, task_match t path) Tasks); [done|].
    induction F as [|t t' ts ts' [Em Ei] F IH]; [done|].
    cbn [existsb]. rewrite IH. f_equal. unfold task_match. by rewrite Em, Ei.
Qed.


(** *** Steps and runs *)

Lemma step_alive (s s' : state) (l : label) :
  step s l = Some s' → main s ≠ MExited ∧ step_running s l = Some s'.
Proof. unfold step. destruct (main s); by intros. Qed.

Lemma step_running_step (s s' : state) (l : label) :
  main s ≠ MExited → step_running s l = Some s' → step s l = Some s'.
Proof. unfold step. by destruct (main s). Qed.

Lemma run_snoc (s : state) (tr : list label) (l : label) :
  run s (tr ++ [l]) = s' ← run s tr; step s' l.
Proof.
  revert s. induction tr as [|l' tr IH]; intros s; simpl.
  - by destruct (step s l).
  - destruct (step s l'); [apply IH|done].
Qed.

Lemma run_snoc_Some (s s' : state) (tr : list label) (l : label) :
  run s (tr ++ [l]) = Some s' → ∃ s1, run s tr = Some s1 ∧ step s1 l = Some s'.
Proof.
  rewrite run_snoc. destruct (run s tr) as [s1|]; [|done]. simpl. eauto.
Qed.

Lemma run_app (s : state) (tr1 tr2 : list label) :
  run s (tr1 ++ tr2) = s' ← run s tr1; run s' tr2.
Proof.
  revert s. induction tr1 as [|l tr1 IH]; intros s; simpl; [done|].
  destruct (step s l); [apply IH|done].
Qed.

(** An invariant of the steps that holds at the start holds after every
    run. *)
Lemma run_invariant (P : list label → state → Prop) (s0 : state) :
  P [] s0 →
  (∀ tr s l s', P tr s → step s l = Some s' → P (tr ++ [l]) s') →
  ∀ tr s, run s0 tr = Some s → P tr s.
Proof.
  intros Hinit Hstep tr. induction tr as [|l tr IH] using rev_ind; intros s.
  - by intros [= <-].
  - rewrite run_snoc. destruct (run s0 tr) as [s1|]; [|done].
    simpl. intros Hs. eapply Hstep; eauto.
Qed.

Lemma fmap_insert_same {A B} (f : A → B) (l : list A) (i : nat) (x y : A) :
  l !! i = Some y → f x = f y → f <$> <[i:=x]> l = f <$> l.
Proof.
  intros Hl Hf. rewrite list_fmap_insert, Hf.
  apply list_insert_id. by rewrite list_lookup_fmap, Hl.
Qed.

Lemma load_task_idle (t t' : task) (logged : list gostring) :
  load_task t = Returns (t', logged) → hit t' = hit t ∧ mutex t' = mutex t.
Proof.
  unfold load_task, load_ops. intros E.
  repeat (case_match || simplify_eq/= || destruct (compilePattern _)); done.
Qed.

Lemma load_tasks_idle (ts ts' : list task) (logged : list gostring) :
  load_tasks ts = Returns (ts', logged) →
  hit <$> ts' = hit <$> ts ∧ mutex <$> ts' = mutex <$> ts.
Proof.
  revert ts' logged. induction ts as [|t ts IH]; intros ts' logged; simpl.
  - by intros [= <- _].
  - destruct (load_task t) as [[t1 l1]| |] eqn:E1; [|done..]. simpl.
    destruct (load_tasks ts) as [[ts1 l2]| |] eqn:E2; [|done..]. simpl.
    intros [= <- _]. rewrite !fmap_cons.
    destruct (load_task_idle _ _ _ E1) as [-> ->].
    by destruct (IH _ _ eq_refl) as [-> ->].
Qed.

Lemma unmarshalled_idle (file : list entry) :
  hit <$> (unmarshalled <$> file) = replicate (length file) false
  ∧ mutex <$> (unmarshalled <$> file) = replicate (length file) false.
Proof.
  induction file as [|e file [IH1 IH2]]; [done|].
  rewrite !fmap_cons, IH1, IH2. done.
Qed.

Ltac step_inv H :=
  unfold step_running, step_dispatch, step_pipeline, step_supervisor in H;
  repeat (simplify_option_eq || case_match).

Ltac fill :=
  repeat match goal with
         | |- _ ∧ _ => split
         | |- ∃ _, _ => eexists
         end; done.

(** The steps of a call of [g.task]. *)
Lemma step_dispatch_cases (s s' : state) (n : nat) (l : label) :
  step_dispatch s n l = Some s' →
  ∃ event rest b,
    pool s !! n = Some (Dispatch event rest b)
    ∧ ((rest = [] ∧ b = false ∧ (∃ m, l = LReturn m)
        ∧ s' = set_thread s n Returned)
       ∨ ∃ p rest' t,
           rest = p :: rest' ∧ heap s !! p = Some t
           ∧ ((b = false ∧ (∃ m, l = LSkip m) ∧ selects t event = false
               ∧ s' = set_thread s n (Dispatch event rest' false))
              ∨ (b = false ∧ (∃ m, l = LLock m) ∧ selects t event = true
                 ∧ mutex t = false
                 ∧ s' = set_thread (set_task s p (set_mutex t true)) n
                          (Dispatch event rest true))
              ∨ (b = true ∧ (∃ m, l = LDrop m) ∧ hit t = true
                 ∧ s' = set_thread (set_task s p (set_mutex t false)) n
                          (Dispatch event rest' false))
              ∨ (b = true ∧ (∃ m, l = LAdmit m p (length (pool s)))
                 ∧ hit t = false
                 ∧ s' = with_pool
                          (set_thread
                             (set_task s p (set_mutex (set_hit t true) false))
                             n (Dispatch event rest' false))
                          (<[n:=Dispatch event rest' false]> (pool s)
                           ++ [Pipeline p
                                 (filepath_ToSlash (fsnotify.Name event))
                                 PAdd])))).
Proof.
  unfold step_dispatch. intros Hs.
  destruct (pool s !! n) as [[event rest b| |]|] eqn:Hn; try done.
  exists event, rest, b. split; [done|].
  destruct rest as [|p rest].
  { destruct b; [done|]. destruct l; try done. simplify_eq. left.
    fill. }
  right. exists p, rest.
  destruct (heap s !! p) as [t|] eqn:Hp; [|by destruct b].
  cbn [mbind option_bind] in Hs. exists t. split; [done|]. split; [done|].
  destruct b, l; try done.
  - destruct (hit t) eqn:Eh; [|done]. simplify_eq. right; right; left.
    fill.
  - destruct (hit t) eqn:Eh; [done|]. cbn [negb andb] in Hs.
    repeat case_bool_decide; try done. simpl in Hs. simplify_eq.
    right; right; right. fill.
  - destruct (selects t event) eqn:Es; [done|]. simplify_eq. left.
    fill.
  - destruct (selects t event) eqn:Es; [|done].
    destruct (mutex t) eqn:Em; [done|]. simpl in Hs. simplify_eq.
    right; left. fill.
Qed.

(** The steps of the goroutine of lines 171-191. *)
Lemma step_pipeline_cases (s s' : state) (n : nat) (l : label) :
  step_pipeline s n l = Some s' →
  ∃ p file pc pc' t,
    pool s !! n = Some (Pipeline p file pc)
    ∧ heap s !! p = Some t
    ∧ pipeline_trans p (Commands t) pc l pc'
    ∧ s' = set_thread
             (match pc with
              | PAdd => with_tasks s (AddUint64 (tasks s) 1)
              | PLock => set_task s p (set_mutex t true)
              | PClear => set_task s p (set_mutex (set_hit t false) false)
              | PSub => with_tasks s (AddUint64 (tasks s) minus_one)
              | _ => s
              end) n (Pipeline p file pc')
    ∧ (pc = PLock → mutex t = false).
Proof.
  unfold step_pipeline, pipeline_trans. intros Hs.
  destruct (pool s !! n) as [[| |p file pc]|] eqn:Hn; try done.
  destruct (heap s !! p) as [t|] eqn:Hp; [|done].
  cbn [mbind option_bind] in Hs.
  exists p, file, pc.
  destruct pc as [|[|c rest]| | | |], l; try done;
    repeat (case_match || case_bool_decide); simplify_eq;
    eexists _, t; (split; [done|]); (split; [done|]);
    (split; [eauto 12|]); done.
Qed.

Lemma step_supervisor_inv (s s' : state) (l : label) :
  step_supervisor s l = Some s' →
  match l with
  | LPoll v =>
      main s = MPoll ∧ v = tasks s
      ∧ s' = with_main s (if (0 <? v)%N then MSleep else MGo)
  | LSleep => main s = MSleep ∧ s' = with_main s MPoll
  | LGo =>
      main s = MGo ∧ restarter s = RIdle
      ∧ s' = with_main (with_restarter s RCall (errChan s)) MSelect
  | LNoArgs =>
      restarter s = RCall ∧ Args s = []
      ∧ s' = with_restarter s RIdle (Some None)
  | LTerminate =>
      restarter s = RCall ∧ Args s ≠ []
      ∧ s' = with_restarter s RSpawn (errChan s)
  | LSpawn => restarter s = RSpawn ∧ s' = with_restarter s RRunning (errChan s)
  | LExit err => restarter s = RRunning ∧ s' = with_restarter s RIdle (Some err)
  | LRecv =>
      main s = MSelect
      ∧ ∃ err, errChan s = Some err
               ∧ s' = with_main (with_restarter s (restarter s) None)
                        (if err is Some _ then MBackoff else MPoll)
  | LBackoff => main s = MBackoff ∧ s' = with_main s MPoll
  | LSignal => main s = MSelect ∧ s' = with_main s MExited
  | _ => False
  end.
Proof.
  unfold step_supervisor.
  destruct l; try (by repeat case_match);
    destruct (main s) eqn:Em, (restarter s) eqn:Er; try done;
    repeat case_match; intros; simplify_eq;
    repeat match goal with
           | E : bool_decide _ = true |- _ => apply bool_decide_eq_true_1 in E
           end; eauto.
Qed.

Lemma step_supervisor_frame (s s' : state) (l : label) :
  step_supervisor s l = Some s' →
  pool s' = pool s ∧ heap s' = heap s ∧ place l = None.
Proof.
  intros Hs. apply step_supervisor_inv in Hs.
  destruct l; try done; [destruct Hs as (_ & _ & ->) | destruct Hs as (_ & ->)
    | destruct Hs as (_ & _ & ->) | destruct Hs as (_ & _ & ->)
    | destruct Hs as (_ & _ & ->) | destruct Hs as (_ & ->)
    | destruct Hs as (_ & ->) | destruct Hs as (_ & ? & _ & ->)
    | destruct Hs as (_ & ->) | destruct Hs as (_ & ->)]; done.
Qed.

(** Every step is of one of five kinds. *)
Lemma step_kinds (s s' : state) (l : label) :
  step s l = Some s' →
  (∃ event, l = LEvent event
            ∧ s' = with_pool s (pool s ++ [Dispatch event (conf_Tasks s) false]))
  ∨ (∃ file ts logged,
       l = LReload file
       ∧ load_tasks (unmarshalled <$> file) = Returns (ts, logged)
       ∧ s' = with_conf s (seq (length (heap s)) (length ts)) (heap s ++ ts))
  ∨ (∃ n, place l = Some n ∧ step_dispatch s n l = Some s')
  ∨ (∃ n, place l = Some n ∧ step_pipeline s n l = Some s')
  ∨ (place l = None ∧ step_supervisor s l = Some s').
Proof.
  intros [_ Hs]%step_alive. destruct l; cbn [step_running] in Hs;
    try (right; right; right; right; by split);
    try (right; right; left; eexists; by split);
    try (right; right; right; left; eexists; by split).
  - left. simplify_eq. eauto.
  - right; left. destruct (load_tasks _) as [[ts logged]| |] eqn:E; [|done..].
    simplify_eq. eauto 6.
Qed.

(** *** Single flight *)

Ltac same_lists :=
  unfold hits, runners, locks, holders, cmds; simpl;
  rewrite ?fmap_app, ?list_fmap_insert; simpl;
  repeat (erewrite list_insert_id;
          [|rewrite list_lookup_fmap;
            match goal with E : _ !! _ = Some _ |- _ => by rewrite E end]);
  try done.

(** What a step does to the flags and to the running pipelines. *)
Lemma step_effect (s s' : state) (l : label) :
  step s l = Some s' →
  match l with
  | LEvent _ => hits s' = hits s ∧ runners s' = runners s ++ [None]
  | LReload file =>
      hits s' = hits s ++ replicate (length file) false
      ∧ runners s' = runners s
  | LAdmit n p g =>
      hits s !! p = Some false ∧ g = length (runners s)
      ∧ hits s' = <[p:=true]> (hits s)
      ∧ runners s' = runners s ++ [Some p]
  | LClear n p =>
      runners s !! n = Some (Some p)
      ∧ hits s' = <[p:=false]> (hits s)
      ∧ runners s' = <[n:=None]> (runners s)
  | _ => hits s' = hits s ∧ runners s' = runners s
  end.
Proof.
  intros Hs.
  destruct (step_kinds _ _ _ Hs)
    as [(ev & -> & ->)|[(file & ts & logged & -> & El & ->)|
        [(n & Hpl & Hd)|[(n & Hpl & Hp)|[Hpl Hsu]]]]].
  - split; same_lists.
  - split; [|done]. unfold hits. simpl. rewrite fmap_app. f_equal.
    destruct (load_tasks_idle _ _ _ El) as [-> _].
    apply unmarshalled_idle.
  - apply step_dispatch_cases in Hd
      as (ev & rest & b & Hn &
          [(-> & -> & [m ->] & ->)|(p & rest' & t & -> & Hh &
           [(-> & [m ->] & Hsel & ->)|[(-> & [m ->] & Hsel & Hm & ->)|
            [(-> & [m ->] & Hhit & ->)|(-> & [m ->] & Hhit & ->)]]])]).
    + split; same_lists.
    + split; same_lists.
    + split; same_lists.
    + split; same_lists.
    + simpl in Hpl. simplify_eq. unfold hits, runners. simpl.
      split; [by rewrite list_lookup_fmap, Hh; simpl; rewrite Hhit|].
      split; [by rewrite length_fmap|]. split; same_lists.
  - apply step_pipeline_cases in Hp
      as (p & file & pc & pc' & t & Hn & Hh & Htr & -> & _).
    destruct Htr as [(-> & [m ->] & ->)|[(c & rest & m & ok & -> & -> & ->)|
      [(-> & [m ->] & ->)|[(-> & [m ->] & ->)|[(-> & [m ->] & ->)|
      (-> & [m ->] & ->)]]]]].
    + split; same_lists.
    + split; [done|]. destruct ok; same_lists.
    + split; same_lists.
    + split; same_lists.
    + simpl in Hpl. simplify_eq. unfold hits, runners. simpl.
      split; [by rewrite list_lookup_fmap, Hn|]. split; same_lists.
    + split; same_lists.
  - pose proof (step_supervisor_inv _ _ _ Hsu) as Hinv.
    apply step_supervisor_frame in Hsu as (Hp & Hh & _).
    unfold hits, runners. rewrite Hp, Hh. by destruct l.
Qed.

Lemma owner_snoc (p : ptr) (tr : list label) (l : label) :
  owner p (tr ++ [l]) = owner_step p (owner p tr) l.
Proof. unfold owner. by rewrite foldl_snoc. Qed.

Lemma single_flight_init (args : list gostring) (ts : list task) :
  Forall idle ts → single_flight [] (init args ts).
Proof.
  intros Hts. split.
  - intros p. unfold hits. simpl. rewrite list_lookup_fmap.
    destruct (ts !! p) as [t|] eqn:E; [|done]. simpl.
    eapply Forall_lookup_1 in Hts as [-> _]; done.
  - intros n p. unfold runners. simpl. by rewrite lookup_nil.
Qed.

Lemma single_flight_step (tr : list label) (s s' : state) (l : label) :
  single_flight tr s → step s l = Some s' → single_flight (tr ++ [l]) s'.
Proof.
  intros [I1 I2] Hs. apply step_effect in Hs. unfold single_flight.
  assert (∀ p, (∀ n q g, l ≠ LAdmit n q g) → (∀ n q, l ≠ LClear n q) →
               owner p (tr ++ [l]) = owner p tr) as Ho.
  { intros p Ha Hc. rewrite owner_snoc. destruct l; try done.
    - by destruct (Ha n t g).
    - by destruct (Hc n t). }
  destruct l;
    try (destruct Hs as [-> ->]; split; intros; rewrite Ho by done;
         [apply I1|by apply I2]; fail).
  - (* LEvent *)
    destruct Hs as [-> ->]. split.
    + intros p. rewrite Ho by done. specialize (I1 p).
      destruct (hits s !! p) as [[|]|]; try done.
      destruct I1 as (g & Hg & Hr). exists g. split; [done|].
      by rewrite lookup_app_l by (by eapply lookup_lt_Some).
    + intros n p Hn. rewrite Ho by done. apply I2.
      apply lookup_app_Some in Hn as [Hn|[_ Hn]]; [done|].
      by destruct (n - length (runners s)) as [|[|]].
  - (* LReload *)
    destruct Hs as [-> ->]. split; [|intros; rewrite Ho by done; by apply I2].
    intros p. rewrite Ho by done. specialize (I1 p).
    destruct (hits s !! p) as [b|] eqn:E.
    + by rewrite lookup_app_l, E by (by eapply lookup_lt_Some).
    + rewrite lookup_app_r by (by apply lookup_ge_None).
      destruct (replicate _ _ !! _) as [b|] eqn:E'; [|done].
      by apply lookup_replicate in E' as [-> _].
  - (* LAdmit *)
    destruct Hs as (Hp & -> & -> & ->). split.
    + intros q. rewrite owner_snoc. simpl. case_bool_decide as Ep.
      * subst. rewrite list_lookup_insert_eq by (by eapply lookup_lt_Some).
        exists (length (runners s)). split; [done|].
        by rewrite lookup_app_r, Nat.sub_diag.
      * rewrite list_lookup_insert_ne by done. specialize (I1 q).
        destruct (hits s !! q) as [[|]|]; try done.
        destruct I1 as (g & Hg & Hr). exists g. split; [done|].
        by rewrite lookup_app_l by (by eapply lookup_lt_Some).
    + intros m q Hm. rewrite owner_snoc. simpl.
      apply lookup_app_Some in Hm as [Hm|[Hl Hm]].
      * case_bool_decide as Ep; [|by apply I2]. subst.
        apply I2 in Hm. specialize (I1 q). rewrite Hp in I1. congruence.
      * destruct (m - length (runners s)) as [|[|]] eqn:En; [|done..].
        simplify_eq/=. rewrite bool_decide_eq_true_2 by done. f_equal. lia.
  - (* LClear *)
    destruct Hs as (Hn & -> & ->). split.
    + intros q. rewrite owner_snoc. simpl. case_bool_decide as Ep.
      * subst. destruct (hits s !! q) eqn:E.
        -- by rewrite list_lookup_insert_eq by (by eapply lookup_lt_Some).
        -- by rewrite list_insert_ge, E by (by apply lookup_ge_None).
      * rewrite list_lookup_insert_ne by done. specialize (I1 q).
        destruct (hits s !! q) as [[|]|]; try done.
        destruct I1 as (g & Hg & Hr). exists g. split; [done|].
        rewrite list_lookup_insert_ne; [done|].
        intros ->. congruence.
    + intros m q Hm. rewrite owner_snoc. simpl.
      destruct (decide (m = n)) as [->|Hne].
      { rewrite list_lookup_insert_eq in Hm by (by eapply lookup_lt_Some). done. }
      rewrite list_lookup_insert_ne in Hm by done.
      case_bool_decide as Ep; [|by apply I2]. subst.
      apply I2 in Hm. apply I2 in Hn. congruence.
Qed.

Lemma single_flight_run (args : list gostring) (ts : list task)
    (tr : list label) (s : state) :
  Forall idle ts → run (init args ts) tr = Some s → single_flight tr s.
Proof.
  intros Hts. apply (run_invariant single_flight).
  - by apply single_flight_init.
  - intros tr' s1 l s2. apply single_flight_step.
Qed.

(** *** The locks *)

(** What a step does to the locks and to the goroutines that hold them. *)
Lemma step_locks (s s' : state) (l : label) :
  step s l = Some s' →
  match l with
  | LEvent _ => locks s' = locks s ∧ holders s' = holders s ++ [None]
  | LReload file =>
      locks s' = locks s ++ replicate (length file) false
      ∧ holders s' = holders s
  | LLock n | LLockP n =>
      ∃ p, locks s !! p = Some false
           ∧ holders s !! n = Some None
           ∧ locks s' = <[p:=true]> (locks s)
           ∧ holders s' = <[n:=Some p]> (holders s)
  | LDrop n | LClear n _ =>
      ∃ p, holders s !! n = Some (Some p)
           ∧ locks s' = <[p:=false]> (locks s)
           ∧ holders s' = <[n:=None]> (holders s)
  | LAdmit n p _ =>
      holders s !! n = Some (Some p)
      ∧ locks s' = <[p:=false]> (locks s)
      ∧ holders s' = <[n:=None]> (holders s) ++ [None]
  | _ => locks s' = locks s ∧ holders s' = holders s
  end.
Proof.
  intros Hs.
  destruct (step_kinds _ _ _ Hs)
    as [(ev & -> & ->)|[(file & ts & logged & -> & El & ->)|
        [(n & Hpl & Hd)|[(n & Hpl & Hp)|[Hpl Hsu]]]]].
  - split; [same_lists|]. unfold holders. simpl. rewrite fmap_app.
    simpl. by destruct (conf_Tasks s).
  - split; [|done]. unfold locks. simpl. rewrite fmap_app. f_equal.
    destruct (load_tasks_idle _ _ _ El) as [_ ->].
    apply unmarshalled_idle.
  - apply step_dispatch_cases in Hd
      as (ev & rest & b & Hn &
          [(-> & -> & [m ->] & ->)|(p & rest' & t & -> & Hh &
           [(-> & [m ->] & Hsel & ->)|[(-> & [m ->] & Hsel & Hm & ->)|
            [(-> & [m ->] & Hhit & ->)|(-> & [m ->] & Hhit & ->)]]])]);
      simpl in Hpl; simplify_eq.
    + split; same_lists.
    + split; [done|]. unfold holders. simpl.
      rewrite list_fmap_insert. simpl. apply list_insert_id.
      rewrite list_lookup_fmap, Hn. simpl. by destruct rest'.
    + exists p. unfold locks, holders. simpl.
      split; [by rewrite list_lookup_fmap, Hh; simpl; rewrite Hm|].
      split; [by rewrite list_lookup_fmap, Hn|].
      by rewrite !list_fmap_insert.
    + exists p. unfold locks, holders. simpl.
      split; [by rewrite list_lookup_fmap, Hn|].
      rewrite !list_fmap_insert. simpl. split; [done|].
      f_equal. by destruct rest'.
    + unfold locks, holders. simpl.
      split; [by rewrite list_lookup_fmap, Hn|].
      rewrite fmap_app, !list_fmap_insert. simpl. split; [done|].
      do 2 f_equal. by destruct rest'.
  - apply step_pipeline_cases in Hp
      as (p & file & pc & pc' & t & Hn & Hh & Htr & -> & Hm).
    destruct Htr as [(-> & [m ->] & ->)|[(c & rest & m & ok & -> & -> & ->)|
      [(-> & [m ->] & ->)|[(-> & [m ->] & ->)|[(-> & [m ->] & ->)|
      (-> & [m ->] & ->)]]]]]; simpl in Hpl; simplify_eq.
    + split; same_lists.
    + split; [done|]. destruct ok; same_lists.
    + split; same_lists.
    + exists p. unfold locks, holders. simpl.
      split; [by rewrite list_lookup_fmap, Hh; simpl; rewrite Hm|].
      split; [by rewrite list_lookup_fmap, Hn|].
      by rewrite !list_fmap_insert.
    + exists p. unfold locks, holders. simpl.
      split; [by rewrite list_lookup_fmap, Hn|].
      by rewrite !list_fmap_insert.
    + split; same_lists.
  - pose proof (step_supervisor_inv _ _ _ Hsu) as Hinv.
    apply step_supervisor_frame in Hsu as (Hp & Hh & _).
    unfold locks, holders. rewrite Hp, Hh. by destruct l.
Qed.

Lemma exclusive_init (args : list gostring) (ts : list task) :
  Forall idle ts → exclusive (init args ts).
Proof.
  intros Hts. split.
  - intros p. unfold locks. simpl. rewrite list_lookup_fmap.
    destruct (ts !! p) as [t|] eqn:E; [|done]. simpl.
    eapply Forall_lookup_1 in Hts as [_ ->]; done.
  - intros n p. unfold holders. simpl. by rewrite lookup_nil.
Qed.

(** The invariant on the lists of locks and of holders. *)
Lemma exclusive_acquire (ls : list bool) (hs : list (option ptr))
    (n : nat) (p : ptr) :
  ((∀ q, ls !! q = Some true → ∃ m, hs !! m = Some (Some q))
   ∧ (∀ m q, hs !! m = Some (Some q) →
             ls !! q = Some true
             ∧ ∀ m', hs !! m' = Some (Some q) → m' = m)) →
  ls !! p = Some false →
  hs !! n = Some None →
  (∀ q, <[p:=true]> ls !! q = Some true →
        ∃ m, <[n:=Some p]> hs !! m = Some (Some q))
  ∧ (∀ m q, <[n:=Some p]> hs !! m = Some (Some q) →
            <[p:=true]> ls !! q = Some true
            ∧ ∀ m', <[n:=Some p]> hs !! m' = Some (Some q) → m' = m).
Proof.
  intros [E1 E2] Hp Hn.
  assert (n < length hs) as Hlt by (by eapply lookup_lt_Some).
  assert (∀ m, hs !! m ≠ Some (Some p)) as Hfree.
  { intros m Hm. apply E2 in Hm as [? _]. congruence. }
  assert (∀ m q, <[n:=Some p]> hs !! m = Some (Some q) →
                 (m = n ∧ q = p) ∨ (m ≠ n ∧ q ≠ p ∧ hs !! m = Some (Some q)))
    as Hcase.
  { intros m q Hm. destruct (decide (m = n)) as [->|Hne].
    - rewrite list_lookup_insert_eq in Hm by done. left. by simplify_eq.
    - rewrite list_lookup_insert_ne in Hm by done. right.
      split; [done|]. split; [|done]. intros ->. by eapply Hfree. }
  split.
  - intros q Hq. destruct (decide (q = p)) as [->|Hne].
    + exists n. by rewrite list_lookup_insert_eq.
    + rewrite list_lookup_insert_ne in Hq by done.
      destruct (E1 q Hq) as [m Hm]. exists m.
      rewrite list_lookup_insert_ne; [done|].
      intros ->. congruence.
  - intros m q Hm. destruct (Hcase m q Hm) as [[-> ->]|(Hne & Hq & Hm')].
    + split; [by rewrite list_lookup_insert_eq by (by eapply lookup_lt_Some)|].
      intros m' Hm'. destruct (Hcase m' p Hm') as [[-> _]|(_ & ? & _)]; done.
    + destruct (E2 m q Hm') as [Hl Hu].
      split; [by rewrite list_lookup_insert_ne|].
      intros m' Hm''. destruct (Hcase m' q Hm'') as [[-> ->]|(_ & _ & ?)];
        [done|by apply Hu].
Qed.

Lemma exclusive_release (ls : list bool) (hs : list (option ptr))
    (n : nat) (p : ptr) :
  ((∀ q, ls !! q = Some true → ∃ m, hs !! m = Some (Some q))
   ∧ (∀ m q, hs !! m = Some (Some q) →
             ls !! q = Some true
             ∧ ∀ m', hs !! m' = Some (Some q) → m' = m)) →
  hs !! n = Some (Some p) →
  (∀ q, <[p:=false]> ls !! q = Some true →
        ∃ m, <[n:=None]> hs !! m = Some (Some q))
  ∧ (∀ m q, <[n:=None]> hs !! m = Some (Some q) →
            <[p:=false]> ls !! q = Some true
            ∧ ∀ m', <[n:=None]> hs !! m' = Some (Some q) → m' = m).
Proof.
  intros [E1 E2] Hn.
  assert (n < length hs) as Hlt by (by eapply lookup_lt_Some).
  destruct (E2 n p Hn) as [Hp Hu].
  assert (∀ m q, <[n:=None]> hs !! m = Some (Some q) →
                 m ≠ n ∧ q ≠ p ∧ hs !! m = Some (Some q)) as Hcase.
  { intros m q Hm. destruct (decide (m = n)) as [->|Hne].
    - by rewrite list_lookup_insert_eq in Hm by done.
    - rewrite list_lookup_insert_ne in Hm by done.
      split; [done|]. split; [|done]. intros ->. by apply Hu in Hm. }
  split.
  - intros q Hq. destruct (decide (q = p)) as [->|Hne].
    + by rewrite list_lookup_insert_eq in Hq by (by eapply lookup_lt_Some).
    + rewrite list_lookup_insert_ne in Hq by done.
      destruct (E1 q Hq) as [m Hm]. exists m.
      rewrite list_lookup_insert_ne; [done|].
      intros ->. congruence.
  - intros m q Hm. destruct (Hcase m q Hm) as (Hne & Hq & Hm').
    destruct (E2 m q Hm') as [Hl Hu'].
    split; [by rewrite list_lookup_insert_ne|].
    intros m' Hm''. destruct (Hcase m' q Hm'') as (_ & _ & ?). by apply Hu'.
Qed.

Lemma exclusive_grow (ls : list bool) (hs : list (option ptr)) (k : nat)
    (more : list (option ptr)) :
  ((∀ q, ls !! q = Some true → ∃ m, hs !! m = Some (Some q))
   ∧ (∀ m q, hs !! m = Some (Some q) →
             ls !! q = Some true
             ∧ ∀ m', hs !! m' = Some (Some q) → m' = m)) →
  Forall (λ h, h = None) more →
  (∀ q, (ls ++ replicate k false) !! q = Some true →
        ∃ m, (hs ++ more) !! m = Some (Some q))
  ∧ (∀ m q, (hs ++ more) !! m = Some (Some q) →
            (ls ++ replicate k false) !! q = Some true
            ∧ ∀ m', (hs ++ more) !! m' = Some (Some q) → m' = m).
Proof.
  intros [E1 E2] Hmore.
  assert (∀ m q, (hs ++ more) !! m = Some (Some q) → hs !! m = Some (Some q))
    as Hold.
  { intros m q [Hm|[_ Hm]]%lookup_app_Some; [done|].
    by eapply Forall_lookup_1 in Hmore; [|done]. }
  split.
  - intros q [Hq|[_ Hq]]%lookup_app_Some.
    + destruct (E1 q Hq) as [m Hm]. exists m. by apply lookup_app_l_Some.
    + by apply lookup_replicate in Hq as [? _].
  - intros m q Hm%Hold. destruct (E2 m q Hm) as [Hl Hu].
    split; [by apply lookup_app_l_Some|].
    intros m' Hm'%Hold. by apply Hu.
Qed.

Lemma exclusive_step (s s' : state) (l : label) :
  exclusive s → step s l = Some s' → exclusive s'.
Proof.
  intros E Hs. apply step_locks in Hs. unfold exclusive in *.
  destruct l;
    try (by destruct Hs as [-> ->]);
    try (destruct Hs as (p & Hp & Hn & -> & ->);
         by apply exclusive_acquire);
    try (destruct Hs as (p & Hn & -> & ->); by apply exclusive_release).
  - destruct Hs as [-> ->].
    rewrite <- (app_nil_r (locks s)).
    apply (exclusive_grow _ _ 0); [done|by repeat constructor].
  - destruct Hs as [-> ->].
    rewrite <- (app_nil_r (holders s)). by apply exclusive_grow.
  - destruct Hs as (Hn & -> & ->).
    rewrite <- (app_nil_r (<[t:=false]> (locks s))).
    apply (exclusive_grow _ _ 0); [|by repeat constructor].
    by apply exclusive_release.
Qed.

Lemma exclusive_run (args : list gostring) (ts : list task)
    (tr : list label) (s : state) :
  Forall idle ts → run (init args ts) tr = Some s → exclusive s.
Proof.
  intros Hts. apply (run_invariant (λ _, exclusive)).
  - by apply exclusive_init.
  - intros tr' s1 l s2. apply exclusive_step.
Qed.

(** *** The restart gate *)

Lemma last_poll_snoc (tr : list label) (l : label) :
  last_poll (tr ++ [l]) = if l is LPoll v then Some v else last_poll tr.
Proof. unfold last_poll. by rewrite foldl_snoc. Qed.

Lemma last_poll_split (tr : list label) (v : N) :
  last_poll tr = Some v →
  ∃ tr1 tr2, tr = tr1 ++ LPoll v :: tr2
             ∧ Forall (λ l, if l is LPoll _ then False else True) tr2.
Proof.
  induction tr as [|l tr IH] using rev_ind; [done|].
  rewrite last_poll_snoc.
  assert ((∃ v', l = LPoll v') ∨ (if l is LPoll _ then False else True))
    as [[v' ->]|Hl] by (destruct l; eauto).
  - intros [= ->]. by exists tr, [].
  - assert ((if l is LPoll v' then Some v' else last_poll tr) = last_poll tr)
      as -> by (by destruct l).
    intros (tr1 & tr2 & -> & F)%IH. exists tr1, (tr2 ++ [l]).
    split; [by rewrite <- app_assoc|].
    apply Forall_app. split; [done|by repeat constructor].
Qed.

Lemma gated_init (args : list gostring) (ts : list task) :
  gated [] (init args ts).
Proof.
  unfold gated. simpl. split; [done|]. split; [by intros []|].
  intros [?|[?|?]]; by destruct args.
Qed.

Lemma gated_step (tr : list label) (s s' : state) (l : label) :
  gated tr s → step s l = Some s' → gated (tr ++ [l]) s'.
Proof.
  intros (J1 & J2 & J3) Hs. unfold gated. rewrite last_poll_snoc.
  assert (step_supervisor s l = Some s'
          ∨ (main s' = main s ∧ restarter s' = restarter s
             ∧ errChan s' = errChan s
             ∧ (if l is LPoll _ then False else True)))
    as [Hsu|(-> & -> & -> & Hl)].
  { destruct (step_kinds _ _ _ Hs)
      as [(ev & -> & ->)|[(file & ts & logged & -> & El & ->)|
          [(n & Hpl & Hd)|[(n & Hpl & Hp)|[Hpl Hsu]]]]]; [by right..| | |by left].
    - right. apply step_dispatch_cases in Hd
        as (ev & rest & b & Hn &
            [(-> & -> & [m ->] & ->)|(p & rest' & t & -> & Hh &
             [(-> & [m ->] & Hsel & ->)|[(-> & [m ->] & Hsel & Hm & ->)|
              [(-> & [m ->] & Hhit & ->)|(-> & [m ->] & Hhit & ->)]]])]); done.
    - right. apply step_pipeline_cases in Hp
        as (p & file & pc & pc' & t & Hn & Hh & Htr & -> & _).
      destruct Htr as [(-> & [m ->] & ->)|[(c & rest & m & ok & -> & -> & ->)|
        [(-> & [m ->] & ->)|[(-> & [m ->] & ->)|[(-> & [m ->] & ->)|
        (-> & [m ->] & ->)]]]]]; done. }
  2: { by destruct l. }
  apply step_supervisor_inv in Hsu. destruct l; try done.
  - (* LPoll *)
    destruct Hsu as (Em & -> & ->). simpl.
    assert (restarter s = RIdle) as Er.
    { destruct (restarter s) eqn:Er; [done|..];
        destruct J1 as [|]; congruence. }
    rewrite Er. split; [done|]. split.
    + intros Hc. destruct (J2 Hc) as [_ [|]]; congruence.
    + destruct (N.ltb_spec 0 (tasks s)); [by intros [|[|]]|].
      intros _. f_equal. lia.
  - (* LSleep *)
    destruct Hsu as (Em & ->). simpl.
    split; [intros Hr; destruct (J1 Hr); congruence|].
    split; [intros Hc; destruct (J2 Hc) as [_ [|]]; congruence|].
    intros [|[Hr|Hr]]; [done|..]; destruct J1 as [|]; congruence.
  - (* LGo *)
    destruct Hsu as (Em & Er & ->). simpl. split; [by left|].
    split; [intros Hc; destruct (J2 Hc) as [_ [|]]; congruence|].
    intros _. apply J3. by left.
  - (* LNoArgs *)
    destruct Hsu as (Er & _ & ->). simpl. split; [done|].
    split; [|by intros [|[|]]; [apply J3; left|..]].
    intros _. split; [done|]. apply J1. congruence.
  - (* LTerminate *)
    destruct Hsu as (Er & _ & ->). simpl.
    split; [intros _; apply J1; congruence|].
    split; [intros Hc; destruct (J2 Hc); congruence|].
    intros _. apply J3. by right; left.
  - (* LSpawn *)
    destruct Hsu as (Er & ->). simpl.
    split; [intros _; apply J1; congruence|].
    split; [intros Hc; destruct (J2 Hc); congruence|].
    intros [Em|[|]]; [|done..]. destruct J1 as [|]; congruence.
  - (* LExit *)
    destruct Hsu as (Er & ->). simpl. split; [done|].
    split; [intros _; split; [done|]; apply J1; congruence|].
    intros [Em|[|]]; [|done..]. destruct J1 as [|]; congruence.
  - (* LRecv *)
    destruct Hsu as (Em & err & Ec & ->). simpl.
    destruct (J2 (mk_is_Some _ _ Ec)) as [Er _]. rewrite Er.
    split; [done|]. split; [by intros []|].
    intros [|[|]]; [by destruct err|done..].
  - (* LBackoff *)
    destruct Hsu as (Em & ->). simpl.
    split; [intros Hr; destruct (J1 Hr); congruence|].
    split; [intros Hc; destruct (J2 Hc) as [_ [|]]; congruence|].
    intros [|[Hr|Hr]]; [done|..]; destruct J1 as [|]; congruence.
  - (* LSignal *)
    destruct Hsu as (Em & ->). simpl. split; [by right|].
    split; [intros Hc; destruct (J2 Hc) as [? _]; by split; [|right]|].
    intros [|Hr]; [done|]. apply J3. by right.
Qed.

Lemma gated_run (args : list gostring) (ts : list task)
    (tr : list label) (s : state) :
  run (init args ts) tr = Some s → gated tr s.
Proof.
  apply (run_invariant gated).
  - apply gated_init.
  - intros tr' s1 l s2. apply gated_step.
Qed.

(** C1 (as amended): the supervisor terminates and spawns only on the
    strength of its latest poll, and that poll read zero: a run that
    reaches [terminate] or [spawn] splits into a part that ends in a state
    where the counter is zero, the poll of that state, and a part without
    any poll.  What the pipelines do to the counter in that last part has
    no bearing on the restart. *)
Theorem restart_follows_zero_poll (args : list gostring) (ts : list task)
    (tr : list label) (s s' : state) (l : label) :
  run (init args ts) tr = Some s →
  step s l = Some s' →
  l = LTerminate ∨ l = LSpawn →
  ∃ tr1 tr2 s1,
    tr = tr1 ++ LPoll 0 :: tr2
    ∧ run (init args ts) tr1 = Some s1
    ∧ tasks s1 = 0%N
    ∧ Forall (λ l, if l is LPoll _ then False else True) tr2.
Proof.
  intros Hr [_ Hs]%step_alive Hl.
  pose proof (gated_run _ _ _ _ Hr) as (_ & _ & J3).
  assert (last_poll tr = Some 0%N) as Hp.
  { apply J3. right. destruct Hl as [-> | ->]; cbn [step_running] in Hs;
      apply step_supervisor_inv in Hs as [? _]; auto. }
  apply last_poll_split in Hp as (tr1 & tr2 & -> & F).
  rewrite run_app in Hr.
  destruct (run (init args ts) tr1) as [s1|] eqn:E1; [|done].
  exists tr1, tr2, s1. split; [done|]. split; [done|]. split; [|done].
  simpl in Hr. destruct (step s1 (LPoll 0)) as [s2|] eqn:E2; [|done].
  apply step_alive in E2 as [_ E2]. cbn [step_running] in E2.
  by apply step_supervisor_inv in E2 as (_ & ? & _).
Qed.

(** *** The history of a pipeline *)

Lemma history_snoc (n : nat) (tr : list label) (l : label) :
  history n (tr ++ [l])
  = history n tr ++ (if pipeline_label n l then [l] else []).
Proof.
  unfold history. rewrite List.filter_app. simpl.
  by destruct (pipeline_label n l).
Qed.

Lemma history_snoc_other (n : nat) (tr : list label) (l : label) :
  pipeline_label n l = false → history n (tr ++ [l]) = history n tr.
Proof. intros E. by rewrite history_snoc, E, app_nil_r. Qed.

Lemma pipeline_trans_label (p : ptr) (cs : list gostring)
    (pc pc' : pipeline_pc) (l : label) (k n : nat) :
  pipeline_trans p cs pc l pc' → place l = Some k →
  pipeline_label n l = bool_decide (k = n).
Proof.
  intros [(_ & [m ->] & _)|[(c & rest & m & ok & _ & -> & _)|
    [(_ & [m ->] & _)|[(_ & [m ->] & _)|[(_ & [m ->] & _)|
    (_ & [m ->] & _)]]]]] [= ->]; done.
Qed.

Lemma histories_init (args : list gostring) (ts : list task) :
  histories [] (init args ts).
Proof. by intros n. Qed.

(** A goroutine that stays as it is keeps its history. *)
Lemma histories_frame (tr : list label) (s s' : state) (l : label) (n : nat) :
  pipeline_label n l = false →
  pool s' !! n = pool s !! n →
  (∃ more, cmds s' = cmds s ++ more) →
  match pool s !! n with
  | Some (Pipeline p file pc) =>
      ∃ cs, cmds s !! p = Some cs ∧ shape n p cs pc (history n tr)
  | _ => history n tr = []
  end →
  match pool s' !! n with
  | Some (Pipeline p file pc) =>
      ∃ cs, cmds s' !! p = Some cs ∧ shape n p cs pc (history n (tr ++ [l]))
  | _ => history n (tr ++ [l]) = []
  end.
Proof.
  intros Hl -> [more ->] K. rewrite history_snoc_other by done.
  destruct (pool s !! n) as [[| |p file pc]|]; try done.
  destruct K as (cs & Hc & Hs). exists cs. split; [|done].
  by apply lookup_app_l_Some.
Qed.

Lemma shape_step (n : nat) (p : ptr) (cs : list gostring)
    (pc pc' : pipeline_pc) (h : list label) (l : label) :
  shape n p cs pc h →
  pipeline_label n l = true →
  pipeline_trans p cs pc l pc' →
  shape n p cs pc' (h ++ [l]).
Proof.
  intros Hs Hl [(-> & [m ->] & ->)|[(c & rest & m & ok & -> & -> & ->)|
    [(-> & [m ->] & ->)|[(-> & [m ->] & ->)|[(-> & [m ->] & ->)|
    (-> & [m ->] & ->)]]]]]; simpl in *; apply bool_decide_eq_true_1 in Hl as ->.
  - subst h. by exists [].
  - destruct Hs as (done & -> & ->). destruct ok; simpl.
    + exists (done ++ [c]). split; [by rewrite <- app_assoc|].
      unfold ran. by rewrite fmap_app.
    + exists done, (LCommand n c (is_internal c) false). split; [|done].
      right. by exists c, rest.
  - destruct Hs as (done & -> & ->). exists done, (LLoopEnd n).
    split; [|done]. left. by rewrite app_nil_r.
  - destruct Hs as (done & stop & Hst & ->). exists done, stop.
    split; [done|]. simpl. by rewrite <- app_assoc.
  - destruct Hs as (done & stop & Hst & ->). exists done, stop.
    split; [done|]. simpl. by rewrite <- app_assoc.
  - destruct Hs as (done & stop & Hst & ->). exists done, stop.
    split; [done|]. simpl. by rewrite <- app_assoc.
Qed.

(** A step of a call of [g.task] leaves a call of [g.task] in its place
    and the commands of the rules as they are; an admission adds a
    goroutine at the start of its pipeline. *)
Lemma step_dispatch_frame (s s' : state) (n : nat) (l : label) :
  step_dispatch s n l = Some s' →
  ∃ event rest b th more,
    pool s !! n = Some (Dispatch event rest b)
    ∧ (if th is Pipeline _ _ _ then False else True)
    ∧ pool s' = <[n:=th]> (pool s) ++ more
    ∧ cmds s' = cmds s
    ∧ (∀ m, pipeline_label m l = false)
    ∧ (more = []
       ∨ ∃ p file cs, more = [Pipeline p file PAdd] ∧ cmds s !! p = Some cs).
Proof.
  intros Hd. apply step_dispatch_cases in Hd
    as (ev & rest & b & Hn &
        [(-> & -> & [m ->] & ->)|(p & rest' & t & -> & Hh &
         [(-> & [m ->] & Hsel & ->)|[(-> & [m ->] & Hsel & Hm & ->)|
          [(-> & [m ->] & Hhit & ->)|(-> & [m ->] & Hhit & ->)]]])]).
  - exists ev, [], false, Returned, [].
    rewrite app_nil_r. by repeat split; [..|left].
  - exists ev, (p :: rest'), false, (Dispatch ev rest' false), [].
    rewrite app_nil_r. by repeat split; [..|left].
  - exists ev, (p :: rest'), false, (Dispatch ev (p :: rest') true), [].
    rewrite app_nil_r. repeat split; [done|same_lists|by left].
  - exists ev, (p :: rest'), true, (Dispatch ev rest' false), [].
    rewrite app_nil_r. repeat split; [done|same_lists|by left].
  - exists ev, (p :: rest'), true, (Dispatch ev rest' false),
      [Pipeline p (filepath_ToSlash (fsnotify.Name ev)) PAdd].
    repeat split; [done|same_lists|]. right. eexists _, _, (Commands t).
    split; [done|]. unfold cmds. by rewrite list_lookup_fmap, Hh.
Qed.

Lemma histories_step (tr : list label) (s s' : state) (l : label) :
  histories tr s → step s l = Some s' → histories (tr ++ [l]) s'.
Proof.
  intros K Hs n. specialize (K n) as Kn.
  destruct (step_kinds _ _ _ Hs)
    as [(ev & -> & ->)|[(file & ts & logged & -> & El & ->)|
        [(k & Hpl & Hd)|[(k & Hpl & Hp)|[Hpl Hsu]]]]].
  - (* LEvent *)
    destruct (decide (n < length (pool s))) as [Hlt|Hge].
    + apply (histories_frame tr s);
        [done| |by exists []; rewrite app_nil_r|done].
      simpl. by rewrite lookup_app_l.
    + rewrite history_snoc_other by done.
      rewrite lookup_ge_None_2 in Kn by lia. simpl pool.
      rewrite lookup_app_r by lia.
      by destruct (n - length (pool s)) as [|[|]].
  - (* LReload *)
    apply (histories_frame tr s); [done|done| |done].
    unfold cmds. simpl. rewrite fmap_app. eauto.
  - (* a call of g.task *)
    apply step_dispatch_frame in Hd
      as (ev & rest & b & th & more & Hk & Hth & Hpool & Hc & Hl & Hmore).
    assert (length (<[k:=th]> (pool s)) = length (pool s)) as Hlen
      by apply length_insert.
    destruct (decide (n < length (pool s))) as [Hlt|Hge].
    + destruct (decide (n = k)) as [->|Hne].
      * rewrite Hk in Kn. rewrite history_snoc_other by done.
        rewrite Hpool, lookup_app_l, list_lookup_insert_eq by lia.
        by destruct th.
      * apply (histories_frame tr s);
          [done| |by exists []; rewrite Hc, app_nil_r|done].
        by rewrite Hpool, lookup_app_l, list_lookup_insert_ne by lia.
    + rewrite history_snoc_other by done.
      rewrite lookup_ge_None_2 in Kn by lia.
      rewrite Hpool, lookup_app_r, Hlen by lia.
      destruct Hmore as [->|(p & file & cs & -> & Hcs)].
      * by rewrite lookup_nil.
      * destruct (n - length (pool s)) as [|[|]] eqn:En; [|done..].
        simpl. exists cs. by rewrite Hc.
  - (* a pipeline *)
    apply step_pipeline_cases in Hp
      as (p & file & pc & pc' & t & Hk & Hh & Htr & -> & _).
    assert (cmds (set_thread
                    match pc with
                    | PAdd => with_tasks s (AddUint64 (tasks s) 1)
                    | PLock => set_task s p (set_mutex t true)
                    | PClear =>
                        set_task s p (set_mutex (set_hit t false) false)
                    | PSub => with_tasks s (AddUint64 (tasks s) minus_one)
                    | _ => s
                    end k (Pipeline p file pc')) = cmds s) as Hc.
    { destruct pc; same_lists. }
    pose proof (pipeline_trans_label _ _ _ _ _ _ n Htr Hpl) as Hl.
    assert (∀ s0 : state, pool (set_thread s0 k (Pipeline p file pc'))
                          = <[k:=Pipeline p file pc']> (pool s0)) as Hset by done.
    assert (pool match pc with
                 | PAdd => with_tasks s (AddUint64 (tasks s) 1)
                 | PLock => set_task s p (set_mutex t true)
                 | PClear => set_task s p (set_mutex (set_hit t false) false)
                 | PSub => with_tasks s (AddUint64 (tasks s) minus_one)
                 | _ => s
                 end = pool s) as Hpool by (by destruct pc).
    destruct (decide (k = n)) as [->|Hne].
    + rewrite Hk in Kn. destruct Kn as (cs & Hcs & Hsh).
      rewrite Hset, Hpool, list_lookup_insert_eq by (by eapply lookup_lt_Some).
      exists cs. split; [by rewrite Hc|].
      rewrite history_snoc, Hl, bool_decide_eq_true_2 by done.
      apply shape_step with pc; [done|by rewrite Hl, bool_decide_eq_true_2|].
      unfold cmds in Hcs. rewrite list_lookup_fmap, Hh in Hcs.
      by simplify_eq/=.
    + apply (histories_frame tr s);
        [by rewrite Hl, bool_decide_eq_false_2| |by exists []; rewrite Hc, app_nil_r|done].
      by rewrite Hset, Hpool, list_lookup_insert_ne.
  - (* the supervisor *)
    pose proof (step_supervisor_inv _ _ _ Hsu) as Hinv.
    apply step_supervisor_frame in Hsu as (Hp & Hh & _).
    apply (histories_frame tr s); [by destruct l|by rewrite Hp| |done].
    exists []. unfold cmds. by rewrite Hh, app_nil_r.
Qed.

Lemma histories_run (args : list gostring) (ts : list task)
    (tr : list label) (s : state) :
  run (init args ts) tr = Some s → histories tr s.
Proof.
  apply (run_invariant histories).
  - apply histories_init.
  - intros tr' s1 l s2. apply histories_step.
Qed.

Lemma ran_lookup (n k : nat) (cs : list gostring) (c : gostring) (i ok : bool) :
  ran n cs !! k = Some (LCommand n c i ok) →
  cs !! k = Some c ∧ i = is_internal c ∧ ok = true.
Proof.
  unfold ran. rewrite list_lookup_fmap.
  destruct (cs !! k) as [c'|]; [|done]. simpl. by intros [= <- <- <-].
Qed.

(** In a history of the shape above, an entry for a command stands for
    the command at the same place of the list, and after an entry for a
    command that failed come the closing steps alone. *)
Lemma shape_commands (n : nat) (p : ptr) (cs : list gostring)
    (pc : pipeline_pc) (h : list label) (k : nat) (c : gostring)
    (i ok : bool) :
  shape n p cs pc h →
  h !! S k = Some (LCommand n c i ok) →
  cs !! k = Some c ∧ i = is_internal c
  ∧ (ok = false → h = take (S (S k)) h ++ closing n p pc).
Proof.
  intros Hs Hk.
  assert (∀ done stop,
    ((stop = LLoopEnd n ∧ cs = done)
     ∨ ∃ c rest, stop = LCommand n c (is_internal c) false
                 ∧ cs = done ++ c :: rest) →
    h = LAdd n :: ran n done ++ stop :: closing n p pc →
    (∀ l, l ∈ closing n p pc → ∀ c i ok, l ≠ LCommand n c i ok) →
    cs !! k = Some c ∧ i = is_internal c
    ∧ (ok = false → h = take (S (S k)) h ++ closing n p pc)) as Closed.
  { intros done stop Hst -> Hcl. simpl in Hk.
    assert (length (ran n done) = length done) as Hlen
      by (unfold ran; by rewrite length_fmap).
    apply lookup_app_Some in Hk as [Hk|[Hge Hk]].
    - apply ran_lookup in Hk as (Hc & -> & ->). split; [|done].
      destruct Hst as [[_ ->]|(c' & rest & _ & ->)]; [done|].
      by apply lookup_app_l_Some.
    - rewrite Hlen in Hge, Hk.
      destruct (k - length done) as [|j] eqn:Ej.
      + assert (k = length done) as -> by lia. simpl in Hk. simplify_eq.
        destruct Hst as [[? _]|(c' & rest & [= -> -> ->] & ->)]; [done|].
        split; [by rewrite lookup_app_r, Nat.sub_diag|]. split; [done|].
        intros _. simpl. f_equal.
        rewrite take_app_ge by lia. rewrite Hlen.
        replace (S (length done) - length done) with 1 by lia.
        simpl. by rewrite <- app_assoc.
      + simpl in Hk. apply list_elem_of_lookup_2 in Hk.
        by destruct (Hcl _ Hk c i ok). }
  destruct pc; simpl in Hs.
  - by subst h.
  - destruct Hs as (done & -> & ->). simpl in Hk.
    apply ran_lookup in Hk as (Hc & -> & ->).
    split; [by apply lookup_app_l_Some|done].
  - destruct Hs as (done & stop & Hst & Hh).
    eapply Closed; [done..|]. by intros l ?%elem_of_nil.
  - destruct Hs as (done & stop & Hst & Hh).
    eapply Closed; [done..|]. intros l Hl. simpl in Hl.
    rewrite list_elem_of_singleton in Hl. by subst.
  - destruct Hs as (done & stop & Hst & Hh).
    eapply Closed; [done..|]. intros l Hl. simpl in Hl.
    rewrite !elem_of_cons, elem_of_nil in Hl. by destruct Hl as [->|[->|[]]].
  - destruct Hs as (done & stop & Hst & Hh).
    eapply Closed; [done..|]. intros l Hl. simpl in Hl.
    rewrite !elem_of_cons, elem_of_nil in Hl.
    by destruct Hl as [->|[->|[->|[]]]].
Qed.

Lemma pipeline_can_proceed (s : state) (n : nat) (p : ptr) (file : gostring)
    (pc : pipeline_pc) (t : task) :
  pool s !! n = Some (Pipeline p file pc) →
  heap s !! p = Some t →
  main s ≠ MExited →
  can_proceed s n p t pc.
Proof.
  intros Hn Hh Hm.
  assert (∀ l, step s l = step_running s l) as Hstep.
  { intros l. unfold step. by destruct (main s). }
  destruct pc as [|[|c rest]| | | |]; simpl; rewrite ?Hstep;
    unfold step_running, step_pipeline; rewrite ?Hn; simpl; rewrite ?Hh; simpl.
  - eauto.
  - eauto.
  - intros ok. rewrite Hstep. unfold step_running, step_pipeline.
    rewrite Hn. simpl. rewrite Hh. simpl.
    rewrite !bool_decide_eq_true_2 by done. simpl. eauto.
  - intros ->. eauto.
  - rewrite bool_decide_eq_true_2 by done. eexists. split; [done|].
    unfold hits. simpl. rewrite list_fmap_insert. simpl.
    apply list_lookup_insert_eq. rewrite length_fmap.
    by eapply lookup_lt_Some.
  - eauto.
  - done.
Qed.

(** A step of a pipeline leaves [Run], the goroutine of [restart] and
    the channel of errors as they are. *)
Lemma step_pipeline_contained (s s' : state) (n : nat) (l : label) :
  pipeline_label n l = true → step s l = Some s' →
  main s' = main s ∧ restarter s' = restarter s ∧ errChan s' = errChan s.
Proof.
  intros Hl [_ Hs]%step_alive.
  destruct l; try done; simpl in Hl; apply bool_decide_eq_true in Hl;
    subst; cbn [step_running] in Hs;
    apply step_pipeline_cases in Hs
      as (q & file & pc & pc' & t0 & _ & _ & _ & -> & _);
    by destruct pc.
Qed.

(** C6: in every run, the goroutine of a pipeline has run the commands of
    its rule in the order of the list, each after the success of the one
    before it; when a command fails no other command follows it: the
    goroutine takes the lock, clears the flag of the rule and only then
    decrements the counter, as it does when every command succeeded.  On
    its way it can be held up by the lock alone, and none of its steps,
    the failure of a command included, reaches [Run], the goroutine of
    [restart] or the channel of errors. *)
Theorem pipeline_short_circuit (args : list gostring) (ts : list task)
    (tr : list label) (s : state) (n : nat) (p : ptr) (file : gostring)
    (pc : pipeline_pc) :
  run (init args ts) tr = Some s →
  pool s !! n = Some (Pipeline p file pc) →
  ∃ t,
    heap s !! p = Some t
    ∧ shape n p (Commands t) pc (history n tr)
    ∧ (∀ k c i ok,
         history n tr !! S k = Some (LCommand n c i ok) →
         Commands t !! k = Some c ∧ i = is_internal c
         ∧ (ok = false →
            history n tr = take (S (S k)) (history n tr) ++ closing n p pc))
    ∧ (main s ≠ MExited → can_proceed s n p t pc)
    ∧ (∀ l s',
         pipeline_label n l = true → step s l = Some s' →
         main s' = main s ∧ restarter s' = restarter s
         ∧ errChan s' = errChan s).
Proof.
  intros Hr Hn. pose proof (histories_run _ _ _ _ Hr n) as K.
  rewrite Hn in K. destruct K as (cs & Hcs & Hsh).
  unfold cmds in Hcs. rewrite list_lookup_fmap in Hcs.
  destruct (heap s !! p) as [t|] eqn:Hh; [|done]. simpl in Hcs.
  injection Hcs as <-. exists t. split; [done|]. split; [done|].
  split; [|split].
  - intros k c i ok. by apply shape_commands.
  - intros Hm. by eapply pipeline_can_proceed.
  - intros l s' Hl Hs. by eapply step_pipeline_contained.
Qed.

(** *** Single flight, as the specification words it *)

Lemma runner_running (th : thread) (p : ptr) :
  runner th = Some p ↔ ∃ file pc, th = Pipeline p file pc ∧ running pc = true.
Proof.
  split.
  - destruct th as [| |q file pc]; try done. simpl.
    destruct (running pc) eqn:E; [|done]. intros [= ->]. eauto.
  - intros (file & pc & -> & E). simpl. by rewrite E.
Qed.

Lemma runners_lookup (s : state) (n : nat) (p : ptr) :
  runners s !! n = Some (Some p)
  ↔ ∃ file pc, pool s !! n = Some (Pipeline p file pc) ∧ running pc = true.
Proof.
  unfold runners. rewrite list_lookup_fmap. split.
  - destruct (pool s !! n) as [th|]; [|done]. simpl.
    intros [= (file & pc & -> & E)%runner_running]. eauto.
  - intros (file & pc & -> & E). simpl. by rewrite E.
Qed.

(** The flag of a rule changes by an admission or by the clearing of
    line 188 only. *)
Lemma step_hit_change (s s' : state) (l : label) (p : ptr) (b b' : bool) :
  step s l = Some s' →
  hits s !! p = Some b → hits s' !! p = Some b' → b ≠ b' →
  (b' = true ∧ ∃ n, l = LAdmit n p (length (pool s)))
  ∨ (b' = false ∧ ∃ n, l = LClear n p).
Proof.
  intros Hs Hb Hb' Hne. pose proof (step_effect _ _ _ Hs) as He.
  destruct l;
    try (destruct He as [E _]; rewrite E in Hb'; congruence).
  - destruct He as [E _]. rewrite E in Hb'.
    rewrite lookup_app_l in Hb' by (by eapply lookup_lt_Some). congruence.
  - destruct He as (_ & -> & E & _). rewrite E in Hb'.
    destruct (decide (t = p)) as [->|Hp].
    + rewrite list_lookup_insert_eq in Hb' by (by eapply lookup_lt_Some).
      left. split; [congruence|]. exists n. unfold runners.
      by rewrite length_fmap.
    + rewrite list_lookup_insert_ne in Hb' by done. congruence.
  - destruct He as (_ & E & _). rewrite E in Hb'.
    destruct (decide (t = p)) as [->|Hp].
    + rewrite list_lookup_insert_eq in Hb' by (by eapply lookup_lt_Some).
      right. split; [congruence|]. by exists n.
    + rewrite list_lookup_insert_ne in Hb' by done. congruence.
Qed.

(** C2: in every reachable state at most one goroutine runs a pipeline of
    a rule, and the flag of the rule is set exactly while one does.  A
    call of [g.task] that holds the lock of a rule whose flag is set can
    only unlock and go on to the next rule: it launches nothing, keeps
    nothing for later and reports nothing.  The flag goes from false to
    true only in an admission, made by a call of [g.task] that holds the
    lock and reads the flag as false, which launches the goroutine of the
    pipeline; it goes from true to false only at line 188, by the
    goroutine that this admission launched, which holds the lock and has
    left the loop over the commands. *)
Theorem single_flight_invariant (args : list gostring) (ts : list task)
    (tr : list label) (s : state) :
  Forall idle ts →
  run (init args ts) tr = Some s →
  (∀ n n' p file file' pc pc',
     pool s !! n = Some (Pipeline p file pc) →
     pool s !! n' = Some (Pipeline p file' pc') →
     running pc = true → running pc' = true → n = n')
  ∧ (∀ p t, heap s !! p = Some t →
       (hit t = true
        ↔ ∃ n file pc, pool s !! n = Some (Pipeline p file pc)
                       ∧ running pc = true))
  ∧ (∀ n event p rest t,
       pool s !! n = Some (Dispatch event (p :: rest) true) →
       heap s !! p = Some t →
       mutex t = true
       ∧ (∀ n', holders s !! n' = Some (Some p) → n' = n)
       ∧ (hit t = true → main s ≠ MExited →
          step s (LAdmit n p (length (pool s))) = None
          ∧ step s (LDrop n)
            = Some (set_thread (set_task s p (set_mutex t false)) n
                      (Dispatch event rest false))))
  ∧ (∀ l s' p t t',
       step s l = Some s' →
       heap s !! p = Some t → heap s' !! p = Some t' →
       (hit t = false → hit t' = true →
        ∃ n event rest,
          l = LAdmit n p (length (pool s))
          ∧ pool s !! n = Some (Dispatch event (p :: rest) true)
          ∧ mutex t = true
          ∧ pool s' !! length (pool s)
            = Some (Pipeline p (filepath_ToSlash (fsnotify.Name event)) PAdd))
       ∧ (hit t = true → hit t' = false →
          ∃ n file,
            l = LClear n p
            ∧ pool s !! n = Some (Pipeline p file PClear)
            ∧ mutex t = true
            ∧ owner p tr = Some n)).
Proof.
  intros Hts Hr.
  pose proof (single_flight_run _ _ _ _ Hts Hr) as [I1 I2].
  pose proof (exclusive_run _ _ _ _ Hts Hr) as [E1 E2].
  assert (∀ n p, holders s !! n = Some (Some p) →
                 ∀ t, heap s !! p = Some t → mutex t = true) as Hheld.
  { intros n p Hn t Ht. destruct (E2 n p Hn) as [Hl _].
    unfold locks in Hl. rewrite list_lookup_fmap, Ht in Hl. by simplify_eq/=. }
  split; [|split; [|split]].
  - intros n n' p file file' pc pc' Hn Hn' Hpc Hpc'.
    assert (owner p tr = Some n) as Ho by (apply I2, runners_lookup; eauto).
    assert (owner p tr = Some n') as Ho' by (apply I2, runners_lookup; eauto).
    congruence.
  - intros p t Ht. specialize (I1 p). unfold hits in I1.
    rewrite list_lookup_fmap, Ht in I1. simpl in I1. split.
    + intros Hh. rewrite Hh in I1. destruct I1 as (g & _ & Hg).
      apply runners_lookup in Hg as (file & pc & ? & ?). eauto.
    + intros (n & file & pc & Hn & Hpc).
      assert (owner p tr = Some n) as Ho by (apply I2, runners_lookup; eauto).
      destruct (hit t); [done|congruence].
  - intros n event p rest t Hn Ht.
    assert (holders s !! n = Some (Some p)) as Hhold.
    { unfold holders. by rewrite list_lookup_fmap, Hn. }
    split; [by eapply Hheld|]. split.
    { intros n' Hn'. destruct (E2 n p Hhold) as [_ Hu]. by apply Hu. }
    intros Hh Hm.
    assert (∀ l, step s l = step_running s l) as Hstep.
    { intros l. unfold step. by destruct (main s). }
    rewrite !Hstep. unfold step_running, step_dispatch.
    rewrite Hn. simpl. rewrite Ht. simpl. by rewrite Hh.
  - intros l s' p t t' Hs Ht Ht'.
    assert (hits s !! p = Some (hit t)) as Hb
      by (unfold hits; by rewrite list_lookup_fmap, Ht).
    assert (hits s' !! p = Some (hit t')) as Hb'
      by (unfold hits; by rewrite list_lookup_fmap, Ht').
    split.
    + intros Hf Htr.
      destruct (step_hit_change _ _ _ _ _ _ Hs Hb Hb') as [[_ [n ->]]|[? _]];
        [congruence| |congruence].
      apply step_alive in Hs as [_ Hs]. cbn [step_running] in Hs.
      apply step_dispatch_cases in Hs
        as (ev & rest & b & Hn &
            [(-> & -> & [m Hl] & ->)|(q & rest' & t0 & -> & Hh &
             [(-> & [m Hl] & Hsel & ->)|[(-> & [m Hl] & Hsel & Hm & ->)|
              [(-> & [m Hl] & Hhit & ->)|(-> & [m Hl] & Hhit & ->)]]])]);
        try done.
      injection Hl as <- <-. exists n, ev, rest'.
      split; [done|]. split; [done|]. split.
      * eapply Hheld; [|done]. unfold holders.
        by rewrite list_lookup_fmap, Hn.
      * simpl. by rewrite lookup_app_r, length_insert, Nat.sub_diag
          by (by rewrite length_insert).
    + intros Htr Hf.
      destruct (step_hit_change _ _ _ _ _ _ Hs Hb Hb') as [[? _]|[_ [n ->]]];
        [congruence|congruence|].
      apply step_alive in Hs as [_ Hs]. cbn [step_running] in Hs.
      apply step_pipeline_cases in Hs
        as (q & file & pc & pc' & t0 & Hn & Hh & Htrans & -> & _).
      destruct Htrans as [(-> & [m Hl] & ->)|[(c & rest & m & ok & -> & Hl & ->)|
        [(-> & [m Hl] & ->)|[(-> & [m Hl] & ->)|[(-> & [m Hl] & ->)|
        (-> & [m Hl] & ->)]]]]]; try done.
      injection Hl as <- <-. exists n, file.
      split; [done|]. split; [done|]. split.
      * eapply Hheld; [|done]. unfold holders.
        by rewrite list_lookup_fmap, Hn.
      * apply I2, runners_lookup. eauto.
Qed.

(** *** The expression written for [src/**/*.go] *)




End properties.


(** *** Reading the expression back *)

Lemma two_hex_byte (c : rune) : syntax.in_range 16 255 c = true → two_hex c = true.
Proof.
  intros [Hlo Hhi]%andb_prop.
  apply N.leb_le in Hlo, Hhi.
  assert (forallb two_hex (N.of_nat <$> seq 16 240) = true) as All
    by (vm_compute; reflexivity).
  rewrite forallb_forall in All. apply All, list_elem_of_In.
  apply list_elem_of_fmap. exists (N.to_nat c).
  split; [by rewrite N2Nat.id|]. apply elem_of_seq. lia.
Qed.

Lemma parseClass_byte (c : rune) (rest : gostring) :
  syntax.in_range 16 255 c = true →
  syntax.parseClass (str "\x" ++ fmt_x c ++ str "]" ++ rest)
  = inl (syntax.OpCharClass false [syntax.Range c c], rest).
Proof.
  intros Hc%two_hex_byte. unfold two_hex in Hc.
  destruct (fmt_x c) as [|h1 [|h2 [|? ?]]]; try done.
  apply andb_prop in Hc as [Hb%negb_true_iff Hc].
  destruct (syntax.unhex h1) as [a|] eqn:Ha; [|done].
  destruct (syntax.unhex h2) as [b|] eqn:Hb2; [|done].
  apply N.eqb_eq in Hc.
  assert (syntax.parseEscape (chr "x" :: h1 :: h2 :: chr "]" :: rest)
          = inl (c, chr "]" :: rest)) as E.
  { unfold syntax.parseEscape.
    change (syntax.in_range 48 55 (chr "x")) with false.
    change (chr "x" =?r chr "x") with true. cbn iota.
    by rewrite Hb, Ha, Hb2, Hc. }
  assert (syntax.parseClassRange
            (chr "\" :: chr "x" :: h1 :: h2 :: chr "]" :: rest)
          = inl (syntax.Range c c, chr "]" :: rest)) as R.
  { unfold syntax.parseClassRange, syntax.parseClassChar.
    change (chr "\" =?r chr "\") with true. cbn iota. rewrite E.
    by destruct rest. }
  change (str "\x" ++ [h1; h2] ++ str "]" ++ rest)
    with (chr "\" :: chr "x" :: h1 :: h2 :: chr "]" :: rest).
  unfold syntax.parseClass.
  change (chr "\" =?r chr "^") with false. cbn iota.
  cbn [length syntax.parseClassItems].
  change (chr "\" =?r chr "]") with false.
  change (chr "\" =?r chr "\") with true.
  change (chr "x" =?r chr "p") with false.
  change (chr "x" =?r chr "P") with false.
  change (syntax.perl_escape (chr "x")) with (@None syntax.class_item).
  cbn [andb orb negb]. rewrite R.
  change (chr "]" =?r chr "]") with true. by cbn [andb negb rev app].
Qed.

Lemma parse_written1 (c : rune) (fuel : nat) (stack : list (syntax.frame * bool))
    (f : syntax.frame) (lastRepeat : bool) (rest : gostring) :
  ordinary c = true →
  syntax.parse (S fuel) stack f lastRepeat (written1 c ++ rest)
  = syntax.parse fuel stack (syntax.push f (read1 c)) false rest.
Proof.
  unfold ordinary, written1, read1. intros Hc.
  destruct (c =?r chr "/") eqn:Hs.
  - apply N.eqb_eq in Hs as ->. reflexivity.
  - cbn [orb] in Hc. apply andb_prop in Hc as [[Hb _]%andb_prop _].
    change (str "[\x" ++ fmt_x c ++ str "]")
      with (chr "[" :: str "\x" ++ fmt_x c ++ str "]").
    rewrite <- app_comm_cons, <- !app_assoc.
    cbn [syntax.parse].
    change (chr "[" =?r chr "(") with false.
    change (chr "[" =?r chr ")") with false.
    change (chr "[" =?r chr "|") with false.
    change (chr "[" =?r chr "*") with false.
    change (chr "[" =?r chr "+") with false.
    change (chr "[" =?r chr "?") with false.
    change (chr "[" =?r chr "{") with false.
    change (chr "[" =?r chr ".") with false.
    change (chr "[" =?r chr "^") with false.
    change (chr "[" =?r chr "$") with false.
    change (chr "[" =?r chr "[") with true.
    cbn iota. by rewrite parseClass_byte.
Qed.


Lemma foldl_push (f : syntax.frame) (res : list syntax.Regexp) :
  syntax.alts (foldl syntax.push f res) = syntax.alts f
  ∧ syntax.cur (foldl syntax.push f res) = rev res ++ syntax.cur f.
Proof.
  revert f. induction res as [|re res IH]; intros f; [done|].
  cbn [foldl]. destruct (IH (syntax.push f re)) as [-> ->].
  split; [done|]. simpl. by rewrite <- app_assoc.
Qed.


(** *** The wildcards at work *)

Lemma m_concat_cons (re : syntax.Regexp) (res : list syntax.Regexp)
    (k : syntax.cont) (bot : bool) (s : gostring) :
  syntax.m (syntax.concat (re :: res)) k bot s
  = syntax.m re (syntax.m (syntax.concat res) k) bot s.
Proof. by destruct res. Qed.





Lemma not_newline (x : gostring) :
  Forall (λ c, c ≠ 10%N) x → forallb (λ c, negb (c =?r 10)) x = true.
Proof.
  intros Hx. apply forallb_forall. intros c Hc%list_elem_of_In.
  rewrite Forall_forall in Hx. specialize (Hx c Hc).
  apply negb_true_iff. unfold rune_eqb. by apply N.eqb_neq.
Qed.




(** A rune beyond one byte is written with more than two digits, of which
    [regexp.Compile] reads two: in the working directory [/Ā] (U+0100) the
    class written for the rune is [[\x100]], the runes U+0010 and [0], and
    the matcher accepts no path of the directory. *)
Remark wide_rune_class :
  written [256%N] = str "[\x100]"
  ∧ syntax.parseClass (str "\x100]")
    = inl (syntax.OpCharClass false [syntax.Range 16 16; syntax.Range 48 48], [])
  ∧ (∃ re,
       compilePattern (H := re2)
         (H0 := {| os_Getwd := Some [47; 256]%N;
                   strings_ToUpper := ascii_ToUpper |})
         (str "src/**/*.go") = Returns (inl re)
       ∧ syntax.MatchString re ([47; 256]%N ++ str "/src/a.go") = false).
Proof.
  split; [reflexivity|]. split; [reflexivity|].
  eexists. split; [vm_compute; reflexivity|]. by vm_compute.
Qed.

(** C3 (as stated): a rule whose mask is [{Write}] does not accept an
    event that carries [{Write, Chmod}]. *)
Lemma matchOp_write_rejects_write_chmod :
  ∃ t : @task re2,
    rule_w "*.go" "" ["go build"%string] ["write"%string] = Some t
    ∧ mops t = fsnotify.Write
    ∧ task_matchOp t (N.lor fsnotify.Write fsnotify.Chmod) = false.
Proof. eexists. split; [vm_compute; reflexivity|]. by vm_compute. Qed.

(** C9 (as stated): on the empty source [compilePattern] panics, reading
    [pattern[0]] of a string of length zero. *)
Lemma compilePattern_empty_panics : compile_w "" = Panics.
Proof. reflexivity. Qed.

(** C8 (as stated): the source ["**x/.."] holds two stars that no slash
    follows and compiles to a matcher, because the path is cleaned before
    the wildcards are read; the source ["**/"] alone is refused, because
    cleaning drops its last slash. *)
Lemma wildcard_removed_by_cleaning :
  lone_starstar (str "**x/..") = true
  ∧ (∃ re, compile_w "**x/.." = Returns (inl re)
           ∧ syntax.MatchString re (str "/w") = true)
  ∧ compile_w "**/" = Returns (inr (str "invalid wildcard: **/")).
Proof.
  split; [reflexivity|]. split; [|reflexivity].
  eexists. split; [vm_compute; reflexivity|reflexivity].
Qed.

Lemma compilePattern_wildcard_witness :
  compile_w "vendor/**" = Returns (inr (str "invalid wildcard: vendor/**"))
  ∧ (∃ buf, compile_w "**/x" = Returns (syntax.Compile buf))
  ∧ compile_w "a/**" = Returns (inr (str "invalid wildcard: a/**")).
Proof.
  split; [|split].
  - apply (@compilePattern_wildcard re2 host_w (chr "v") (str "endor/**"));
      reflexivity.
  - destruct (@compilePattern_wildcard re2 host_w (chr "*") (str "*/x") eq_refl)
      as (_ & B & _).
    destruct (B eq_refl) as (buf & _ & E). by exists buf.
  - destruct (@compilePattern_wildcard re2 host_w (chr "a") (str "/**") eq_refl)
      as (_ & _ & C).
    by apply (C (str "a/")).
Defined.


(** C5 (as stated): the match pattern of the rule accepts
    [/w/src/a_test.go], and the walk does not add [/w/src], because the
    ignore pattern of the rule accepts the path too. *)
Lemma ignored_file_does_not_add_directory :
  ∃ (t : @task re2) (re : syntax.Regexp),
    go_rules = [t]
    ∧ mre t = Some re
    ∧ syntax.MatchString re (str "/w/src/a_test.go") = true
    ∧ dup (watcher_w go_rules) !! filepath_Dir (str "/w/src/a_test.go") = None
    ∧ walkFn go_rules (watcher_w go_rules) (str "/w/src/a_test.go")
        (Some regular_file) None
      = (watcher_w go_rules, None).
Proof.
  eexists _, _. split; [vm_compute; reflexivity|].
  split; [reflexivity|]. split; [by vm_compute|]. split; by vm_compute.
Qed.

Lemma walkFn_regular_file_witness :
  added (fst (walkFn go_rules (watcher_w go_rules) (str "/w/src/a.go")
                (Some regular_file) None))
  = [str "/w/goemon.yml"; str "/w"; str "/w/src"].
Proof.
  destruct (@walkFn_regular_file re2 go_rules (watcher_w go_rules)
              (str "/w/src/a.go") regular_file None) as (_ & A & _);
    [reflexivity|by vm_compute|].
  destruct A as [-> _]; by vm_compute.
Defined.

(** C4: compiled from ["a|b"] in [/w], the matcher accepts [/w/a] and
    [/w/b], and also [/x/w/b], of which the second alternative is only a
    suffix: the expression written is [^/w/a$$|/w/b$], whose second
    branch has no anchor at its start. *)
Lemma second_alternative_unanchored :
  accepts_w "a|b" "/w/a" = true
  ∧ accepts_w "a|b" "/w/b" = true
  ∧ accepts_w "a|b" "/x/w/a" = false
  ∧ accepts_w "a|b" "/x/w/b" = true
  ∧ alternatives (H0 := host_w) (str "a|b") 0 [str "a"; str "b"] []
    = inl (str "^/[\x77]/[\x61]$$|/[\x77]/[\x62]$").
Proof. repeat split; by vm_compute. Qed.


(** *** Runs of the rules [go_rules] *)

Lemma go_rules_idle : Forall idle go_rules.
Proof.
  unfold go_rules, rule_w.
  destruct (load_task _) as [[t logged]| |] eqn:E; simpl; [|constructor..].
  apply load_task_idle in E as [E1 E2]. by repeat constructor.
Qed.

(** C1 (as stated): in the run [late_event] the poll of line 360 reads 0,
    then the event is admitted and its pipeline starts; [restart] goes on
    to terminate and to spawn the process while the counter is 1 and the
    goroutine of the pipeline has a command left to run. *)
Lemma restart_with_pipeline_running :
  ∃ s s',
    run_w late_event = Some s
    ∧ @step re2 host_w s LSpawn = Some s'
    ∧ tasks s = 1%N
    ∧ pool s !! 1
      = Some (Pipeline 0 (str "/w/src/main.go") (PCommand [str "echo done"]))
    ∧ restarter s' = RRunning.
Proof.
  assert ((s ← run_w late_event; s' ← @step re2 host_w s LSpawn;
           Some (tasks s, pool s !! 1, restarter s'))
          = Some (1%N,
                  Some (Pipeline 0 (str "/w/src/main.go")
                          (PCommand [str "echo done"])),
                  RRunning)) as E.
  { vm_compute. reflexivity. }
  destruct (run_w late_event) as [s|]; [|done]. simpl in E.
  destruct (step s LSpawn) as [s'|] eqn:Hs; [|done]. simpl in E.
  injection E as E1 E2 E3. by exists s, s'.
Qed.

(** The restart of [late_event] follows its poll, which read 0. *)
Lemma restart_follows_zero_poll_witness :
  ∃ tr1 tr2 s1,
    late_event = tr1 ++ LPoll 0 :: tr2
    ∧ @run re2 host_w (init server_args go_rules) tr1 = Some s1
    ∧ tasks s1 = 0%N
    ∧ Forall (λ l, if l is LPoll _ then False else True) tr2.
Proof.
  assert (((λ _, ()) <$> run_w (late_event ++ [LSpawn])) = Some ()) as E.
  { vm_compute. reflexivity. }
  destruct (run_w (late_event ++ [LSpawn])) as [s'|] eqn:Hr; [|done].
  apply run_snoc_Some in Hr as (s & Hr & Hs).
  exact (restart_follows_zero_poll server_args go_rules late_event s s' LSpawn
           Hr Hs (or_intror eq_refl)).
Defined.

(** C2 at [second_event]: the second call of [g.task] holds the lock of
    the rule and finds its flag set; it can launch nothing, and unlocks. *)
Lemma single_flight_invariant_witness :
  ∃ s t,
    run_w second_event = Some s
    ∧ heap s !! 0 = Some t
    ∧ hit t = true
    ∧ mutex t = true
    ∧ @step re2 host_w s (LAdmit 2 0 (length (pool s))) = None
    ∧ @step re2 host_w s (LDrop 2)
      = Some (set_thread (set_task s 0 (set_mutex t false)) 2
                (Dispatch main_go_written [] false)).
Proof.
  assert ((run_w second_event ≫= λ s : @state re2,
             heap s !! 0 ≫= λ t : @task re2, Some (pool s !! 2, hit t, main s))
          = Some (Some (Dispatch main_go_written [0] true), true, MPoll))
    as E.
  { vm_compute. reflexivity. }
  destruct (run_w second_event) as [s|] eqn:Hr; [|done]. simpl in E.
  destruct (heap s !! 0) as [t|] eqn:Ht; [|done]. simpl in E.
  injection E as Hn Hh Hm. exists s, t.
  destruct (single_flight_invariant server_args go_rules second_event s
              go_rules_idle Hr) as (_ & _ & K & _).
  destruct (K 2 main_go_written 0 [] t Hn Ht) as (Hl & _ & D).
  destruct D as [D1 D2]; [done|by rewrite Hm|]. done.
Defined.

(** C6 at [failed_build]: after the failure of [go build] the goroutine
    has taken the lock, has not run [echo done], and clears the flag. *)
Lemma pipeline_short_circuit_witness :
  ∃ s t,
    run_w failed_build = Some s
    ∧ heap s !! 0 = Some t
    ∧ Commands t = [str "go build"; str "echo done"]
    ∧ history 1 failed_build
      = [LAdd 1; LCommand 1 (str "go build") false false; LLockP 1]
    ∧ ∃ s', @step re2 host_w s (LClear 1 0) = Some s' ∧ hits s' !! 0 = Some false.
Proof.
  assert ((run_w failed_build ≫= λ s : @state re2,
             heap s !! 0 ≫= λ t : @task re2, Some (pool s !! 1, Commands t, main s))
          = Some (Some (Pipeline 0 (str "/w/src/main.go") PClear),
                  [str "go build"; str "echo done"], MPoll))
    as E.
  { vm_compute. reflexivity. }
  destruct (run_w failed_build) as [s|] eqn:Hr; [|done]. simpl in E.
  destruct (heap s !! 0) as [t|] eqn:Ht; [|done]. simpl in E.
  injection E as Hn Hc Hm. exists s, t.
  destruct (pipeline_short_circuit server_args go_rules failed_build s 1 0
              (str "/w/src/main.go") PClear Hr Hn) as (t' & Ht' & _ & K & P & _).
  assert (t' = t) as -> by congruence.
  destruct (K 0 (str "go build") false false eq_refl) as (_ & _ & Hh).
  split; [done|]. split; [done|]. split; [done|]. split; [by rewrite Hh|].
  apply P. by rewrite Hm.
Defined.

(** ** More of the code *)

Section accounting_properties.
Context `{RegexpLib} `{Host}.

Lemma filter_counted_insert (l : list thread) (n : nat) (th th' : thread) :
  l !! n = Some th →
  length (List.filter counted (<[n:=th']> l)) + (if counted th then 1 else 0)
  = length (List.filter counted l) + (if counted th' then 1 else 0).
Proof.
  revert n. induction l as [|x l IH]; intros [|n] Hn; try done.
  - simpl in Hn. injection Hn as ->. simpl.
    destruct (counted th), (counted th'); simpl; lia.
  - simpl in Hn. specialize (IH n Hn). simpl.
    destruct (counted x); simpl; lia.
Qed.

Lemma in_flight_set_thread (s : state) (n : nat) (th th' : thread) :
  pool s !! n = Some th →
  in_flight (set_thread s n th') + (if counted th then 1 else 0)
  = in_flight s + (if counted th' then 1 else 0).
Proof. intros Hn. unfold in_flight. simpl. by apply filter_counted_insert. Qed.

Lemma in_flight_app (s : state) (th : thread) :
  in_flight (with_pool s (pool s ++ [th]))
  = in_flight s + (if counted th then 1 else 0).
Proof.
  unfold in_flight. simpl. rewrite List.filter_app, length_app. simpl.
  by destruct (counted th).
Qed.

Lemma AddUint64_succ (k : nat) :
  AddUint64 (N.of_nat k mod 2 ^ 64) 1 = (N.of_nat (S k) mod 2 ^ 64)%N.
Proof.
  unfold AddUint64. rewrite Nat2N.inj_succ, <- N.add_1_r.
  by rewrite N.Div0.add_mod_idemp_l.
Qed.

Lemma AddUint64_pred (k : nat) :
  AddUint64 (N.of_nat (S k) mod 2 ^ 64) minus_one = (N.of_nat k mod 2 ^ 64)%N.
Proof.
  unfold AddUint64, minus_one. rewrite N.Div0.add_mod_idemp_l.
  rewrite Nat2N.inj_succ, <- N.add_1_r.
  replace (N.of_nat k + 1 + (2 ^ 64 - 1))%N with (N.of_nat k + 1 * 2 ^ 64)%N
    by lia.
  by rewrite N.Div0.mod_add.
Qed.

(** The counter is the number of goroutines between line 172 and line
    190, as a [uint64]. *)
Lemma counter_step (s s' : state) (l : label) :
  tasks s = (N.of_nat (in_flight s) mod 2 ^ 64)%N →
  step s l = Some s' →
  tasks s' = (N.of_nat (in_flight s') mod 2 ^ 64)%N.
Proof.
  intros I Hs.
  destruct (step_kinds _ _ _ Hs)
    as [(ev & -> & ->)|[(file & ts & logged & -> & El & ->)|
        [(n & Hpl & Hd)|[(n & Hpl & Hp)|[Hpl Hsu]]]]].
  - rewrite in_flight_app. simpl. by rewrite Nat.add_0_r.
  - done.
  - apply step_dispatch_cases in Hd
      as (ev & rest & b & Hn &
          [(-> & -> & [m ->] & ->)|(p & rest' & t & -> & Hh &
           [(-> & [m ->] & Hsel & ->)|[(-> & [m ->] & Hsel & Hm & ->)|
            [(-> & [m ->] & Hhit & ->)|(-> & [m ->] & Hhit & ->)]]])]).
    + pose proof (in_flight_set_thread s n _ Returned Hn) as E.
      simpl in E. simpl. rewrite I. f_equal. f_equal. lia.
    + pose proof (in_flight_set_thread s n _ (Dispatch ev rest' false) Hn) as E.
      simpl in E. simpl. rewrite I. f_equal. f_equal. lia.
    + pose proof (in_flight_set_thread (set_task s p (set_mutex t true)) n _
                    (Dispatch ev (p :: rest') true) Hn) as E.
      simpl in E. simpl. rewrite I. f_equal. f_equal.
      unfold in_flight in *. simpl in *. lia.
    + pose proof (in_flight_set_thread (set_task s p (set_mutex t false)) n _
                    (Dispatch ev rest' false) Hn) as E.
      simpl in E. simpl. rewrite I. f_equal. f_equal.
      unfold in_flight in *. simpl in *. lia.
    + pose proof (in_flight_set_thread
                    (set_task s p (set_mutex (set_hit t true) false)) n _
                    (Dispatch ev rest' false) Hn) as E.
      unfold in_flight in *. simpl in *.
      rewrite List.filter_app, length_app. simpl. rewrite I. f_equal. f_equal. lia.
  - apply step_pipeline_cases in Hp
      as (p & file & pc & pc' & t & Hn & Hh & Htr & -> & _).
    destruct Htr as [(-> & [m Hl] & ->)|[(c & rest & m & ok & -> & Hl & ->)|
      [(-> & [m Hl] & ->)|[(-> & [m Hl] & ->)|[(-> & [m Hl] & ->)|
      (-> & [m Hl] & ->)]]]]].
    + pose proof (in_flight_set_thread (with_tasks s (AddUint64 (tasks s) 1)) n
                    _ (Pipeline p file (PCommand (Commands t))) Hn) as E.
      unfold in_flight in *. simpl in *. rewrite I, AddUint64_succ.
      f_equal. f_equal. lia.
    + pose proof (in_flight_set_thread s n _
                    (Pipeline p file (if ok then PCommand rest else PLock)) Hn)
        as E.
      unfold in_flight in *. simpl in *. rewrite I. f_equal. f_equal.
      destruct ok; simpl in E; lia.
    + pose proof (in_flight_set_thread s n _ (Pipeline p file PLock) Hn) as E.
      unfold in_flight in *. simpl in *. rewrite I. f_equal. f_equal. lia.
    + pose proof (in_flight_set_thread (set_task s p (set_mutex t true)) n _
                    (Pipeline p file PClear) Hn) as E.
      unfold in_flight in *. simpl in *. rewrite I. f_equal. f_equal. lia.
    + pose proof (in_flight_set_thread
                    (set_task s p (set_mutex (set_hit t false) false)) n _
                    (Pipeline p file PSub) Hn) as E.
      unfold in_flight in *. simpl in *. rewrite I. f_equal. f_equal. lia.
    + pose proof (in_flight_set_thread
                    (with_tasks s (AddUint64 (tasks s) minus_one)) n _
                    (Pipeline p file PDone) Hn) as E.
      unfold in_flight in *. simpl in *. rewrite I.
      destruct (length (List.filter counted (pool s))) as [|k] eqn:Ek; [lia|].
      rewrite AddUint64_pred. f_equal. f_equal. lia.
  - pose proof (step_supervisor_frame _ _ _ Hsu) as (Hp & _ & _).
    assert (tasks s' = tasks s) as ->.
    { apply step_supervisor_inv in Hsu. destruct l; try done;
        repeat match goal with
               | H : _ ∧ _ |- _ => destruct H
               | H : ∃ _, _ |- _ => destruct H
               end; by subst. }
    unfold in_flight. by rewrite Hp.
Qed.

(** X1: in every run the counter [g.tasks] is the number of pipeline
    goroutines that have run line 172 and not yet line 190 (as a
    [uint64]): it is never decremented below zero, a goroutine that was
    launched and has not reached line 172 is not counted, and one that has
    cleared the flag of its rule is counted until line 190. *)
Theorem counter_accounting (args : list gostring) (ts : list task)
    (tr : list label) (s : state) :
  run (init args ts) tr = Some s →
  tasks s = (N.of_nat (in_flight s) mod 2 ^ 64)%N
  ∧ ((N.of_nat (in_flight s) < 2 ^ 64)%N →
     tasks s = N.of_nat (in_flight s)
     ∧ (tasks s = 0%N ↔
        ∀ n th, pool s !! n = Some th → counted th = false)).
Proof.
  intros Hr.
  assert (tasks s = (N.of_nat (in_flight s) mod 2 ^ 64)%N) as I.
  { revert tr s Hr.
    apply (run_invariant
             (λ _ s, tasks s = (N.of_nat (in_flight s) mod 2 ^ 64)%N)).
    - done.
    - intros tr s l s'. apply counter_step. }
  split; [done|]. intros Hlt.
  rewrite N.mod_small in I by done. split; [done|]. rewrite I.
  unfold in_flight. split.
  - intros E n th Hn.
    destruct (counted th) eqn:Ec; [|done].
    assert (th ∈ List.filter counted (pool s)) as Hin.
    { apply list_elem_of_In, List.filter_In. split; [|done].
      apply list_elem_of_In. by eapply list_elem_of_lookup_2. }
    destruct (List.filter counted (pool s)); [by apply elem_of_nil in Hin|].
    simpl in E. lia.
  - intros All. destruct (List.filter counted (pool s)) as [|th l] eqn:E; [done|].
    assert (In th (List.filter counted (pool s))) as Hin by (rewrite E; by left).
    apply List.filter_In in Hin as [Hin Hc].
    apply list_elem_of_In, list_elem_of_lookup in Hin as [n Hn].
    by rewrite (All n th Hn) in Hc.
Qed.

End accounting_properties.

Section supervision_properties.
Context `{RegexpLib} `{Host}.

(** X2: in every run a lock that is held is held by one goroutine, which
    is at the test of line 164 or at line 188, and the next step of that
    goroutine gives the lock back: no command runs and no goroutine waits
    while it holds the lock of a rule. *)
Theorem lock_released_by_next_step (args : list gostring) (ts : list task)
    (tr : list label) (s : state) (p : ptr) (t : task) :
  Forall idle ts →
  run (init args ts) tr = Some s →
  main s ≠ MExited →
  heap s !! p = Some t →
  mutex t = true →
  ∃ n th l s' t',
    pool s !! n = Some th
    ∧ holder th = Some p
    ∧ (∀ n', holders s !! n' = Some (Some p) → n' = n)
    ∧ release th n (length (pool s)) (hit t) = Some l
    ∧ step s l = Some s'
    ∧ heap s' !! p = Some t'
    ∧ mutex t' = false.
Proof.
  intros Hts Hr Hm Ht Hl.
  destruct (exclusive_run _ _ _ _ Hts Hr) as [E1 E2].
  destruct (E1 p) as [n Hn].
  { unfold locks. by rewrite list_lookup_fmap, Ht; simpl; rewrite Hl. }
  destruct (E2 n p Hn) as [_ Hu].
  unfold holders in Hn. rewrite list_lookup_fmap in Hn.
  destruct (pool s !! n) as [th|] eqn:Hth; [|done]. simpl in Hn.
  injection Hn as Hh.
  assert (∀ l, step s l = step_running s l) as Hstep.
  { intros l. unfold step. by destruct (main s). }
  assert (p < length (heap s)) as Hlt by (by eapply lookup_lt_Some).
  exists n, th.
  destruct th as [ev [|q rest] [|]| |q file []]; try done;
    simpl in Hh; injection Hh as ->.
  - destruct (hit t) eqn:Hhit.
    + eexists _, _, _. split; [done|]. split; [done|]. split; [done|].
      split; [done|]. split.
      { rewrite Hstep. cbn [step_running]. unfold step_dispatch.
        rewrite Hth. simpl. by rewrite Ht; simpl; rewrite Hhit. }
      simpl. by rewrite list_lookup_insert_eq.
    + eexists _, _, _. split; [done|]. split; [done|]. split; [done|].
      split; [done|]. split.
      { rewrite Hstep. cbn [step_running]. unfold step_dispatch.
        rewrite Hth. simpl. rewrite Ht. simpl. rewrite Hhit.
        by rewrite !bool_decide_eq_true_2. }
      simpl. by rewrite list_lookup_insert_eq.
  - eexists _, _, _. split; [done|]. split; [done|]. split; [done|].
    split; [done|]. split.
    { rewrite Hstep. cbn [step_running]. unfold step_pipeline.
      rewrite Hth. simpl. rewrite Ht. simpl.
      by rewrite bool_decide_eq_true_2. }
    simpl. by rewrite list_lookup_insert_eq.
Qed.

(** X3: in every run there is one goroutine of lines 364-367 at most, it
    exists only while [Run] waits at the [select] of line 368 (or has
    exited), and the channel is empty while it exists: the send of line
    366 never blocks, and what it sends is received. *)
Theorem restart_channel_discipline (args : list gostring) (ts : list task)
    (tr : list label) (s : state) :
  run (init args ts) tr = Some s →
  (restarter s ≠ RIdle →
     errChan s = None ∧ (main s = MSelect ∨ main s = MExited))
  ∧ (main s = MGo →
     step s LGo = Some (with_main (with_restarter s RCall None) MSelect))
  ∧ (∀ err, errChan s = Some err → main s ≠ MExited →
     restarter s = RIdle
     ∧ step s LRecv
       = Some (with_main (with_restarter s RIdle None)
                 (if err is Some _ then MBackoff else MPoll))).
Proof.
  intros Hr. destruct (gated_run _ _ _ _ Hr) as (G1 & G2 & _).
  assert (restarter s ≠ RIdle → errChan s = None) as Hempty.
  { intros Hne. destruct (errChan s) as [e|] eqn:E; [|done].
    destruct G2 as [? _]; [by eexists|]. done. }
  split; [|split].
  - intros Hne. split; [by apply Hempty|by apply G1].
  - intros Hm.
    assert (restarter s = RIdle) as Hi.
    { destruct (restarter s) eqn:E; [done|..];
        (destruct G1 as [?|?]; [done|congruence..]). }
    assert (errChan s = None) as He.
    { destruct (errChan s) as [e|] eqn:E; [|done].
      destruct G2 as [_ [?|?]]; [by eexists|congruence..]. }
    unfold step. rewrite Hm. cbn [step_running]. unfold step_supervisor.
    by rewrite Hm, Hi, He.
  - intros err He Hm.
    destruct G2 as [Hi [Hs|?]]; [by rewrite He| |done]. split; [done|].
    unfold step. rewrite Hs. cbn [step_running]. unfold step_supervisor.
    by rewrite Hs, He, Hi.
Qed.

Lemma step_keeps_Args (s s' : state) (l : label) :
  step s l = Some s' →
  Args s' = Args s
  ∧ (supervisor_label l = false →
     main s' = main s ∧ restarter s' = restarter s ∧ errChan s' = errChan s).
Proof.
  intros Hs.
  destruct (step_kinds _ _ _ Hs)
    as [(ev & -> & ->)|[(file & ts & logged & -> & El & ->)|
        [(n & Hpl & Hd)|[(n & Hpl & Hp)|[Hpl Hsu]]]]]; try done.
  - apply step_dispatch_cases in Hd
      as (ev & rest & b & Hn &
          [(-> & -> & [m ->] & ->)|(p & rest' & t & -> & Hh &
           [(-> & [m ->] & Hsel & ->)|[(-> & [m ->] & Hsel & Hm & ->)|
            [(-> & [m ->] & Hhit & ->)|(-> & [m ->] & Hhit & ->)]]])]); done.
  - apply step_pipeline_cases in Hp
      as (p & file & pc & pc' & t & Hn & Hh & Htr & -> & _).
    by destruct pc.
  - apply step_supervisor_inv in Hsu. destruct l; try done;
      repeat match goal with
             | H : _ ∧ _ |- _ => destruct H
             | H : ∃ _, _ |- _ => destruct H
             end; by subst.
Qed.

(** What [Run] does without a command to supervise: nothing. *)
Lemma unsupervised_run (args : list gostring) (ts : list task)
    (tr : list label) (s : state) :
  run (init args ts) tr = Some s →
  Args s = args
  ∧ (args = [] →
     main s = MReturned ∧ restarter s = RIdle ∧ errChan s = None).
Proof.
  apply (run_invariant
           (λ _ s, Args s = args
                   ∧ (args = [] → main s = MReturned ∧ restarter s = RIdle
                                  ∧ errChan s = None))).
  - split; [done|]. by intros ->.
  - intros tr' s1 l s2 [IA IM] Hs.
    destruct (step_keeps_Args _ _ _ Hs) as [EA EM].
    split; [congruence|]. intros Hargs.
    destruct (IM Hargs) as (Hm & Hi & He).
    destruct (supervisor_label l) eqn:Hl.
    + apply step_alive in Hs as [_ Hs].
      destruct l; try done; cbn [step_running] in Hs;
        apply step_supervisor_inv in Hs;
        repeat match goal with
               | H : _ ∧ _ |- _ => destruct H
               | H : ∃ _, _ |- _ => destruct H
               end; congruence.
    + destruct (EM eq_refl) as (-> & -> & ->). done.
Qed.

(** X4: when [g.Args] is not empty at line 354 it is the same throughout
    [Run]'s loop, and the early return of [restart] (lines 130-132) is
    never taken from [Run]; and when [g.Args] is empty at line 354, [Run]
    has returned and no step of the supervisor ever happens: nothing is
    polled, terminated or spawned, whatever the rules and the events
    do. *)
Theorem restart_only_with_args (args : list gostring) (ts : list task)
    (tr : list label) (s : state) :
  run (init args ts) tr = Some s →
  (args ≠ [] → Args s = args)
  ∧ step s LNoArgs = None
  ∧ (args = [] →
     main s = MReturned
     ∧ ∀ l, supervisor_label l = true → step s l = None).
Proof.
  intros Hr. destruct (unsupervised_run _ _ _ _ Hr) as [HA HM].
  split; [done|]. split.
  - unfold step. destruct (main s) eqn:Em; try done;
      cbn [step_running]; unfold step_supervisor;
      destruct (restarter s) eqn:Er; try done;
      (destruct (Args s) as [|a l] eqn:Ea; [|done]);
      (destruct HM as (? & ? & ?); [congruence|congruence]).
  - intros Hargs. destruct (HM Hargs) as (Hm & Hi & He). split; [done|].
    intros l Hl. unfold step. rewrite Hm.
    destruct l; try done; cbn [step_running]; unfold step_supervisor;
      rewrite ?Hm, ?Hi, ?HA, ?Hargs; done.
Qed.

End supervision_properties.

Section progress_properties.
Context `{RegexpLib} `{Host}.

Lemma well_formed_init (args : list gostring) (ts : list task) :
  well_formed (init args ts).
Proof.
  split; [|done]. simpl. apply Forall_forall. intros p Hp.
  apply elem_of_seq in Hp. lia.
Qed.

Lemma well_formed_set_thread (s : state) (n : nat) (th th' : thread) :
  well_formed s →
  pool s !! n = Some th →
  refers th' ⊆ refers th →
  (∀ event, th' ≠ Dispatch event [] true) →
  well_formed (set_thread s n th').
Proof.
  intros [Hc Hp] Hn Hsub Hl. split; [done|]. intros m thm Hm. simpl in *.
  destruct (decide (m = n)) as [->|Hne].
  - rewrite list_lookup_insert_eq in Hm by (by eapply lookup_lt_Some).
    injection Hm as <-. split; [|done].
    destruct (Hp n th Hn) as [F _]. rewrite Forall_forall in *.
    intros p Hin. apply F, Hsub, Hin.
  - rewrite list_lookup_insert_ne in Hm by done. by apply (Hp m).
Qed.

Lemma well_formed_set_task (s : state) (p : ptr) (t : task) :
  well_formed s → well_formed (set_task s p t).
Proof.
  intros [Hc Hp]. split; simpl; rewrite length_insert; [done|].
  intros n th Hn. by apply (Hp n).
Qed.

Lemma well_formed_step (s s' : state) (l : label) :
  well_formed s → step s l = Some s' → well_formed s'.
Proof.
  intros W Hs. pose proof W as [Hc Hp].
  destruct (step_kinds _ _ _ Hs)
    as [(ev & -> & ->)|[(file & ts & logged & -> & El & ->)|
        [(n & Hpl & Hd)|[(n & Hpl & Hpi)|[Hpl Hsu]]]]].
  - split; [done|]. simpl. intros n th [Hn|[_ Hn]]%lookup_app_Some.
    + by apply (Hp n).
    + apply list_lookup_singleton_Some in Hn as [_ <-]. done.
  - split; simpl.
    + apply Forall_forall. intros p Hin. apply elem_of_seq in Hin.
      rewrite length_app. lia.
    + intros n th Hn. destruct (Hp n th Hn) as [F ?]. split; [|done].
      eapply Forall_impl; [exact F|]. intros p Hlt. simpl in Hlt.
      rewrite length_app. lia.
  - apply step_dispatch_cases in Hd
      as (ev & rest & b & Hn &
          [(-> & -> & [m ->] & ->)|(p & rest' & t & -> & Hh &
           [(-> & [m ->] & Hsel & ->)|[(-> & [m ->] & Hsel & Hm & ->)|
            [(-> & [m ->] & Hhit & ->)|(-> & [m ->] & Hhit & ->)]]])]).
    + by eapply well_formed_set_thread.
    + eapply well_formed_set_thread; [done..| |done].
      simpl. intros x Hx. apply elem_of_cons. by right.
    + eapply well_formed_set_thread;
        [by apply well_formed_set_task|done|done|done].
    + eapply well_formed_set_thread;
        [by apply well_formed_set_task|done| |done].
      simpl. intros x Hx. apply elem_of_cons. by right.
    + assert (well_formed
                (set_thread (set_task s p (set_mutex (set_hit t true) false))
                   n (Dispatch ev rest' false))) as [Hc' Hp'].
      { eapply well_formed_set_thread;
          [by apply well_formed_set_task|done| |done].
      simpl. intros x Hx. apply elem_of_cons. by right. }
      split; [done|]. intros k th [Hk|[_ Hk]]%lookup_app_Some.
      * by apply (Hp' k).
      * apply list_lookup_singleton_Some in Hk as [_ <-].
        split; [|done]. simpl. constructor; [|done].
        rewrite length_insert. by eapply lookup_lt_Some.
  - apply step_pipeline_cases in Hpi
      as (p & file & pc & pc' & t & Hn & Hh & Htr & -> & _).
    destruct pc;
      (eapply well_formed_set_thread;
       [first [exact W|by apply well_formed_set_task]|exact Hn|done|done]).
  - pose proof (step_supervisor_frame _ _ _ Hsu) as (Epool & Eheap & _).
    assert (conf_Tasks s' = conf_Tasks s) as Ec.
    { apply step_supervisor_inv in Hsu. destruct l; try done;
        repeat match goal with
               | H : _ ∧ _ |- _ => destruct H
               | H : ∃ _, _ |- _ => destruct H
               end; by subst. }
    unfold well_formed. by rewrite Epool, Eheap, Ec.
Qed.

Lemma well_formed_run (args : list gostring) (ts : list task)
    (tr : list label) (s : state) :
  run (init args ts) tr = Some s → well_formed s.
Proof.
  apply (run_invariant (λ _, well_formed)).
  - apply well_formed_init.
  - intros tr' s1 l s2. apply well_formed_step.
Qed.

(** X5: no goroutine of [g.task] is ever stuck.  In every run, a call of
    [g.task] that has not returned and a goroutine of a pipeline that has
    not ended can take a step, unless it waits at [Lock] (line 163 or
    187) for the lock of its rule while another goroutine holds it; and
    every pointer to a task that they follow is that of a task on the
    heap. *)
Theorem no_goroutine_stuck (args : list gostring) (ts : list task)
    (tr : list label) (s : state) (n : nat) (th : thread) :
  Forall idle ts →
  run (init args ts) tr = Some s →
  main s ≠ MExited →
  pool s !! n = Some th →
  finished th = false →
  Forall (λ p, is_Some (heap s !! p)) (refers th)
  ∧ ((∃ l s', place l = Some n ∧ step s l = Some s')
     ∨ (∃ p t m thm,
          head (refers th) = Some p ∧ holder th = None
          ∧ heap s !! p = Some t ∧ mutex t = true
          ∧ m ≠ n ∧ pool s !! m = Some thm ∧ holder thm = Some p)).
Proof.
  intros Hts Hr Hm Hn Hf.
  destruct (well_formed_run _ _ _ _ Hr) as [_ W].
  destruct (W n th Hn) as [Href Hlock].
  assert (Forall (λ p, is_Some (heap s !! p)) (refers th)) as Hrefs.
  { eapply Forall_impl; [exact Href|]. intros p Hp.
    by apply lookup_lt_is_Some. }
  split; [done|].
  assert (∀ l, step s l = step_running s l) as Hstep.
  { intros l. unfold step. by destruct (main s). }
  assert (∀ p t, heap s !! p = Some t → mutex t = true → holder th = None →
            ∃ m thm, m ≠ n ∧ pool s !! m = Some thm ∧ holder thm = Some p)
    as Held.
  { intros p t Ht Hl Hnone.
    destruct (exclusive_run _ _ _ _ Hts Hr) as [E1 _].
    destruct (E1 p) as [m Hmm].
    { unfold locks. by rewrite list_lookup_fmap, Ht; simpl; rewrite Hl. }
    unfold holders in Hmm. rewrite list_lookup_fmap in Hmm.
    destruct (pool s !! m) as [thm|] eqn:Em; [|done].
    simpl in Hmm. injection Hmm as Hh. exists m, thm.
    split; [|done]. intros ->. congruence. }
  destruct th as [ev [|p rest] [|]| |p file pc]; try done.
  - by destruct (Hlock ev).
  - left. exists (LReturn n), (set_thread s n Returned). split; [done|].
    rewrite Hstep. cbn [step_running]. unfold step_dispatch. by rewrite Hn.
  - apply Forall_cons in Hrefs as [[t Ht] _].
    left. destruct (hit t) eqn:Hh.
    + eexists (LDrop n), _. split; [done|].
      rewrite Hstep. cbn [step_running]. unfold step_dispatch.
      rewrite Hn. simpl. by rewrite Ht; simpl; rewrite Hh.
    + eexists (LAdmit n p (length (pool s))), _. split; [done|].
      rewrite Hstep. cbn [step_running]. unfold step_dispatch.
      rewrite Hn. simpl. rewrite Ht. simpl. rewrite Hh.
      by rewrite !bool_decide_eq_true_2.
  - apply Forall_cons in Hrefs as [[t Ht] _].
    destruct (selects t ev) eqn:Hsel.
    + destruct (mutex t) eqn:Hl.
      * right. destruct (Held p t Ht Hl eq_refl) as (m & thm & ? & ? & ?).
        by exists p, t, m, thm.
      * left. eexists (LLock n), _. split; [done|].
        rewrite Hstep. cbn [step_running]. unfold step_dispatch.
        rewrite Hn. simpl. by rewrite Ht; simpl; rewrite Hsel, Hl.
    + left. eexists (LSkip n), _. split; [done|].
      rewrite Hstep. cbn [step_running]. unfold step_dispatch.
      rewrite Hn. simpl. by rewrite Ht; simpl; rewrite Hsel.
  - apply Forall_cons in Hrefs as [[t Ht] _].
    destruct pc as [|[|c cs]| | | |]; try done.
    + left. eexists (LAdd n), _. split; [done|].
      rewrite Hstep. cbn [step_running]. unfold step_pipeline.
      rewrite Hn. cbn [mbind option_bind]. by rewrite Ht.
    + left. eexists (LLoopEnd n), _. split; [done|].
      rewrite Hstep. cbn [step_running]. unfold step_pipeline.
      rewrite Hn. cbn [mbind option_bind]. by rewrite Ht.
    + left. eexists (LCommand n c (is_internal c) true), _. split; [done|].
      rewrite Hstep. cbn [step_running]. unfold step_pipeline.
      rewrite Hn. cbn [mbind option_bind]. rewrite Ht. cbn [mbind option_bind].
      by rewrite !bool_decide_eq_true_2.
    + destruct (mutex t) eqn:Hl.
      * right. destruct (Held p t Ht Hl eq_refl) as (m & thm & ? & ? & ?).
        by exists p, t, m, thm.
      * left. eexists (LLockP n), _. split; [done|].
        rewrite Hstep. cbn [step_running]. unfold step_pipeline.
        rewrite Hn. cbn [mbind option_bind]. rewrite Ht.
        cbn [mbind option_bind]. by rewrite Hl.
    + left. eexists (LClear n p), _. split; [done|].
      rewrite Hstep. cbn [step_running]. unfold step_pipeline.
      rewrite Hn. cbn [mbind option_bind]. rewrite Ht. cbn [mbind option_bind].
      by rewrite bool_decide_eq_true_2.
    + left. eexists (LSub n), _. split; [done|].
      rewrite Hstep. cbn [step_running]. unfold step_pipeline.
      rewrite Hn. cbn [mbind option_bind]. by rewrite Ht.
Qed.

End progress_properties.

Section load_properties.
Context `{RegexpLib} `{Host}.

Lemma load_task_returns (t : task) :
  ∃ t' logged, load_task t = Returns (t', logged).
Proof.
  unfold load_task. destruct (string_eqb (Match t) []) eqn:Em; [eauto|].
  destruct (Match t) as [|c rest] eqn:EM; [done|].
  rewrite compilePattern_cons. cbn [mbind outcome_bind].
  match goal with |- context [if ?b then ?x else ?y] =>
    destruct (if b then x else y) as [re|err] end; [|eauto].
  cbn [Ignore set_mre].
  destruct (string_eqb (Ignore t) []) eqn:Ei; cbn [negb].
  - cbn [mbind outcome_bind]. destruct (load_ops _). eauto.
  - destruct (Ignore t) as [|c' rest'] eqn:EI; [done|].
    rewrite compilePattern_cons. cbn [mbind outcome_bind].
    match goal with |- context [if ?b then ?x else ?y] =>
      destruct (if b then x else y) as [re'|err'] end;
      cbn [mbind outcome_bind]; destruct (load_ops _); eauto.
Qed.

Lemma load_tasks_returns (ts : list task) :
  ∃ ts' logged,
    load_tasks ts = Returns (ts', logged) ∧ length ts' = length ts.
Proof.
  induction ts as [|t ts (ts' & logged & E & L)]; [by eexists _, _|].
  destruct (load_task_returns t) as (t' & logged' & Et).
  simpl. rewrite Et. cbn [mbind outcome_bind]. rewrite E.
  cbn [mbind outcome_bind]. eexists _, _. split; [done|]. simpl. by rewrite L.
Qed.

Lemma readLoop_returns (ReadFile : nat → option error) :
  ∃ err slept,
    readLoop 3 ReadFile 0 None 0 = Returns (err, slept)
    ∧ slept ≤ 3
    ∧ (∀ i, i < 3 → (∀ j, j < i → is_Some (ReadFile j)) →
         ReadFile i = None → err = None ∧ slept = i)
    ∧ ((∀ j, j < 3 → is_Some (ReadFile j)) →
         err = ReadFile 2 ∧ slept = 3).
Proof.
  cbn [readLoop Nat.ltb Nat.leb negb Nat.add].
  destruct (ReadFile 0) as [e0|] eqn:E0.
  2: { eexists _, _. split; [done|]. split; [lia|]. split.
       - intros i Hi Hj Hn. split; [done|]. destruct i as [|i]; [done|].
         destruct (Hj 0) as [? ?]; [lia|congruence].
       - intros Hj. destruct (Hj 0) as [? ?]; [lia|congruence]. }
  destruct (ReadFile 1) as [e1|] eqn:E1.
  2: { eexists _, _. split; [done|]. split; [lia|]. split.
       - intros i Hi Hj Hn. split; [done|].
         destruct i as [|[|i]]; [congruence|done|].
         destruct (Hj 1) as [? ?]; [lia|congruence].
       - intros Hj. destruct (Hj 1) as [? ?]; [lia|congruence]. }
  destruct (ReadFile 2) as [e2|] eqn:E2.
  2: { eexists _, _. split; [done|]. split; [lia|]. split.
       - intros i Hi Hj Hn. split; [done|].
         destruct i as [|[|[|i]]]; [congruence|congruence|done|lia].
       - intros Hj. destruct (Hj 2) as [? ?]; [lia|congruence]. }
  eexists _, _. split; [done|]. split; [lia|]. split.
  - intros i Hi Hj Hn. destruct i as [|[|[|i]]]; [congruence..|lia].
  - done.
Qed.


(** X7: when [load] returns an error, it leaves no rule that a file can
    match: the rules were dropped at line 253, and what [yaml.Unmarshal]
    assigned before its error is not compiled.  The arguments are as they
    were. *)
Theorem failed_load_drops_rules (g : Goemon) (ReadFile : nat → option error)
    (yaml : document * option error) (r : loaded) (e : error) :
  load g ReadFile yaml = Returns r →
  load_err r = Some e →
  g_Args (g_after r) = g_Args g
  ∧ (snd yaml = None ∨ doc_tasks (fst yaml) = None →
     g_conf_Tasks (g_after r) = [])
  ∧ ∀ t file, t ∈ g_conf_Tasks (g_after r) → task_match t file = false.
Proof.
  unfold load. cbn [g_File with_Tasks].
  destruct (filepath_Abs (g_File g)) as [fn|e'] eqn:Ea.
  2: { intros [= <-] _. simpl. split; [done|]. split; [done|].
       by intros t file ?%elem_of_nil. }
  destruct (readLoop_returns ReadFile) as (err & slept & -> & _).
  cbn [mbind outcome_bind].
  destruct err as [e'|].
  { intros [= <-] _. simpl. split; [done|]. split; [done|].
    by intros t file ?%elem_of_nil. }
  destruct (snd yaml) as [e'|] eqn:Ey.
  - intros [= <-] _. cbn [g_after g_Args assign g_conf_Tasks with_File].
    split; [done|]. split.
    + intros [?|E]; [done|by rewrite E].
    + intros t file Ht. destruct (doc_tasks (fst yaml)) as [es|]; simpl in Ht.
      * apply list_elem_of_fmap in Ht as (en & -> & _). done.
      * by apply elem_of_nil in Ht.
  - match goal with |- context [load_tasks ?ts] =>
      destruct (load_tasks_returns ts) as (ts' & logged & -> & L) end.
    cbn [mbind outcome_bind]. by intros [= <-] ?.
Qed.

(** X8: [load] sets [g.Args] only when it is empty, to [sh -c] and the
    command of the file: arguments given on the command line, or set by an
    earlier [load], are never changed, so a [command] edited in the file
    has no effect on a reload. *)
Theorem load_keeps_Args (g : Goemon) (ReadFile : nat → option error)
    (yaml : document * option error) (r : loaded) :
  load g ReadFile yaml = Returns r →
  (g_Args g ≠ [] → g_Args (g_after r) = g_Args g)
  ∧ (g_Args g = [] → load_err r = None →
     g_Args (g_after r)
     = if string_eqb (g_conf_Command (g_after r)) [] then []
       else [str "sh"; str "-c"; g_conf_Command (g_after r)])
  ∧ (load_err r = None →
     g_conf_Command (g_after r)
     = default (g_conf_Command g) (doc_command (fst yaml))).
Proof.
  unfold load. cbn [g_File with_Tasks].
  destruct (filepath_Abs (g_File g)) as [fn|e'] eqn:Ea.
  2: { by intros [= <-]. }
  destruct (readLoop_returns ReadFile) as (err & slept & -> & _).
  cbn [mbind outcome_bind].
  destruct err as [e'|]; [by intros [= <-]|].
  destruct (snd yaml) as [e'|] eqn:Ey; [by intros [= <-]|].
  match goal with |- context [load_tasks ?ts] =>
    destruct (load_tasks_returns ts) as (ts' & logged & -> & L) end.
  cbn [mbind outcome_bind]. intros [= <-].
  cbn [g_after load_err]. cbn [assign with_File g_Args g_conf_Command].
  destruct (g_Args g) as [|a args] eqn:EA; cbn [length Nat.eqb andb].
  - split; [done|]. split; [|by destruct (negb _)]. intros _ _.
    destruct (string_eqb _ []) eqn:Ec; cbn [negb]; simpl; simpl in Ec;
      by rewrite Ec, ?EA.
  - split; [done|]. split; [done|]. done.
Qed.

(** X9: [load] reads the file three times at most, pauses 100 ms after
    each read that fails, the third included, and returns the error of
    the third read when all three fail; a read that succeeds ends the
    attempts, and what later attempts would give is never asked. *)
Theorem load_read_retries (g : Goemon) (ReadFile : nat → option error)
    (yaml : document * option error) (r : loaded) (fn : gostring) :
  filepath_Abs (g_File g) = inl fn →
  load g ReadFile yaml = Returns r →
  load_slept r ≤ 3
  ∧ (∀ i, i < 3 → (∀ j, j < i → is_Some (ReadFile j)) → ReadFile i = None →
       load_slept r = i ∧ load_err r = snd yaml)
  ∧ ((∀ j, j < 3 → is_Some (ReadFile j)) →
       load_slept r = 3 ∧ load_err r = ReadFile 2
       ∧ g_conf_Tasks (g_after r) = [])
  ∧ (∀ ReadFile',
       (∀ j, j < 3 → ReadFile' j = ReadFile j) →
       load g ReadFile' yaml = Returns r).
Proof.
  intros Ea. unfold load. cbn [g_File with_Tasks]. rewrite Ea.
  destruct (readLoop_returns ReadFile) as (err & slept & E & Hle & Hok & Hko).
  rewrite E. cbn [mbind outcome_bind]. intros Hr.
  assert (load_slept r = slept ∧ (err = None → load_err r = snd yaml)
          ∧ (is_Some err → load_err r = err ∧ g_conf_Tasks (g_after r) = []))
    as (Hs & Hn & Hs').
  { destruct err as [e'|].
    - injection Hr as <-. split; [done|]. split; [done|]. done.
    - destruct (snd yaml) as [e'|] eqn:Ey.
      + injection Hr as <-. split; [done|]. split; [done|]. by intros [? ?].
      + match type of Hr with context [load_tasks ?ts] =>
          destruct (load_tasks_returns ts) as (ts' & logged & Et & L) end.
        rewrite Et in Hr. cbn [mbind outcome_bind] in Hr. injection Hr as <-.
        split; [done|]. split; [done|]. by intros [? ?]. }
  split; [lia|]. split; [|split].
  - intros i Hi Hj Hnone. destruct (Hok i Hi Hj Hnone) as [-> ->].
    split; [done|]. by apply Hn.
  - intros Hall. destruct (Hko Hall) as [-> ->].
    destruct (Hall 2) as [e2 E2]; [lia|].
    destruct Hs' as [-> ->]; [by rewrite E2|]. by rewrite Hs.
  - intros ReadFile' Hsame.
    assert (readLoop 3 ReadFile' 0 None 0 = Returns (err, slept)) as ->.
    { rewrite <- E. cbn [readLoop Nat.ltb Nat.leb negb Nat.add].
      rewrite !Hsame by lia. done. }
    done.
Qed.

End load_properties.

Section reload_properties.
Context `{RegexpLib} `{Host}.


End reload_properties.

Section rule_properties.
Context `{RegexpLib} `{Host}.





(** X12: a rule whose [match] is empty is skipped by [load] (line 283):
    it is left as it was read, nothing about it is logged, its [ignore]
    and [ops] are not looked at, and no event ever selects it, be it the
    event of a file or one whose name begins with a colon. *)
Theorem empty_match_never_selected (e : entry) (event : fsnotify.Event) :
  yaml_match e = [] →
  load_task (unmarshalled e) = Returns (unmarshalled e, [])
  ∧ selects (unmarshalled e) event = false.
Proof.
  intros He. split.
  - unfold load_task. cbn [Match unmarshalled]. by rewrite He.
  - unfold selects. cbn [Match unmarshalled]. rewrite He.
    destruct (strings_HasPrefix _ _) eqn:Hp.
    + unfold filepath_ToSlash.
      destruct (fsnotify.Name event) as [|c name]; [done|].
      unfold string_eqb. by rewrite bool_decide_eq_false_2.
    + done.
Qed.

End rule_properties.

Section watch_properties.
Context `{RegexpLib} `{Host}.

(** A regular file on the way of the walk that some rule matches. *)
Lemma Walk_adds (Tasks : list task)
    (visits : list (gostring * option FileInfo * option error)) :
  ∀ w : watcher,
    ∃ dirs,
      added (fst (Walk Tasks w visits)) = added w ++ dirs
      ∧ NoDup dirs
      ∧ (∀ d, d ∈ dirs →
           dup w !! d = None
           ∧ ∃ path info err,
               (path, Some info, err) ∈ visits ∧ IsDir info = false
               ∧ filepath_Dir path = d
               ∧ existsb (λ t, task_match t path) Tasks = true)
      ∧ (∀ d, is_Some (dup (fst (Walk Tasks w visits)) !! d)
              ↔ is_Some (dup w !! d) ∨ d ∈ dirs)
      ∧ (Forall (λ v, is_Some (v.1.2) ∨ v.2 = None) visits →
         ∀ path info err,
           (path, Some info, err) ∈ visits → IsDir info = false →
           existsb (λ t, task_match t path) Tasks = true →
           is_Some (dup (fst (Walk Tasks w visits)) !! filepath_Dir path)).
Proof.
  induction visits as [|[[path info] err] visits IH]; intros w.
  - exists []. simpl. rewrite app_nil_r. split; [done|].
    split; [constructor|]. split; [by intros d ?%elem_of_nil|]. split.
    + intros d. split; [auto|]. by intros [?|?%elem_of_nil].
    + by intros _ path info err ?%elem_of_nil.
  - cbn [Walk].
    assert (∀ w1 : watcher,
              (∃ new, added w1 = added w ++ new ∧ NoDup new
                 ∧ (∀ d, d ∈ new →
                      dup w !! d = None ∧ info ≠ None
                      ∧ ∃ i, info = Some i ∧ IsDir i = false
                        ∧ filepath_Dir path = d
                        ∧ existsb (λ t, task_match t path) Tasks = true)
                 ∧ (∀ d, is_Some (dup w1 !! d)
                         ↔ is_Some (dup w !! d) ∨ d ∈ new)
                 ∧ (∀ i, info = Some i → IsDir i = false →
                      existsb (λ t, task_match t path) Tasks = true →
                      is_Some (dup w1 !! filepath_Dir path))) →
              ∃ dirs,
                added (fst (Walk Tasks w1 visits)) = added w ++ dirs
                ∧ NoDup dirs
                ∧ (∀ d, d ∈ dirs →
                     dup w !! d = None
                     ∧ ∃ path0 info0 err0,
                         (path0, Some info0, err0)
                           ∈ (path, info, err) :: visits
                         ∧ IsDir info0 = false ∧ filepath_Dir path0 = d
                         ∧ existsb (λ t, task_match t path0) Tasks = true)
                ∧ (∀ d, is_Some (dup (fst (Walk Tasks w1 visits)) !! d)
                        ↔ is_Some (dup w !! d) ∨ d ∈ dirs)
                ∧ (Forall (λ v, is_Some (v.1.2) ∨ v.2 = None)
                     ((path, info, err) :: visits) →
                   ∀ path0 info0 err0,
                     (path0, Some info0, err0) ∈ (path, info, err) :: visits →
                     IsDir info0 = false →
                     existsb (λ t, task_match t path0) Tasks = true →
                     is_Some (dup (fst (Walk Tasks w1 visits))
                                !! filepath_Dir path0))) as Go.
    { intros w1 (new & Ea & Hnd & Hnew & Hdup & Hhere).
      destruct (IH w1) as (dirs & Ea' & Hnd' & Hdirs & Hdup' & Hall).
      exists (new ++ dirs). split; [by rewrite Ea', Ea, app_assoc|].
      split.
      { apply NoDup_app. split; [done|]. split; [|done].
        intros d Hd Hd'. destruct (Hdirs d Hd') as [Hn _].
        assert (is_Some (dup w1 !! d)) as [? ?] by (apply Hdup; auto).
        congruence. }
      split.
      { intros d [Hd|Hd]%elem_of_app.
        - destruct (Hnew d Hd) as (? & _ & i & -> & ? & ? & ?).
          split; [done|]. exists path, i, err. split; [left|done].
        - destruct (Hdirs d Hd) as (Hn & p0 & i0 & e0 & Hin & ?).
          split.
          + destruct (dup w !! d) eqn:E; [|done].
            assert (is_Some (dup w1 !! d)) as [? ?]
              by (apply Hdup; left; by eexists).
            congruence.
          + exists p0, i0, e0. split; [by right|done]. }
      split.
      { intros d. rewrite Hdup', Hdup, elem_of_app. tauto. }
      intros [_ Hvis]%Forall_cons p0 i0 e0 [E|Hin]%elem_of_cons Hd Hm.
      - injection E as -> <- ->. apply Hdup'. left. by eapply Hhere.
      - by eapply Hall. }
    unfold walkFn. destruct info as [i|].
    2: { destruct err as [e|].
         - exists []. cbn [fst]. rewrite app_nil_r. split; [done|].
           split; [constructor|]. split; [by intros d ?%elem_of_nil|].
           split.
           + intros d. split; [auto|]. by intros [?|?%elem_of_nil].
           + intros Hv. apply Forall_cons in Hv as [[[? ?]|?] _]; done.
         - apply Go. exists []. rewrite app_nil_r. split; [done|].
           split; [constructor|]. split; [by intros d ?%elem_of_nil|].
           split; [|done].
           intros d. split; [auto|]. by intros [?|?%elem_of_nil]. }
    destruct (IsDir i) eqn:Ed.
    { apply Go. exists []. rewrite app_nil_r. split; [done|].
      split; [constructor|]. split; [by intros d ?%elem_of_nil|].
      split; [|by intros i' [= <-]; congruence].
      intros d. split; [auto|]. by intros [?|?%elem_of_nil]. }
    destruct (dup w !! filepath_Dir path) as [b|] eqn:Edup.
    { apply Go. exists []. rewrite app_nil_r. split; [done|].
      split; [constructor|]. split; [by intros d ?%elem_of_nil|].
      split; [|by intros i' _ _ _; rewrite Edup].
      intros d. split; [auto|]. by intros [?|?%elem_of_nil]. }
    rewrite walk_rules_spec.
    destruct (existsb (λ t, task_match t path) Tasks) eqn:Em.
    + cbn [Walk]. apply Go. exists [filepath_Dir path]. split; [done|].
      split; [apply NoDup_singleton|]. split.
      { intros d ->%list_elem_of_singleton. split; [done|]. split; [done|].
        by exists i. }
      split.
      { intros d. cbn [add_watch dup]. rewrite list_elem_of_singleton.
        destruct (decide (d = filepath_Dir path)) as [->|Hne].
        - rewrite lookup_insert_eq. split; [auto|]. by eexists.
        - rewrite lookup_insert_ne by done. split; [auto|].
          by intros [?|?]. }
      intros i' _ _ _. cbn [add_watch dup]. rewrite lookup_insert_eq.
      by eexists.
    + apply Go. exists []. rewrite app_nil_r. split; [done|].
      split; [constructor|]. split; [by intros d ?%elem_of_nil|].
      split; [|by intros i' [= <-] _ ?; congruence].
      intros d. split; [auto|]. by intros [?|?%elem_of_nil].
Qed.

(** X13: the watch set is the configuration file, the working directory
    and then directories that the walk adds, each once and none of them
    the working directory; each is the directory of a regular file on the
    way of the walk that [match] of some rule accepts.  If no entry of
    the walk is unreadable, the directory of every such file is
    watched. *)
Theorem watch_set_directories (File : gostring) (Tasks : list task)
    (visits : list (gostring * option FileInfo * option error)) :
  let root := match filepath_Abs (str ".") with inl r => r | inr _ => [] end in
  let w := watch_set File Tasks visits in
  ∃ dirs,
    added w = File :: root :: dirs
    ∧ NoDup (root :: dirs)
    ∧ (∀ d, d ∈ dirs →
         ∃ path info err,
           (path, Some info, err) ∈ visits ∧ IsDir info = false
           ∧ filepath_Dir path = d
           ∧ existsb (λ t, task_match t path) Tasks = true)
    ∧ (∀ d, is_Some (dup w !! d) ↔ d ∈ root :: dirs)
    ∧ (Forall (λ v, is_Some (v.1.2) ∨ v.2 = None) visits →
       ∀ path info err,
         (path, Some info, err) ∈ visits → IsDir info = false →
         existsb (λ t, task_match t path) Tasks = true →
         filepath_Dir path ∈ root :: dirs).
Proof.
  cbv zeta. unfold watch_set.
  set (root := match filepath_Abs (str ".") with inl r => r | inr _ => [] end).
  set (w0 := add_watch (add_watch {| added := []; dup := ∅ |} File false)
               root true).
  destruct (Walk_adds Tasks visits w0)
    as (dirs & Ea & Hnd & Hdirs & Hdup & Hall).
  assert (∀ d, is_Some (dup w0 !! d) ↔ d = root) as Hroot.
  { intros d. unfold w0. cbn [add_watch dup].
    destruct (decide (d = root)) as [->|Hne].
    - rewrite lookup_insert_eq. split; [done|]. by eexists.
    - rewrite lookup_insert_ne, lookup_empty by done.
      split; [by intros [? ?]|done]. }
  exists dirs. split; [by rewrite Ea|]. split.
  { apply NoDup_cons. split; [|done]. intros Hin.
    destruct (Hdirs root Hin) as [Hn _].
    assert (is_Some (dup w0 !! root)) as [? ?] by (by apply Hroot).
    congruence. }
  split; [intros d Hd; by destruct (Hdirs d Hd)|]. split.
  { intros d. rewrite Hdup, Hroot, elem_of_cons. tauto. }
  intros Hv path info err Hin Hd Hm.
  apply elem_of_cons. rewrite <- Hroot. apply Hdup. by eapply Hall.
Qed.

(** The loop up to the event of the configuration file. *)
Lemma watch_loop_app (File : gostring) (pre post : list received) :
  Forall (λ i, if i is FromEvents event
               then fsnotify.Name event ≠ File else True) pre →
  watch_loop File (pre ++ post)
  = let '(events, errors, unread) := watch_loop File post in
    (events_of pre ++ events,
     omap (λ i, if i is FromErrors (Some e) then Some e else None) pre
       ++ errors, unread).
Proof.
  induction pre as [|i pre IH]; intros Hpre.
  - simpl. by destruct (watch_loop File post) as [[? ?] ?].
  - apply Forall_cons in Hpre as [Hi Hpre]. specialize (IH Hpre).
    rewrite <- app_comm_cons. cbn [watch_loop]. rewrite IH.
    destruct (watch_loop File post) as [[events errors] unread].
    destruct i as [event|[e|]]; simpl.
    + unfold string_eqb. by rewrite bool_decide_eq_false_2.
    + done.
    + done.
Qed.

(** X14: the loop of [watch] hands to [g.task] every event it receives,
    in order, up to the first event whose name is the configuration file;
    at that event it returns nil, so that event reaches no rule, whatever
    its operation and whatever the rules match, and what arrives after it
    is left for the next call of [watch]; nil errors are not logged. *)
Theorem watch_loop_until_reload (File : gostring) (pre post : list received)
    (event : fsnotify.Event) :
  Forall (λ i, if i is FromEvents event
               then fsnotify.Name event ≠ File else True) pre →
  fsnotify.Name event = File →
  watch_loop File (pre ++ FromEvents event :: post)
  = (events_of pre,
     omap (λ i, if i is FromErrors (Some e) then Some e else None) pre,
     Some post)
  ∧ watch_loop File pre
    = (events_of pre,
       omap (λ i, if i is FromErrors (Some e) then Some e else None) pre,
       None).
Proof.
  intros Hpre He. split.
  - rewrite watch_loop_app by done. cbn [watch_loop].
    unfold string_eqb. rewrite bool_decide_eq_true_2 by done.
    by rewrite !app_nil_r.
  - rewrite <- (app_nil_r pre) at 1. rewrite watch_loop_app by done.
    simpl. by rewrite !app_nil_r.
Qed.

End watch_properties.

(** *** The tokens of an alternative *)

Lemma tokens_nil (rs : list rune) : tokens rs = Some [] → rs = [].
Proof.
  destruct rs as [|c rs1]; [done|]. cbn [tokens].
  destruct (c =?r chr "*").
  - destruct rs1 as [|c1 rs2]; [by destruct (tokens [])|].
    destruct (c1 =?r chr "*").
    + destruct rs2 as [|c2 rs3]; [done|].
      destruct (c2 =?r chr "/"); [by destruct (tokens rs3)|done].
    + by destruct (tokens (c1 :: rs2)).
  - destruct (c =?r chr "?"); by destruct (tokens rs1).
Qed.

Lemma tokens_cons (rs : list rune) (t : token) (toks : list token) :
  tokens rs = Some (t :: toks) →
  ∃ pre rs', rs = pre ++ rs' ∧ lexeme t pre rs' ∧ tokens rs' = Some toks.
Proof.
  destruct rs as [|c rs1]; [done|]. cbn [tokens].
  destruct (c =?r chr "*") eqn:Es.
  - apply N.eqb_eq in Es as ->.
    destruct rs1 as [|c1 rs2].
    { simpl. intros [= <- <-]. by exists [chr "*"], []. }
    destruct (c1 =?r chr "*") eqn:Es1.
    + apply N.eqb_eq in Es1 as ->.
      destruct rs2 as [|c2 rs3]; [done|].
      destruct (c2 =?r chr "/") eqn:Es2; [|done].
      apply N.eqb_eq in Es2 as ->.
      destruct (tokens rs3) as [toks'|] eqn:E; [|done].
      simpl. intros [= <- <-]. by exists (str "**/"), rs3.
    + destruct (tokens (c1 :: rs2)) as [toks'|] eqn:E; [|done].
      simpl. intros [= <- <-]. by exists [chr "*"], (c1 :: rs2).
  - destruct (c =?r chr "?") eqn:Eq.
    + apply N.eqb_eq in Eq as ->.
      destruct (tokens rs1) as [toks'|] eqn:E; [|done].
      simpl. intros [= <- <-]. by exists [chr "?"], rs1.
    + destruct (tokens rs1) as [toks'|] eqn:E; [|done].
      simpl. intros [= <- <-]. by exists [c], rs1.
Qed.

Section tokens.
Context `{RegexpLib} `{Host}.

Lemma translate_lexeme (pattern : gostring) (t : token) (pre rs' buf : gostring) :
  lexeme t pre rs' →
  translate pattern (pre ++ rs') buf
  = translate pattern rs' (buf ++ written_token t).
Proof.
  destruct t as [c| | |]; simpl.
  - intros (-> & Hs & Hq). cbn [app translate]. unfold written1.
    destruct (c =?r chr "/"); [done|]. by rewrite Hs, Hq.
  - intros (-> & Hn). cbn [app translate].
    change (chr "*" =?r chr "/") with false.
    change (chr "*" =?r chr "*") with true. cbn iota.
    destruct rs' as [|c1 rs2]; [done|]. by rewrite Hn.
  - intros ->. cbn [app translate].
    change (chr "?" =?r chr "/") with false.
    change (chr "?" =?r chr "*") with false.
    by change (chr "?" =?r chr "?") with true.
  - intros ->. reflexivity.
Qed.

(** The loop writes the tokens one after the other. *)
Lemma translate_tokens (pattern : gostring) (toks : list token) :
  ∀ rs buf,
    tokens rs = Some toks →
    translate pattern rs buf = inl (buf ++ (toks ≫= written_token)).
Proof.
  induction toks as [|t toks IH]; intros rs buf Ht.
  - apply tokens_nil in Ht as ->. simpl. by rewrite app_nil_r.
  - apply tokens_cons in Ht as (pre & rs' & -> & Hl & Ht).
    rewrite (translate_lexeme _ _ _ _ _ Hl), (IH _ _ Ht).
    by rewrite bind_cons, app_assoc.
Qed.

End tokens.

(** *** The tokens read back *)

(** A token whose rune, if it is one, is written in two digits. *)
Lemma lexeme_ordinary (c : rune) (pre rs' : list rune) :
  lexeme (TRune c) pre rs' → one_byte c = true → ordinary c = true.
Proof.
  intros (_ & Hs & Hq) Hb. unfold ordinary, one_byte in *.
  rewrite Hb, Hs, Hq. apply orb_true_r.
Qed.

(** No token begins with a question mark, which after a repetition would
    be read with it. *)
Lemma skip_lazy_token (t : token) (rest : gostring) :
  syntax.skip_lazy (written_token t ++ rest) = written_token t ++ rest.
Proof.
  destruct t as [c| | |]; try reflexivity.
  simpl. unfold written1. destruct (c =?r chr "/") eqn:E; [|reflexivity].
  apply N.eqb_eq in E as ->. reflexivity.
Qed.

Lemma skip_lazy_tokens (toks : list token) (rest : gostring) :
  syntax.skip_lazy rest = rest →
  syntax.skip_lazy ((toks ≫= written_token) ++ rest)
  = (toks ≫= written_token) ++ rest.
Proof.
  intros Hr. destruct toks as [|t toks]; [done|].
  rewrite bind_cons, <- app_assoc. apply skip_lazy_token.
Qed.

(** One token: the fuel it takes is no more than the runes it is written
    in. *)
Lemma parse_token (t : token) (k : nat) (stack : list (syntax.frame * bool))
    (f : syntax.frame) (lastRepeat : bool) (rest : gostring) :
  (if t is TRune c then ordinary c = true else True) →
  syntax.skip_lazy rest = rest →
  ∃ k' lastRepeat',
    syntax.parse (length (written_token t ++ rest) + k) stack f lastRepeat
      (written_token t ++ rest)
    = syntax.parse (length rest + k') stack (syntax.push f (read_token t))
        lastRepeat' rest.
Proof.
  intros Hc Hr. rewrite length_app.
  destruct t as [c| | |]; cbn [written_token read_token].
  - exists (length (written1 c) - 1 + k), false.
    replace (length (written1 c) + length rest + k)
      with (S (length rest + (length (written1 c) - 1 + k))).
    + by apply parse_written1.
    + assert (0 < length (written1 c)); [|lia].
      unfold written1. destruct (c =?r chr "/"); simpl; lia.
  - exists (3 + k), true.
    replace (length (str "[^/]+") + length rest + k)
      with (S (S (length rest + (3 + k)))) by (simpl; lia).
    transitivity
      (syntax.parse (length rest + (3 + k)) stack
         (syntax.push f (read_token TStar)) true (syntax.skip_lazy rest));
      [reflexivity|by rewrite Hr].
  - exists (1 + k), false.
    replace (length (str "\S") + length rest + k)
      with (S (length rest + (1 + k))) by (simpl; lia).
    reflexivity.
  - exists k, true.
    replace (length (str ".*") + length rest + k)
      with (S (S (length rest + k))) by (simpl; lia).
    transitivity
      (syntax.parse (length rest + k) stack
         (syntax.push f (read_token TStarStar)) true (syntax.skip_lazy rest));
      [reflexivity|by rewrite Hr].
Qed.

Lemma parse_tokens (toks : list token) :
  Forall (λ t, if t is TRune c then ordinary c = true else True) toks →
  ∀ (k : nat) (stack : list (syntax.frame * bool)) (f : syntax.frame)
    (lastRepeat : bool) (rest : gostring),
    syntax.skip_lazy rest = rest →
    ∃ k' lastRepeat',
      syntax.parse (length ((toks ≫= written_token) ++ rest) + k) stack f
        lastRepeat ((toks ≫= written_token) ++ rest)
      = syntax.parse (length rest + k') stack
          (foldl syntax.push f (read_token <$> toks)) lastRepeat' rest.
Proof.
  induction toks as [|t toks IH]; intros Hok k stack f lastRepeat rest Hr.
  - by exists k, lastRepeat.
  - apply Forall_cons in Hok as [Ht Hok].
    rewrite bind_cons, <- app_assoc, fmap_cons. cbn [foldl].
    destruct (parse_token t k stack f lastRepeat
                ((toks ≫= written_token) ++ rest) Ht
                (skip_lazy_tokens toks rest Hr)) as (k1 & lr1 & ->).
    apply IH; done.
Qed.

Lemma parse_end (fuel : nat) (f : syntax.frame) (lastRepeat : bool) :
  syntax.parse fuel [] f lastRepeat [] = inl (syntax.collapse f).
Proof. by destruct fuel. Qed.

(** [regexp.Compile] on the expression written for one alternative. *)
Lemma Compile_tokens (toks : list token) :
  Forall (λ t, if t is TRune c then ordinary c = true else True) toks →
  syntax.Compile (str "^" ++ (toks ≫= written_token) ++ str "$")
  = inl (syntax.concat
           (syntax.OpBeginText :: (read_token <$> toks) ++ [syntax.OpEndText])).
Proof.
  intros Hok. unfold syntax.Compile.
  change (str "^" ++ (toks ≫= written_token) ++ str "$")
    with (chr "^" :: (toks ≫= written_token) ++ str "$").
  cbn [length].
  rewrite <- (Nat.add_0_r (length ((toks ≫= written_token) ++ str "$"))).
  transitivity
    (syntax.parse (length ((toks ≫= written_token) ++ str "$") + 0) []
       (syntax.push syntax.empty_frame syntax.OpBeginText) false
       ((toks ≫= written_token) ++ str "$")); [reflexivity|].
  destruct (parse_tokens toks Hok 0 []
              (syntax.push syntax.empty_frame syntax.OpBeginText) false
              (str "$") eq_refl) as (k' & lr & ->).
  destruct (foldl_push (syntax.push syntax.empty_frame syntax.OpBeginText)
              (read_token <$> toks)) as [Ha Hc].
  destruct (foldl _ _ _) as [a cs]. simpl in Ha, Hc. subst a cs.
  transitivity
    (syntax.parse k' []
       {| syntax.alts := [];
          syntax.cur := syntax.OpEndText
                        :: rev (read_token <$> toks) ++ [syntax.OpBeginText] |}
       false []); [reflexivity|].
  rewrite parse_end. unfold syntax.collapse, syntax.bar.
  cbn [syntax.alts syntax.cur rev app syntax.alternate].
  do 2 f_equal. rewrite rev_app_distr, rev_involutive. reflexivity.
Qed.

(** *** What the compiled alternative matches *)

Lemma star_iff (P : rune → bool) (ms : syntax.cont → syntax.cont)
    (k : syntax.cont) (K : gostring → Prop) :
  (∀ k' bot c s, ms k' bot (c :: s) = P c && k' false s) →
  (∀ k' bot, ms k' bot [] = false) →
  (∀ b s, k b s = true ↔ K s) →
  ∀ (fuel : nat) (bot : bool) (s : gostring),
    length s ≤ fuel →
    syntax.star ms k fuel bot s = true
    ↔ ∃ x rest, s = x ++ rest ∧ forallb P x = true ∧ K rest.
Proof.
  intros Hcons Hnil Hk fuel.
  induction fuel as [|fuel IH]; intros bot s Hlen.
  - destruct s; [|simpl in Hlen; lia]. simpl. rewrite orb_false_r, Hk.
    split.
    + intros HK. by exists [], [].
    + intros (x & rest & E & _ & HK). symmetry in E.
      apply app_eq_nil in E as [_ ->]. done.
  - cbn [syntax.star]. rewrite orb_true_iff, Hk. split.
    + intros [HK|Hm]; [by exists [], s|].
      destruct s as [|c s]; [by rewrite Hnil in Hm|].
      rewrite Hcons in Hm.
      apply andb_prop in Hm as [Hc [_ Hs]%andb_prop].
      apply IH in Hs as (x & rest & -> & Hx & HK); [|simpl in Hlen; lia].
      exists (c :: x), rest. split; [done|]. split; [|done].
      simpl. by rewrite Hc.
    + intros (x & rest & -> & Hx & HK).
      destruct x as [|c x]; [by left|]. right.
      simpl in Hx. apply andb_prop in Hx as [Hc Hx].
      rewrite <- app_comm_cons, Hcons, Hc. cbn [andb].
      apply andb_true_intro. split; [apply Nat.ltb_lt; simpl; lia|].
      apply IH; [simpl in Hlen; lia|]. by exists x, rest.
Qed.

Lemma separator_class (c : rune) :
  syntax.class_matches true [syntax.Range (chr "/") (chr "/")] c = true
  ↔ c ≠ chr "/".
Proof.
  unfold syntax.class_matches, syntax.item_matches, syntax.in_range.
  cbn [existsb]. rewrite orb_false_r. change (chr "/") with 47%N.
  destruct (N.leb_spec 47 c), (N.leb_spec c 47); simpl; split; try done; lia.
Qed.

Lemma one_rune_class (c c' : rune) :
  syntax.class_matches false [syntax.Range c c] c' = true ↔ c' = c.
Proof.
  unfold syntax.class_matches, syntax.item_matches, syntax.in_range.
  cbn [existsb xorb]. rewrite orb_false_r, andb_true_iff, !N.leb_le. lia.
Qed.

Lemma m_read1_iff (c : rune) (k : syntax.cont) (bot : bool) (s : gostring) :
  syntax.m (read1 c) k bot s = true ↔ ∃ s', s = c :: s' ∧ k false s' = true.
Proof.
  unfold read1. destruct (c =?r chr "/"); cbn [syntax.m];
    (destruct s as [|c' s']; [split; [done|by intros (? & ? & _)]|]);
    rewrite andb_true_iff.
  - unfold rune_eqb. rewrite N.eqb_eq. split.
    + intros [-> ?]. eauto.
    + by intros (? & [= -> ->] & ?).
  - rewrite one_rune_class. split.
    + intros [-> ?]. eauto.
    + by intros (? & [= -> ->] & ?).
Qed.

(** The matcher on the expression read for a sequence of tokens. *)
Lemma m_tokens (toks : list token) :
  ∀ (bot : bool) (s : gostring),
    syntax.m (syntax.concat ((read_token <$> toks) ++ [syntax.OpEndText]))
      syntax.accept bot s = true
    ↔ denotes toks s.
Proof.
  induction toks as [|t toks IH]; intros bot s.
  - simpl. destruct s; [done|]. split; done.
  - rewrite fmap_cons, <- app_comm_cons, m_concat_cons.
    set (k := syntax.m
                (syntax.concat ((read_token <$> toks) ++ [syntax.OpEndText]))
                syntax.accept) in *.
    destruct t as [c| | |]; cbn [read_token denotes].
    + rewrite m_read1_iff. by setoid_rewrite IH.
    + cbn [syntax.m]. destruct s as [|c s].
      { split; [done|]. intros (x & s' & E & Hx & _). symmetry in E.
        by apply app_eq_nil in E as [-> _]. }
      rewrite andb_true_iff, separator_class.
      rewrite (star_iff
                 (syntax.class_matches true
                    [syntax.Range (chr "/") (chr "/")])
                 _ k (denotes toks)); [|done|done|apply IH|done].
      split.
      * intros (Hc & x & rest & -> & Hx & Hd).
        exists (c :: x), rest. split; [done|]. split; [done|]. split; [|done].
        apply Forall_cons. split; [done|].
        apply Forall_forall. intros c' Hc'.
        rewrite forallb_forall in Hx.
        by apply separator_class, Hx, list_elem_of_In.
      * intros (x & rest & E & Hne & Hx & Hd).
        destruct x as [|c' x]; [done|]. injection E as -> ->.
        apply Forall_cons in Hx as [Hc Hx]. split; [done|].
        exists x, rest. split; [done|]. split; [|done].
        apply forallb_forall. intros c1 Hc1%list_elem_of_In.
        rewrite Forall_forall in Hx. by apply separator_class, Hx.
    + cbn [syntax.m]. destruct s as [|c s].
      { split; [done|]. by intros (? & ? & ? & _). }
      rewrite andb_true_iff, IH.
      unfold syntax.class_matches, syntax.item_matches. cbn [existsb].
      split.
      * intros [Hc Hd]. exists c, s. split; [done|]. split; [|done].
        by destruct (syntax.perl_matches syntax.ClassSpace c).
      * intros (? & ? & [= <- <-] & Hc & ?). by rewrite Hc.
    + cbn [syntax.m].
      rewrite (star_iff (λ c, negb (c =?r 10)) _ k (denotes toks));
        [|done|done|apply IH|done].
      split.
      * intros (x & rest & -> & Hx & Hd). exists x, rest.
        split; [done|]. split; [|done].
        apply Forall_forall. intros c Hc. rewrite forallb_forall in Hx.
        apply list_elem_of_In, Hx, negb_true_iff in Hc.
        unfold rune_eqb in Hc. by apply N.eqb_neq.
      * intros (x & rest & -> & Hx & Hd). exists x, rest.
        split; [done|]. split; [|done]. by apply not_newline.
Qed.

(** An expression that begins with [^] matches from the start of the
    text only. *)
Lemma MatchString_anchored (res : list syntax.Regexp) (s : gostring) :
  syntax.MatchString (syntax.concat (syntax.OpBeginText :: res)) s
  = syntax.m (syntax.concat res) syntax.accept true s.
Proof.
  assert (∀ s', syntax.search (syntax.concat (syntax.OpBeginText :: res))
                  false s' = false) as Hlater.
  { induction s' as [|c s' IH]; cbn [syntax.search];
      rewrite m_concat_cons; cbn [syntax.m andb orb]; done. }
  unfold syntax.MatchString.
  destruct s as [|c s]; cbn [syntax.search]; rewrite m_concat_cons;
    cbn [syntax.m andb]; [by rewrite orb_false_r|].
  by rewrite Hlater, orb_false_r.
Qed.

Lemma strings_Split_none (s : gostring) (sep : rune) :
  forallb (λ c, negb (c =?r sep)) s = true → strings_Split s sep = [s].
Proof.
  induction s as [|c s IH]; [done|]. simpl.
  intros [Hc Hs]%andb_prop. apply negb_true_iff in Hc.
  by rewrite Hc, (IH Hs).
Qed.

Lemma tokens_ordinary (toks : list token) :
  ∀ rs,
    tokens rs = Some toks → forallb one_byte rs = true →
    Forall (λ t, if t is TRune c then ordinary c = true else True) toks.
Proof.
  induction toks as [|t toks IH]; intros rs Ht Hb; [constructor|].
  apply tokens_cons in Ht as (pre & rs' & -> & Hl & Ht).
  rewrite forallb_app in Hb. apply andb_prop in Hb as [Hpre Hrs'].
  constructor; [|by eapply IH].
  destruct t as [c| | |]; [|done..].
  eapply lexeme_ordinary; [done|]. destruct Hl as (-> & _).
  simpl in Hpre. by apply andb_prop in Hpre as [? _].
Qed.

(** What [compilePattern] returns for a source of one alternative. *)
Lemma compilePattern_tokens `{Host} (c : rune) (rest : gostring)
    (toks : list token) :
  (c =?r chr "%") = false →
  forallb (λ c, negb (c =?r chr "|")) (c :: rest) = true →
  tokens (resolve (c :: rest)) = Some toks →
  forallb one_byte (resolve (c :: rest)) = true →
  compilePattern (H := re2) (c :: rest)
  = Returns (inl (syntax.concat
                    (syntax.OpBeginText
                     :: (read_token <$> toks) ++ [syntax.OpEndText]))).
Proof.
  intros Hc Hbar Ht Hb. rewrite compilePattern_cons, Hc.
  rewrite strings_Split_none by done.
  cbn [alternatives Nat.eqb app].
  rewrite (translate_tokens _ _ _ _ Ht). cbn [regexp_Compile re2].
  rewrite <- app_assoc. f_equal. apply Compile_tokens.
  by eapply tokens_ordinary.
Qed.

(** X15: for a source of one alternative that is no raw expression, whose
    resolved path has runes of one byte only and no invalid wildcard,
    [compilePattern] returns a matcher, and the matcher accepts a path
    exactly when the whole path is what the tokens of the resolved source
    stand for: each plain rune for itself, [*] for one rune or more
    without a slash, [?] for one rune that is no white space (a slash
    too), [**/] for any text without a newline (the empty text, and text
    that ends within a name, too). *)
Theorem glob_semantics `{Host} (c : rune) (rest : gostring)
    (toks : list token) :
  (c =?r chr "%") = false →
  forallb (λ c, negb (c =?r chr "|")) (c :: rest) = true →
  tokens (resolve (c :: rest)) = Some toks →
  forallb one_byte (resolve (c :: rest)) = true →
  ∃ re,
    compilePattern (H := re2) (c :: rest) = Returns (inl re)
    ∧ ∀ s, syntax.MatchString re s = true ↔ denotes toks s.
Proof.
  intros Hc Hbar Ht Hb. eexists. split.
  - by apply compilePattern_tokens.
  - intros s. rewrite MatchString_anchored. apply m_tokens.
Qed.

Lemma tokens_plain (x : gostring) :
  forallb (λ c, negb (c =?r chr "*") && negb (c =?r chr "?")) x = true →
  tokens x = Some (TRune <$> x).
Proof.
  induction x as [|c x IH]; [done|]. cbn [forallb tokens].
  intros [[Hs Hq]%andb_prop Hx]%andb_prop.
  apply negb_true_iff in Hs, Hq. rewrite Hs, Hq, (IH Hx). done.
Qed.

Lemma denotes_plain (x s : gostring) : denotes (TRune <$> x) s ↔ s = x.
Proof.
  revert s. induction x as [|c x IH]; intros s; [done|].
  rewrite fmap_cons. cbn [denotes]. setoid_rewrite IH. split.
  - by intros (s' & -> & ->).
  - intros ->. by exists x.
Qed.

(** X16: a source without wildcards, of one alternative, matches one
    path and no other: the source resolved against the working directory
    ([filepath.Abs] cleans it), compared as a whole. *)
Theorem plain_pattern_exact `{Host} (c : rune) (rest : gostring) :
  (c =?r chr "%") = false →
  forallb (λ c, negb (c =?r chr "|")) (c :: rest) = true →
  forallb (λ c, negb (c =?r chr "*") && negb (c =?r chr "?"))
    (resolve (c :: rest)) = true →
  forallb one_byte (resolve (c :: rest)) = true →
  ∃ re,
    compilePattern (H := re2) (c :: rest) = Returns (inl re)
    ∧ ∀ s, syntax.MatchString re s = true ↔ s = resolve (c :: rest).
Proof.
  intros Hc Hbar Hplain Hb. eexists. split.
  - apply compilePattern_tokens; [done..| |done]. by apply tokens_plain.
  - intros s. rewrite MatchString_anchored, m_tokens. apply denotes_plain.
Qed.

(** *** The matcher and the texts matched *)

Lemma star_insensitive (ms : syntax.cont → syntax.cont) (k : syntax.cont) :
  insensitive k →
  (∀ k', insensitive k' → insensitive (ms k')) →
  ∀ fuel, insensitive (syntax.star ms k fuel).
Proof.
  intros Hk Hms fuel.
  induction fuel as [|fuel IH]; intros bot s; cbn [syntax.star].
  - by rewrite Hk.
  - rewrite Hk. f_equal. apply Hms. intros b s'. by rewrite IH.
Qed.

Lemma m_insensitive (re : syntax.Regexp) :
  anchor_free re = true →
  ∀ k, insensitive k → insensitive (syntax.m re k).
Proof.
  induction re as [|r|negated items| | | |sub IH|sub IH|sub IH|sub IH
                   |a IHa b IHb|a IHa b IHb];
    intros Hre k Hk bot s; cbn [syntax.m]; try done.
  - by apply IH.
  - apply star_insensitive; [done|]. intros k' Hk'. by apply IH.
  - apply IH; [done|]. intros b s'. by apply star_insensitive; [|apply IH].
  - rewrite (IH Hre k Hk bot s). by rewrite Hk.
  - simpl in Hre. apply andb_prop in Hre as [Ha Hb].
    apply IHa; [done|]. by apply IHb.
  - simpl in Hre. apply andb_prop in Hre as [Ha Hb].
    by rewrite (IHa Ha k Hk bot s), (IHb Hb k Hk bot s).
Qed.

(** Rounds of a repetition. *)
Lemma star_rounds (ms : syntax.cont → syntax.cont) (X : gostring → Prop)
    (k : syntax.cont) :
  (∀ k', insensitive k' → insensitive (ms k')) →
  (∀ k' bot s, insensitive k' →
     ms k' bot s = true
     ↔ ∃ x rest, s = x ++ rest ∧ X x ∧ k' false rest = true) →
  insensitive k →
  ∀ (fuel : nat) (bot : bool) (s : gostring),
    length s ≤ fuel →
    syntax.star ms k fuel bot s = true
    ↔ ∃ xs rest, s = concat xs ++ rest
                 ∧ Forall (λ x, X x ∧ x ≠ []) xs ∧ k false rest = true.
Proof.
  intros Hins Hms Hk fuel.
  induction fuel as [|fuel IH]; intros bot s Hlen.
  - destruct s; [|simpl in Hlen; lia]. simpl. rewrite orb_false_r, Hk. split.
    + intros HK. by exists [], [].
    + intros (xs & rest & E & _ & HK). symmetry in E.
      by apply app_eq_nil in E as [_ ->].
  - cbn [syntax.star]. rewrite orb_true_iff, Hk.
    assert (insensitive
              (λ bot' s', (length s' <? length s)%nat
                          && syntax.star ms k fuel bot' s')) as Hk'.
    { intros b s'. f_equal. by apply star_insensitive. }
    rewrite (Hms _ bot s Hk'). split.
    + intros [HK|(x & rest & -> & Hx & Hr)]; [by exists [], s|].
      apply andb_prop in Hr as [Hlt Hs]. apply Nat.ltb_lt in Hlt.
      rewrite length_app in Hlt, Hlen.
      apply IH in Hs as (xs & rest' & -> & Hxs & HK); [|lia].
      exists (x :: xs), rest'. simpl. rewrite <- app_assoc.
      split; [done|]. split; [|done]. constructor; [|done].
      split; [done|]. intros ->. simpl in Hlt. lia.
    + intros (xs & rest & -> & Hxs & HK).
      destruct xs as [|x xs]; [by left|]. right.
      apply Forall_cons in Hxs as [[Hx Hne] Hxs].
      exists x, (concat xs ++ rest). simpl. rewrite <- app_assoc.
      split; [done|]. split; [done|].
      apply andb_true_intro. split.
      * apply Nat.ltb_lt. rewrite (length_app x). destruct x; [done|].
        simpl. lia.
      * apply IH; [|by exists xs, rest].
        simpl in Hlen. rewrite <- app_assoc, length_app in Hlen.
        destruct x; [done|]. simpl in Hlen. lia.
Qed.

(** The matcher accepts a text exactly when a part at its start is
    matched by the expression and the continuation accepts the rest. *)
Lemma m_matches (re : syntax.Regexp) :
  anchor_free re = true →
  ∀ (k : syntax.cont) (bot : bool) (s : gostring),
    insensitive k →
    syntax.m re k bot s = true
    ↔ ∃ x rest, s = x ++ rest ∧ matches re x ∧ k false rest = true.
Proof.
  induction re as [|r|negated items| | | |sub IH|sub IH|sub IH|sub IH
                   |a IHa b IHb|a IHa b IHb];
    intros Hre k bot s Hk; cbn [syntax.m matches]; try done.
  - rewrite Hk. split.
    + intros HK. by exists [], s.
    + by intros (x & rest & -> & -> & HK).
  - destruct s as [|c s].
    { split; [done|]. by intros ([|? ?] & ? & ? & ? & _). }
    rewrite andb_true_iff. unfold rune_eqb. rewrite N.eqb_eq. split.
    + intros [-> HK]. by exists [r], s.
    + by intros (x & rest & E & -> & HK); injection E as -> ->.
  - destruct s as [|c s].
    { split; [done|]. by intros (x & rest & E & (c & -> & _) & _). }
    rewrite andb_true_iff. split.
    + intros [Hc HK]. exists [c], s. eauto.
    + by intros (x & rest & E & (c' & -> & Hc) & HK); injection E as -> ->.
  - destruct s as [|c s].
    { split; [done|]. by intros (x & rest & E & (c & -> & _) & _). }
    rewrite andb_true_iff, negb_true_iff. unfold rune_eqb.
    rewrite N.eqb_neq. split.
    + intros [Hc HK]. exists [c], s. eauto.
    + by intros (x & rest & E & (c' & -> & Hc) & HK); injection E as -> ->.
  - by apply IH.
  - rewrite (star_rounds (syntax.m sub) (matches sub) k); [| |by intros; apply IH|done|done].
    2: { intros k' Hk'. by apply m_insensitive. }
    split.
    + intros (xs & rest & -> & Hxs & HK). exists (concat xs), rest. eauto.
    + intros (x & rest & -> & (xs & -> & Hxs) & HK). by exists xs, rest.
  - simpl in Hre.
    assert (insensitive
              (λ bot' s', syntax.star (syntax.m sub) k (length s') bot' s'))
      as Hk'.
    { intros b s'. apply star_insensitive; [done|].
      intros k' ?. by apply m_insensitive. }
    rewrite (IH Hre _ bot s Hk'). split.
    + intros (y & rest & -> & Hy & Hs).
      apply (star_rounds (syntax.m sub) (matches sub) k) in Hs
        as (xs & rest' & -> & Hxs & HK);
        [|by intros; apply m_insensitive|by intros; apply IH|done|done].
      exists (y ++ concat xs), rest'. rewrite <- app_assoc.
      split; [done|]. split; [|done]. by exists y, xs.
    + intros (x & rest & -> & (y & xs & -> & Hy & Hxs) & HK).
      exists y, (concat xs ++ rest). rewrite <- app_assoc.
      split; [done|]. split; [done|].
      apply (star_rounds (syntax.m sub) (matches sub) k);
        [by intros; apply m_insensitive|by intros; apply IH|done|done|].
      by exists xs, rest.
  - simpl in Hre. rewrite orb_true_iff, (IH Hre k bot s Hk), Hk. split.
    + intros [(x & rest & -> & Hx & HK)|HK].
      * exists x, rest. eauto.
      * exists [], s. eauto.
    + intros (x & rest & -> & [->|Hx] & HK); [by right|]. left. eauto.
  - simpl in Hre. apply andb_prop in Hre as [Ha Hb].
    rewrite (IHa Ha _ bot s (m_insensitive b Hb k Hk)). split.
    + intros (y & rest & -> & Hy & Hm).
      apply (IHb Hb k false rest Hk) in Hm as (z & rest' & -> & Hz & HK).
      exists (y ++ z), rest'. rewrite <- app_assoc. eauto 10.
    + intros (x & rest & -> & (y & z & -> & Hy & Hz) & HK).
      exists y, (z ++ rest). rewrite <- app_assoc. split; [done|].
      split; [done|]. apply (IHb Hb k false _ Hk). eauto.
  - simpl in Hre. apply andb_prop in Hre as [Ha Hb].
    rewrite orb_true_iff, (IHa Ha k bot s Hk), (IHb Hb k bot s Hk). split.
    + intros [(x & rest & -> & Hx & HK)|(x & rest & -> & Hx & HK)];
        exists x, rest; eauto.
    + intros (x & rest & -> & [Hx|Hx] & HK); [left|right]; eauto.
Qed.

(** *** The expression of line 27 *)

Lemma runs_of_class (negated : bool) (items : list syntax.class_item)
    (P : rune → bool) (x : gostring) :
  (∀ c, syntax.class_matches negated items c = P c) →
  (∃ xs, x = concat xs
         ∧ Forall (λ y, matches (syntax.OpCharClass negated items) y ∧ y ≠ [])
             xs)
  ↔ forallb P x = true.
Proof.
  intros HP. split.
  - intros (xs & -> & Hxs).
    induction Hxs as [|y xs [(c & -> & Hc) _] _ IH]; [done|].
    simpl. by rewrite <- HP, Hc.
  - induction x as [|c x IH]; [by exists []|].
    simpl. intros [Hc Hx]%andb_prop. destruct (IH Hx) as (xs & -> & Hxs).
    exists ([c] :: xs). split; [done|]. constructor; [|done].
    split; [|done]. exists c. by rewrite HP.
Qed.

Lemma plus_of_class (negated : bool) (items : list syntax.class_item)
    (P : rune → bool) (x : gostring) :
  (∀ c, syntax.class_matches negated items c = P c) →
  matches (syntax.OpPlus (syntax.OpCharClass negated items)) x
  ↔ x ≠ [] ∧ forallb P x = true.
Proof.
  intros HP. cbn [matches]. split.
  - intros (y & xs & -> & (c & -> & Hc) & Hxs). split; [done|].
    simpl. rewrite <- HP, Hc. apply (runs_of_class negated items P); eauto.
  - intros [Hne Hx]. destruct x as [|c x]; [done|].
    simpl in Hx. apply andb_prop in Hx as [Hc Hx].
    apply (runs_of_class negated items P _ HP) in Hx as (xs & -> & Hxs).
    exists [c], xs. split; [done|]. split; [|done]. exists c. by rewrite HP.
Qed.

Lemma class_space (c : rune) :
  syntax.class_matches false
    [syntax.Perl syntax.ClassSpace false] c = space c.
Proof.
  unfold syntax.class_matches. cbn [existsb syntax.item_matches].
  fold (space c). by destruct (space c).
Qed.

Lemma class_not_space (c : rune) :
  syntax.class_matches false
    [syntax.Perl syntax.ClassSpace true] c = negb (space c).
Proof.
  unfold syntax.class_matches. cbn [existsb syntax.item_matches].
  fold (space c). by destruct (space c).
Qed.

Lemma class_lower (c : rune) :
  syntax.class_matches false [syntax.Range 97 122] c = lower c.
Proof.
  unfold syntax.class_matches. cbn [existsb syntax.item_matches].
  fold (lower c). by destruct (lower c).
Qed.

Lemma commandRe_parsed :
  commandRe (H := re2)
  = inl (syntax.concat
           [syntax.OpBeginText;
            syntax.OpStar
              (syntax.OpCharClass false [syntax.Perl syntax.ClassSpace false]);
            syntax.OpCapture
              (syntax.OpConcat (syntax.OpLiteral (chr ":"))
                 (syntax.OpConcat
                    (syntax.OpPlus
                       (syntax.OpCharClass false [syntax.Range 97 122]))
                    (syntax.OpQuest (syntax.OpLiteral (chr "!")))));
            syntax.OpStar
              (syntax.OpConcat
                 (syntax.OpPlus
                    (syntax.OpCharClass false
                       [syntax.Perl syntax.ClassSpace false]))
                 (syntax.OpCapture
                    (syntax.OpPlus
                       (syntax.OpCharClass false
                          [syntax.Perl syntax.ClassSpace true]))));
            syntax.OpEndText]).
Proof. vm_compute. reflexivity. Qed.

Lemma end_insensitive : insensitive (syntax.m syntax.OpEndText syntax.accept).
Proof. by intros bot [|c s]. Qed.

Lemma argument_matches (x : gostring) :
  matches
    (syntax.OpConcat
       (syntax.OpPlus
          (syntax.OpCharClass false [syntax.Perl syntax.ClassSpace false]))
       (syntax.OpCapture
          (syntax.OpPlus
             (syntax.OpCharClass false [syntax.Perl syntax.ClassSpace true]))))
    x
  ↔ argument x.
Proof.
  unfold argument. cbn [matches]. split.
  - intros (w & a & -> & Hw & Ha).
    apply (plus_of_class _ _ space _ class_space) in Hw as [? ?].
    apply (plus_of_class _ _ _ _ class_not_space) in Ha as [? ?].
    by exists w, a.
  - intros (w & a & -> & ? & ? & ? & ?). exists w, a. split; [done|]. split.
    + by apply (plus_of_class _ _ space _ class_space).
    + by apply (plus_of_class _ _ _ _ class_not_space).
Qed.

Lemma argument_not_empty (x : gostring) : argument x → x ≠ [].
Proof. intros (w & a & -> & Hw & _). by destruct w. Qed.

(** X17: a command is run inside goemon exactly when it is: white space,
    a colon, a name in lower-case letters, at most one exclamation mark,
    and any number of arguments, each after white space and free of white
    space.  Nothing may follow the last argument, white space neither. *)
Theorem internal_command_grammar (command : gostring) :
  is_internal (H := re2) command = true ↔ internal_form command.
Proof.
  unfold is_internal. rewrite commandRe_parsed.
  change (@MatchString re2) with syntax.MatchString.
  rewrite MatchString_anchored.
  set (r1 := syntax.OpStar _). set (r2 := syntax.OpCapture _).
  set (r3 := syntax.OpStar _).
  pose (kE := syntax.m syntax.OpEndText syntax.accept).
  change (syntax.m (syntax.concat [r1; r2; r3; syntax.OpEndText])
            syntax.accept true command)
    with (syntax.m r1 (syntax.m r2 (syntax.m r3 kE)) true command).
  assert (insensitive (syntax.m r3 kE)) as H3
    by (apply m_insensitive; [done|apply end_insensitive]).
  assert (insensitive (syntax.m r2 (syntax.m r3 kE))) as H2
    by (by apply m_insensitive).
  unfold internal_form. split.
  - intros Hm.
    apply m_matches in Hm as (ws & rest & -> & Hws & Hm); [|done|done].
    apply m_matches in Hm as (x2 & rest' & -> & Hx2 & Hm); [|done|done].
    apply m_matches in Hm as (x3 & rest & -> & Hx3 & Hm);
      [|done|apply end_insensitive].
    destruct rest; [|done]. rewrite app_nil_r.
    apply (runs_of_class _ _ space _ class_space) in Hws.
    destruct Hx2 as (? & z & -> & -> & name & bang & -> & Hname & Hbang).
    apply (plus_of_class _ _ lower _ class_lower) in Hname as [? ?].
    destruct Hx3 as (args & -> & Hargs).
    exists ws, name, bang, args. simpl. rewrite <- app_assoc.
    split; [done|]. split; [done|]. split; [done|]. split; [done|].
    split; [done|].
    eapply Forall_impl; [exact Hargs|]. intros x [Hx _].
    by apply argument_matches.
  - intros (ws & name & bang & args & -> & Hws & Hne & Hname & Hbang & Hargs).
    apply m_matches; [done|done|].
    exists ws, (chr ":" :: name ++ bang ++ concat args).
    split; [done|]. split.
    { by apply (runs_of_class _ _ space _ class_space). }
    apply m_matches; [done|done|].
    exists (chr ":" :: name ++ bang), (concat args).
    split; [by simpl; rewrite <- app_assoc|]. split.
    { exists [chr ":"], (name ++ bang). split; [done|]. split; [done|].
      exists name, bang. split; [done|]. split; [|done].
      by apply (plus_of_class _ _ lower _ class_lower). }
    apply m_matches; [done|apply end_insensitive|].
    exists (concat args), []. rewrite app_nil_r. split; [done|].
    split; [|done]. exists args. split; [done|].
    eapply Forall_impl; [exact Hargs|]. intros x Hx.
    split; [by apply argument_matches|by apply argument_not_empty].
Qed.

(** *** The properties at work *)

(** X1 at [late_event]: one goroutine is past line 172, and the counter
    is 1. *)
Lemma counter_accounting_witness :
  ∃ s, run_w late_event = Some s ∧ in_flight s = 1 ∧ tasks s = 1%N.
Proof.
  assert ((run_w late_event ≫= λ s : @state re2, Some (pool s))
          = Some [Returned;
                  Pipeline 0 (str "/w/src/main.go")
                    (PCommand [str "echo done"])]) as E.
  { vm_compute. reflexivity. }
  destruct (run_w late_event) as [s|] eqn:Hr; [|done]. simpl in E.
  injection E as Ep. exists s.
  destruct (counter_accounting server_args go_rules late_event s Hr)
    as [I _].
  unfold in_flight in *. rewrite Ep in *. by rewrite I.
Defined.

(** X2 at [second_event]: the second call of [g.task] holds the lock, and
    its next step gives it back. *)
Lemma lock_released_by_next_step_witness :
  ∃ (s : @state re2) t n th l s' t',
    run_w second_event = Some s
    ∧ heap s !! 0 = Some t
    ∧ pool s !! n = Some th
    ∧ holder th = Some 0
    ∧ (∀ n', holders s !! n' = Some (Some 0) → n' = n)
    ∧ release th n (length (pool s)) (hit t) = Some l
    ∧ @step re2 host_w s l = Some s'
    ∧ heap s' !! 0 = Some t'
    ∧ mutex t' = false.
Proof.
  assert ((run_w second_event ≫= λ s : @state re2,
             heap s !! 0 ≫= λ t : @task re2, Some (mutex t, main s))
          = Some (true, MPoll)) as E.
  { vm_compute. reflexivity. }
  destruct (run_w second_event) as [s|] eqn:Hr; [|done]. simpl in E.
  destruct (heap s !! 0) as [t|] eqn:Ht; [|done]. simpl in E.
  injection E as Hl Hm.
  destruct (lock_released_by_next_step server_args go_rules second_event s 0 t
              go_rules_idle Hr) as (n & th & l & s' & t' & K);
    [by rewrite Hm|done|done|].
  by exists s, t, n, th, l, s', t'.
Defined.

(** X3 at [late_event]: the goroutine of line 364 is before [spawn], the
    channel is empty and [Run] waits at line 368. *)
Lemma restart_channel_discipline_witness :
  ∃ s : @state re2,
    run_w late_event = Some s ∧ restarter s = RSpawn
    ∧ errChan s = None ∧ (main s = MSelect ∨ main s = MExited).
Proof.
  assert ((run_w late_event ≫= λ s : @state re2, Some (restarter s))
          = Some RSpawn) as E.
  { vm_compute. reflexivity. }
  destruct (run_w late_event) as [s|] eqn:Hr; [|done]. simpl in E.
  injection E as Hs.
  destruct (restart_channel_discipline server_args go_rules late_event s Hr)
    as [K _].
  exists s. split; [done|]. split; [done|]. apply K. by rewrite Hs.
Defined.

(** X4 without a command: an event is dispatched, and [Run] has
    returned. *)
Lemma restart_only_with_args_witness :
  ∃ s : @state re2,
    run_idle [LEvent main_go_written; LLock 0] = Some s
    ∧ @step re2 host_w s LNoArgs = None
    ∧ main s = MReturned
    ∧ @step re2 host_w s (LPoll 0) = None.
Proof.
  assert ((run_idle [LEvent main_go_written; LLock 0]
             ≫= λ s : @state re2, Some ()) = Some ()) as E.
  { vm_compute. reflexivity. }
  destruct (run_idle [LEvent main_go_written; LLock 0]) as [s|] eqn:Hr;
    [|done].
  destruct (restart_only_with_args [] go_rules _ s Hr) as (HA & HN & K).
  destruct (K eq_refl) as [Hm Hl].
  exists s. split; [done|]. split; [done|]. split; [done|]. by apply Hl.
Defined.

Lemma load_w_Some (g : @Goemon re2) (ReadFile : nat → option error)
    (yaml : document * option error) (r : @loaded re2) :
  load_w g ReadFile yaml = Some r →
  @load re2 host_w g ReadFile yaml = Returns r.
Proof. unfold load_w. destruct (load _ _ _); by intros [= <-]. Qed.

(** X7 with a file that cannot be read: the rules are gone. *)
Lemma failed_load_drops_rules_witness :
  ∃ r : @loaded re2,
    load_w (goemon_w []) unreadable (doc_w, None) = Some r
    ∧ load_err r = Some (str "open /w/goemon.yml: no such file or directory")
    ∧ g_Args (g_after r) = []
    ∧ g_conf_Tasks (g_after r) = [].
Proof.
  assert ((load_w (goemon_w []) unreadable (doc_w, None)
             ≫= λ r : @loaded re2, Some (load_err r))
          = Some (Some (str "open /w/goemon.yml: no such file or directory")))
    as E.
  { vm_compute. reflexivity. }
  destruct (load_w (goemon_w []) unreadable (doc_w, None)) as [r|] eqn:Hr;
    [|done]. simpl in E. injection E as He.
  destruct (failed_load_drops_rules (H0 := host_w) _ _ _ r _
              (load_w_Some _ _ _ _ Hr) He) as (HA & HT & _).
  exists r. split; [done|]. split; [done|]. split; [done|].
  apply HT. by left.
Defined.

(** X8 with arguments on the command line: the command of the file is
    not taken. *)
Lemma load_keeps_Args_witness :
  ∃ r : @loaded re2,
    load_w (goemon_w [str "go"; str "run"]) (λ _, None) (doc_w, None) = Some r
    ∧ g_Args (g_after r) = [str "go"; str "run"].
Proof.
  assert ((load_w (goemon_w [str "go"; str "run"]) (λ _, None) (doc_w, None)
             ≫= λ r : @loaded re2, Some ()) = Some ()) as E.
  { vm_compute. reflexivity. }
  destruct (load_w (goemon_w [str "go"; str "run"]) (λ _, None) (doc_w, None))
    as [r|] eqn:Hr; [|done].
  destruct (load_keeps_Args (H0 := host_w) _ _ _ r (load_w_Some _ _ _ _ Hr))
    as (K & _).
  exists r. split; [done|]. by apply K.
Defined.

(** X9 with a file read at the third attempt: two pauses, no error. *)
Lemma load_read_retries_witness :
  ∃ r : @loaded re2,
    load_w (goemon_w []) third_time (doc_w, None) = Some r
    ∧ load_slept r = 2 ∧ load_err r = None.
Proof.
  assert ((load_w (goemon_w []) third_time (doc_w, None)
             ≫= λ r : @loaded re2, Some ()) = Some ()) as E.
  { vm_compute. reflexivity. }
  destruct (load_w (goemon_w []) third_time (doc_w, None)) as [r|] eqn:Hr;
    [|done].
  destruct (load_read_retries (H0 := host_w) (goemon_w []) third_time
              (doc_w, None) r (str "/w/goemon.yml") eq_refl
              (load_w_Some _ _ _ _ Hr)) as (_ & K & _).
  exists r. split; [done|]. apply (K 2); [lia| |done].
  intros [|[|j]] Hj; [by eexists..|lia].
Defined.

(** X12 at a rule without [match]. *)
Lemma empty_match_never_selected_witness :
  @selects re2 (unmarshalled (entry_w "" "" ["go build"%string] []))
    main_go_written = false.
Proof.
  by destruct (@empty_match_never_selected re2 host_w
                 (entry_w "" "" ["go build"%string] []) main_go_written
                 eq_refl).
Defined.

(** X14: the event of the configuration file ends the loop. *)
Lemma watch_loop_until_reload_witness :
  watch_loop (str "/w/goemon.yml")
    (received_w ++ FromEvents config_written :: received_w)
  = ([main_go_written; main_go_written], [], Some received_w).
Proof.
  destruct (watch_loop_until_reload (str "/w/goemon.yml") received_w
              received_w config_written) as [K _]; [|done|exact K].
  by repeat constructor.
Defined.

(** X15 at ["a?c"] in [/w]: the question mark reads a slash. *)
Lemma glob_semantics_witness :
  accepts_w "a?c" "/w/a/c" = true ∧ accepts_w "a?c" "/w/abc" = true.
Proof.
  destruct (glob_semantics (H := host_w) (chr "a") (str "?c")
              [TRune (chr "/"); TRune (chr "w"); TRune (chr "/");
               TRune (chr "a"); TQuest; TRune (chr "c")])
    as (re & Hre & Hm); [reflexivity..|].
  unfold accepts_w, compile_w.
  change (str "a?c") with (chr "a" :: str "?c"). rewrite Hre.
  split; apply Hm; simpl; eauto 20.
Defined.

(** X16 at ["goemon.yml"] in [/w]. *)
Lemma plain_pattern_exact_witness :
  accepts_w "goemon.yml" "/w/goemon.yml" = true.
Proof.
  destruct (plain_pattern_exact (H := host_w) (chr "g") (str "oemon.yml"))
    as (re & Hre & Hm); [reflexivity..|].
  unfold accepts_w, compile_w.
  change (str "goemon.yml") with (chr "g" :: str "oemon.yml"). rewrite Hre.
  by apply Hm.
Defined.

(** X5 at [waiting_event]: the second call of [g.task] is at the lock
    that the first one holds. *)
Lemma no_goroutine_stuck_witness :
  ∃ s : @state re2,
    run_w waiting_event = Some s
    ∧ pool s !! 1 = Some (Dispatch main_go_written [0] false)
    ∧ Forall (λ p, is_Some (heap s !! p)) [0]
    ∧ ((∃ l s', place l = Some 1 ∧ @step re2 host_w s l = Some s')
       ∨ (∃ p t m thm,
            Some 0 = Some p
            ∧ holder (Dispatch main_go_written [0] false) = None
            ∧ heap s !! p = Some t ∧ mutex t = true
            ∧ m ≠ 1 ∧ pool s !! m = Some thm ∧ holder thm = Some p)).
Proof.
  assert ((run_w waiting_event ≫= λ s : @state re2,
             Some (pool s !! 1, main s))
          = Some (Some (Dispatch main_go_written [0] false), MPoll)) as E.
  { vm_compute. reflexivity. }
  destruct (run_w waiting_event) as [s|] eqn:Hr; [|done]. simpl in E.
  injection E as Hn Hm. exists s. split; [done|]. split; [done|].
  apply (no_goroutine_stuck server_args go_rules waiting_event s 1
           (Dispatch main_go_written [0] false) go_rules_idle Hr);
    [by rewrite Hm|done|done].
Defined.

